(** * mssql-cr-layer: the request layer of [src/index.js]

    A shallow embedding of the parameter binder ([convertParams], the
    binding loop of [query], [getType], [decimalPlaces]), of the result
    normalizer ([fold]), of the transaction helpers ([transaction],
    [beginTransaction], [commit], [rollback]), of the prepared-statement
    life cycle of [query] and of the connection registry ([connect],
    [close]), followed by the properties the specification states about
    them. *)

From Stdlib Require Import ZArith String Ascii List Bool Lia DecimalPos.
From stdpp Require Import gmap strings.
Import ListNotations.

Local Open Scope string_scope.
Local Open Scope list_scope.

(** ** Characters and the two regular expressions of the source *)

Module Chars.

(** Strings are handled as lists of characters inside the matchers. *)
Definition chars (s : string) : list ascii := list_ascii_of_string s.
Definition text (l : list ascii) : string := string_of_list_ascii l.

Definition code (c : ascii) : nat := nat_of_ascii c.

Definition between (lo hi : nat) (c : ascii) : bool :=
  (lo <=? code c)%nat && (code c <=? hi)%nat.

(** [\d] *)
Definition is_digit (c : ascii) : bool := between 48 57 c.

(** [\w] is [[A-Za-z0-9_]] (the expressions carry no unicode flag). *)
Definition is_word (c : ascii) : bool :=
  between 65 90 c || between 97 122 c || is_digit c || (code c =? 95)%nat.

Definition is_char (a c : ascii) : bool := (code a =? code c)%nat.

(** [\b] holds between two positions exactly when one side is a word
    character and the other is not; outside the string counts as not a
    word character. *)
Definition word_side (o : option ascii) : bool :=
  match o with Some c => is_word c | None => false end.

Definition boundary (prev : option ascii) (rest : list ascii) : bool :=
  xorb (word_side prev) (word_side (head rest)).

End Chars.
Import Chars.

(** ** Positional tokens: [statement.match(/(\$\w*\b)/g)] *)

Module TokenRegex.

(** [\w*\b] tried after the character [prev]: the star is greedy and
    gives characters back until the boundary assertion holds.  The
    result is the run of word characters consumed. *)
Fixpoint word_star_boundary (prev : ascii) (s : list ascii)
  : option (list ascii) :=
  let stop := if boundary (Some prev) s then Some [] else None in
  match s with
  | c :: t =>
      if is_word c then
        match word_star_boundary c t with
        | Some w => Some (c :: w)
        | None => stop
        end
      else stop
  | [] => stop
  end.

(** One attempt of [\$\w*\b] at the head of [s]: the matched text. *)
Definition match_here (s : list ascii) : option (list ascii) :=
  match s with
  | c :: t =>
      if is_char "$" c
      then option_map (cons c) (word_star_boundary c t)
      else None
  | [] => None
  end.

(** The loop of a global match: the leftmost match from [lastIndex],
    then [lastIndex] moves to the end of that match.  [skip] is the
    number of characters of [s] still covered by the previous match. *)
Fixpoint scan (skip : nat) (s : list ascii) : list (list ascii) :=
  match s with
  | [] => []
  | _ :: t =>
      match skip with
      | S k => scan k t
      | O =>
          match match_here s with
          | Some m => m :: scan (length m - 1) t
          | None => scan 0 t
          end
      end
  end.

(** [String.prototype.match] with the [g] flag: every matched text in
    order, or [null] when there is none. *)
Definition String_match (statement : string) : option (list string) :=
  match scan 0 (chars statement) with
  | [] => None
  | l => Some (map text l)
  end.

(** [(match && match.length) || 0] *)
Definition match_length (m : option (list string)) : nat :=
  match m with Some l => length l | None => 0 end.

(** [s.startsWith(p)], returning what follows the prefix. *)
Fixpoint strip_prefix (p s : list ascii) : option (list ascii) :=
  match p, s with
  | [], _ => Some s
  | a :: p', c :: s' => if is_char a c then strip_prefix p' s' else None
  | _ :: _, [] => None
  end.

(** [s.replace(p, r)] for a string pattern: only the first occurrence
    is replaced.  The replacements of the source, ['@p' + key], hold no
    [$], so no replacement pattern is expanded. *)
Fixpoint replace_first (p r s : list ascii) : list ascii :=
  match strip_prefix p s with
  | Some rest => r ++ rest
  | None =>
      match s with
      | [] => []
      | c :: t => c :: replace_first p r t
      end
  end.

Definition String_replace (s p r : string) : string :=
  text (replace_first (chars p) (chars r) (chars s)).

(** [param.substr(1)] *)
Definition substr1 (s : string) : string :=
  match s with
  | EmptyString => EmptyString
  | String _ t => t
  end.

End TokenRegex.
Import TokenRegex.

(** ** JavaScript numbers and their string form *)

Module JSNumber.

(** A number is kept as the decimal that [Number::toString] prints:
    [Dec m e] is [m * 10^e], the shortest decimal that reads back as
    the double.  Both zeroes print as ["0"] and are [===], so one zero
    is enough. *)
Inductive number : Type :=
| NaN
| Infinity (negative : bool)
| Dec (m e : Z).

Definition of_Z (z : Z) : number := Dec z 0.
Definition of_nat (n : nat) : number := Dec (Z.of_nat n) 0.

Fixpoint uint_chars (u : Decimal.uint) : list ascii :=
  match u with
  | Decimal.Nil => []
  | Decimal.D0 u => "0"%char :: uint_chars u
  | Decimal.D1 u => "1"%char :: uint_chars u
  | Decimal.D2 u => "2"%char :: uint_chars u
  | Decimal.D3 u => "3"%char :: uint_chars u
  | Decimal.D4 u => "4"%char :: uint_chars u
  | Decimal.D5 u => "5"%char :: uint_chars u
  | Decimal.D6 u => "6"%char :: uint_chars u
  | Decimal.D7 u => "7"%char :: uint_chars u
  | Decimal.D8 u => "8"%char :: uint_chars u
  | Decimal.D9 u => "9"%char :: uint_chars u
  end.

(** The decimal digits of a positive integer, most significant first. *)
Definition digits_of (p : positive) : list ascii :=
  uint_chars (Pos.to_uint p).

Definition Z_abs_chars (z : Z) : list ascii :=
  match z with
  | Z0 => ["0"%char]
  | Zpos p | Zneg p => digits_of p
  end.

Fixpoint drop_zeros (l : list ascii) : list ascii :=
  match l with
  | c :: t => if is_char "0" c then drop_zeros t else l
  | [] => []
  end.

(** The digits without their trailing zeroes: the [s] (of [k] digits)
    of [Number::toString]. *)
Definition significand (ds : list ascii) : list ascii :=
  rev (drop_zeros (rev ds)).

Definition zeros (n : nat) : list ascii := repeat "0"%char n.

(** [Number::toString] (radix 10) for the positive number with digits
    [s] ([k] of them) and decimal exponent [n], that is [0.s * 10^n]:
    the five cases of the language definition, in its order. *)
Definition render (s : list ascii) (n : Z) : list ascii :=
  let k := Z.of_nat (length s) in
  if (k <=? n)%Z && (n <=? 21)%Z then
    s ++ zeros (Z.to_nat (n - k))
  else if (0 <? n)%Z && (n <=? 21)%Z then
    firstn (Z.to_nat n) s ++ "."%char :: skipn (Z.to_nat n) s
  else if (-6 <? n)%Z && (n <=? 0)%Z then
    "0"%char :: "."%char :: zeros (Z.to_nat (- n)) ++ s
  else
    let e := (n - 1)%Z in
    let sign := if (e <? 0)%Z then "-"%char else "+"%char in
    match s with
    | [d] => d :: "e"%char :: sign :: Z_abs_chars e
    | d :: ds => d :: "."%char :: ds ++ "e"%char :: sign :: Z_abs_chars e
    | [] => []
    end.

Definition render_pos (p : positive) (e : Z) : list ascii :=
  let ds := digits_of p in
  render (significand ds) (Z.of_nat (length ds) + e).

(** ['' + value] for a number. *)
Definition toString (x : number) : string :=
  match x with
  | NaN => "NaN"
  | Infinity false => "Infinity"
  | Infinity true => "-Infinity"
  | Dec Z0 _ => "0"
  | Dec (Zpos p) e => text (render_pos p e)
  | Dec (Zneg p) e => text ("-"%char :: render_pos p e)
  end.

(** [ToBoolean] of a number: zero and NaN are falsy. *)
Definition truthy (x : number) : bool :=
  match x with
  | NaN => false
  | Infinity _ => true
  | Dec m _ => negb (m =? 0)%Z
  end.

(** [x === y] on numbers: equal values, and NaN equal to nothing. *)
Definition strict_eq (x y : number) : bool :=
  match x, y with
  | Infinity a, Infinity b => Bool.eqb a b
  | Dec m1 e1, Dec m2 e2 =>
      let lo := Z.min e1 e2 in
      (m1 * 10 ^ (e1 - lo) =? m2 * 10 ^ (e2 - lo))%Z
  | _, _ => false
  end.

End JSNumber.
Import JSNumber.

(** ** [decimalPlaces]: [/(?:\.(\d+))?(?:[eE]([+-]?\d+))?$/] *)

Module DecimalRegex.

(** [\d+] followed by the rest of the expression [k]: greedy, the
    longest run is tried first and shorter ones after it.  [k]
    receives the digits consumed and what is left of the input. *)
Fixpoint digits_plus {A} (s : list ascii)
    (k : list ascii -> list ascii -> option A) : option A :=
  match s with
  | c :: t =>
      if is_digit c then
        match digits_plus t (fun ds rest => k (c :: ds) rest) with
        | Some r => Some r
        | None => k [c] t
        end
      else None
  | [] => None
  end.

(** [$]: the end of the input. *)
Definition at_end {A} (a : A) (rest : list ascii) : option A :=
  match rest with [] => Some a | _ :: _ => None end.

(** [(?:[eE]([+-]?\d+))?$]: the group is tried first (its sign first),
    then skipped.  The result is the second capture. *)
Definition exponent_then_end (s : list ascii)
  : option (option (list ascii)) :=
  let group :=
    match s with
    | c :: t =>
        if is_char "e" c || is_char "E" c then
          let signed :=
            match t with
            | sg :: t' =>
                if is_char "+" sg || is_char "-" sg
                then digits_plus t' (fun ds => at_end (sg :: ds))
                else None
            | [] => None
            end in
          match signed with
          | Some cap => Some cap
          | None => digits_plus t (fun ds => at_end ds)
          end
        else None
    | [] => None
    end in
  match group with
  | Some cap => Some (Some cap)
  | None => at_end None s
  end.

(** One attempt of the whole expression at the head of [s]: both
    captures ([None] is [undefined]). *)
Definition match_here (s : list ascii)
  : option (option (list ascii) * option (list ascii)) :=
  let group :=
    match s with
    | c :: t =>
        if is_char "." c
        then digits_plus t (fun ds rest =>
               option_map (pair (Some ds)) (exponent_then_end rest))
        else None
    | [] => None
    end in
  match group with
  | Some r => Some r
  | None => option_map (pair None) (exponent_then_end s)
  end.

(** [String.prototype.match] without the [g] flag: the leftmost
    position at which the expression matches. *)
Fixpoint exec (s : list ascii)
  : option (option (list ascii) * option (list ascii)) :=
  match match_here s with
  | Some r => Some r
  | None =>
      match s with
      | [] => None
      | _ :: t => exec t
      end
  end.

Definition digit_value (c : ascii) : Z := Z.of_nat (code c) - 48.

Definition digits_value (ds : list ascii) : Z :=
  fold_left (fun acc c => 10 * acc + digit_value c)%Z ds 0%Z.

(** Unary [+] on a capture of [[+-]?\d+]. *)
Definition to_number (s : list ascii) : Z :=
  match s with
  | c :: t =>
      if is_char "-" c then (- digits_value t)%Z
      else if is_char "+" c then digits_value t
      else digits_value s
  | [] => 0%Z
  end.

End DecimalRegex.

(** [function decimalPlaces(num)] *)
Definition decimalPlaces (num : number) : Z :=
  match DecimalRegex.exec (chars (toString num)) with
  | Some (m1, m2) =>
      Z.max 0
        ((match m1 with Some d => Z.of_nat (length d) | None => 0 end)
         - (match m2 with Some e => DecimalRegex.to_number e | None => 0 end))
  | None => 0%Z
  end.

(** ** JavaScript values, failures and objects *)

(** What a promise rejects with, or a callback throws. *)
Inductive error : Type :=
| AssertionError (message : string)
| RangeError (message : string)
| TypeError (message : string)
| Failure (message : string).

Inductive result (A : Type) : Type :=
| Ok (a : A)
| Err (e : error).
Arguments Ok {A} a.
Arguments Err {A} e.

Definition is_ok {A} (r : result A) : bool :=
  match r with Ok _ => true | Err _ => false end.

(** The values a parameter can be.  A [Date] instance is kept as what
    its [toISOString()] returns, [None] for an invalid date; an object
    is the list of its own properties in [Object.keys] order. *)
#[warnings="-register-all"]
Inductive jsval : Type :=
| JUndefined
| JNull
| JBoolean (b : bool)
| JNumber (n : number)
| JString (s : string)
| JDate (iso : option string)
| JObject (props : list (string * jsval))
| JArray (elems : list jsval).

Module Obj.

(** [o[k]] on a property list. *)
Fixpoint get {A} (o : list (string * A)) (k : string) : option A :=
  match o with
  | [] => None
  | (k', v) :: t => if String.eqb k' k then Some v else get t k
  end.

(** [o[k] = v]: an existing property keeps its place. *)
Fixpoint set {A} (o : list (string * A)) (k : string) (v : A)
  : list (string * A) :=
  match o with
  | [] => [(k, v)]
  | (k', v') :: t =>
      if String.eqb k' k then (k, v) :: t else (k', v') :: set t k v
  end.

Definition keys {A} (o : list (string * A)) : list string := map fst o.

End Obj.

(** [param.name]: a property the value does not have reads as
    [undefined].  The source reads a property of [null] nowhere. *)
Definition prop (param : jsval) (name : string) : jsval :=
  match param with
  | JObject props =>
      match Obj.get props name with Some v => v | None => JUndefined end
  | _ => JUndefined
  end.

(** [ToBoolean] *)
Definition truthy (v : jsval) : bool :=
  match v with
  | JUndefined | JNull => false
  | JBoolean b => b
  | JNumber n => JSNumber.truthy n
  | JString s => negb (String.eqb s EmptyString)
  | JDate _ | JObject _ | JArray _ => true
  end.

(** [typeof v === 'object'] *)
Definition typeof_object (v : jsval) : bool :=
  match v with
  | JNull | JDate _ | JObject _ | JArray _ => true
  | _ => false
  end.

(** [v instanceof Date] *)
Definition is_Date (v : jsval) : bool :=
  match v with JDate _ => true | _ => false end.

(** [v === void 0] and [v === null] *)
Definition is_undefined (v : jsval) : bool :=
  match v with JUndefined => true | _ => false end.

Definition is_null (v : jsval) : bool :=
  match v with JNull => true | _ => false end.

(** [v === 'literal'] *)
Definition is_string (v : jsval) (literal : string) : bool :=
  match v with JString s => String.eqb s literal | _ => false end.

(** [d.toISOString()] throws on an invalid date. *)
Definition toISOString (d : option string) : result string :=
  match d with
  | Some iso => Ok iso
  | None => Err (RangeError "Invalid time value")
  end.

(** ** Driver types *)

Module mssql.

(** The column types the layer passes to [ps.input]; [NVarCharN] is
    [mssql.NVarChar(length)]. *)
Inductive sqltype : Type :=
| NVarChar
| NVarCharN (length : jsval)
| Int
| Decimal (precision scale : jsval)
| Date
| DateTime2
| DateTimeOffset.

End mssql.

(** ** The type inferencer *)

(** A bound input is a value, or the [Date] built by [new Date(value)]. *)
Inductive bound : Type :=
| Bound (v : jsval)
| NewDate (arg : jsval).

Definition bound_is_Date (b : bound) : bool :=
  match b with
  | Bound v => is_Date v
  | NewDate _ => true
  end.

Definition bound_is_null (b : bound) : bool :=
  match b with
  | Bound v => is_null v
  | NewDate _ => false
  end.

(** [function getType(value, param)]; a call with one argument has
    [param = JUndefined]. *)
Definition getType (value : bound) (param : jsval) : mssql.sqltype :=
  if truthy param && truthy (prop param "type") then
    let type := prop param "type" in
    if is_string type "integer" then mssql.Int
    else if is_string type "number" then
      mssql.Decimal (prop param "maxLength") (prop param "decimals")
    else if is_string type "date" then mssql.Date
    else if is_string type "datetime" then
      if is_string (prop param "timezone") "ignore"
      then mssql.DateTime2
      else mssql.DateTimeOffset
    else if is_string type "string" then
      if truthy (prop param "maxLength")
      then mssql.NVarCharN (prop param "maxLength")
      else mssql.NVarChar
    else mssql.NVarChar
  else
    if bound_is_Date value then mssql.DateTime2
    else
      match value with
      | Bound (JNumber n) =>
          mssql.Decimal
            (JNumber (of_nat (String.length (toString n))))
            (JNumber (of_Z (decimalPlaces n)))
      | _ => mssql.NVarChar
      end.

(** ** The parameter binder *)

(** The [params] argument of [query] once it is neither [undefined] nor
    [null]: an array, whose holes are [None], or an object. *)
Inductive params : Type :=
| ParamsArray (elems : list (option jsval))
| ParamsObject (props : list (string * jsval)).

Module JSArray.

(** [Object.keys(array).length]: the elements that are present. *)
Definition keys_length (a : list (option jsval)) : nat :=
  length (List.filter (fun o => match o with Some _ => true | None => false end) a).

(** [array[i]] *)
Definition get (a : list (option jsval)) (i : nat) : jsval :=
  match nth_error a i with
  | Some (Some v) => v
  | _ => JUndefined
  end.

End JSArray.

Module KeyNumber.

Definition hex_value (c : ascii) : option Z :=
  if is_digit c then Some (Z.of_nat (code c) - 48)%Z
  else if between 97 102 c then Some (Z.of_nat (code c) - 87)%Z
  else if between 65 70 c then Some (Z.of_nat (code c) - 55)%Z
  else None.

(** The value of a non-empty run of digits in the given radix. *)
Fixpoint radix_value (radix acc : Z) (s : list ascii) : option Z :=
  match s with
  | [] => Some acc
  | c :: t =>
      match hex_value c with
      | Some d =>
          if (d <? radix)%Z then radix_value radix (radix * acc + d)%Z t
          else None
      | None => None
      end
  end.

Definition digits (radix : Z) (s : list ascii) : option Z :=
  match s with
  | [] => None
  | _ :: _ => radix_value radix 0 s
  end.

Fixpoint split_exponent (s : list ascii) : list ascii * option (list ascii) :=
  match s with
  | [] => ([], None)
  | c :: t =>
      if is_char "e" c || is_char "E" c then ([], Some t)
      else let (m, e) := split_exponent t in (c :: m, e)
  end.

(** [Number(key)] for a key made of word characters, when it is a
    finite number: decimal digits with an optional exponent, or a
    binary, octal or hexadecimal integer.  ["Infinity"] and every
    other text ([NaN]) give [None]. *)
Definition Number (key : list ascii) : option Z :=
  match key with
  | z :: x :: t =>
      if is_char "0" z && (is_char "x" x || is_char "X" x) then digits 16 t
      else if is_char "0" z && (is_char "o" x || is_char "O" x) then digits 8 t
      else if is_char "0" z && (is_char "b" x || is_char "B" x) then digits 2 t
      else
        match split_exponent key with
        | (m, None) => digits 10 m
        | (m, Some e) =>
            match digits 10 m, digits 10 e with
            | Some a, Some b => Some (a * 10 ^ b)%Z
            | _, _ => None
            end
        end
  | _ => digits 10 key
  end.

(** [Number(key) - 1] as an array index: an integer from [0] to
    [2^32 - 2].  Anything else names no element of an array. *)
Definition index (key : string) : option nat :=
  match Number (chars key) with
  | Some v =>
      if (1 <=? v)%Z && (v <=? 4294967295)%Z
      then Some (Z.to_nat (v - 1))
      else None
  | None => None
  end.

End KeyNumber.

(** [params[Number(key) - 1]] *)
Definition positional (a : list (option jsval)) (key : string) : jsval :=
  match KeyNumber.index key with
  | Some i => JSArray.get a i
  | None => JUndefined
  end.

Definition arity_message : string :=
  "There are more parameters in statement than in object params".

(** One step of [match.map(function(param) {...})]: the statement and
    [paramsObj] after the token [param]. *)
Definition convert_token (a : list (option jsval))
    (acc : string * list (string * jsval)) (param : string)
  : string * list (string * jsval) :=
  let (statement, paramsObj) := acc in
  let key := substr1 param in
  (String_replace statement param ("@p" ++ key),
   Obj.set paramsObj ("p" ++ key) (positional a key)).

(** [convertParams]: the statement and the parameters to bind, or the
    assertion failure. *)
Definition convertParams (statement : string) (ps : params)
  : result (string * list (string * jsval)) :=
  match ps with
  | ParamsArray a =>
      let m := String_match statement in
      if (match_length m <=? JSArray.keys_length a)%nat then
        match m with
        | Some tokens => Ok (fold_left (convert_token a) tokens (statement, []))
        | None => Ok (statement, [])
        end
      else Err (AssertionError arity_message)
  | ParamsObject o => Ok (statement, o)
  end.

(** The body of [Object.keys(params).forEach(function(key) {...})] for
    one [param = params[key]], at a key that [input] keeps as an own
    property, where what the body reads back from [input[key]] is what
    it assigned ([bind_entry] below is the body at any key): the bound
    input and its driver type. *)
Definition bind_param (param : jsval) : result (bound * mssql.sqltype) :=
  if typeof_object param && negb (is_Date param) then
    let value :=
      if truthy param && negb (is_undefined (prop param "value"))
      then prop param "value"
      else JNull in
    let input :=
      if negb (is_null value)
         && (is_string (prop param "type") "date"
             || is_string (prop param "type") "datetime")
         && negb (is_Date value)
      then NewDate value
      else Bound value in
    Ok (input, getType input param)
  else
    let value := if negb (is_undefined param) then param else JNull in
    match value with
    | JDate d =>
        match toISOString d with
        | Ok iso =>
            let input := Bound (JString (String.substring 0 23 iso ++ "000")) in
            Ok (input, getType input JUndefined)
        | Err e => Err e
        end
    | _ => Ok (Bound value, getType (Bound value) JUndefined)
    end.

(** The inputs of a prepared statement: the own properties of the
    [input] handed to [ps.execute], and the types declared with
    [ps.input]. *)
Record inputs : Type := {
  input : list (string * bound);
  declared : list (string * mssql.sqltype)
}.

(** *** [input] as an object

    [input] is created as [{}], so its prototype is [Object.prototype].
    An assignment [input[key] = v] makes [key] an own property, except
    for the key [__proto__], which [Object.prototype] holds as an
    accessor: there the assignment calls the setter, which makes an
    object or [null] the prototype of [input] and ignores any other
    value, and the read calls the getter.  Objects are taken as plain
    data, inheriting from [Object.prototype]. *)
Inductive prototype : Type :=
| ObjectPrototype
| NoPrototype
| Instance (b : bound).

(** [input] as far as one key goes: the own property under the key, if
    there is one, and the prototype. *)
Record slot : Type := {
  own : option bound;
  proto : prototype
}.

(** [input] when the loop reaches a key.  [Object.keys] lists a key
    once, so the key is no own property yet; and the prototype is the
    first one until the key [__proto__] comes. *)
Definition fresh : slot := {| own := None; proto := ObjectPrototype |}.

(** What a lookup of [__proto__] finds above [input]: the accessor of
    [Object.prototype], a property of that name that the prototype
    has itself, or nothing. *)
Inductive found : Type :=
| Accessor
| Data (v : jsval)
| Nothing.

Definition lookup_above (p : prototype) : found :=
  match p with
  | ObjectPrototype => Accessor
  | NoPrototype => Nothing
  | Instance (Bound (JObject props)) =>
      match Obj.get props "__proto__" with
      | Some v => Data v
      | None => Accessor
      end
  | Instance _ => Accessor
  end.

(** [typeof v === 'object'] of a bound value. *)
Definition bound_is_object (b : bound) : bool :=
  match b with
  | Bound v => typeof_object v
  | NewDate _ => true
  end.

(** [Object.getPrototypeOf(input)]; [Object.prototype] itself is an
    object without a property that [Object.keys] lists: the loop asks
    it only whether it is [null], a [Date] or a number. *)
Definition prototype_value (p : prototype) : bound :=
  match p with
  | ObjectPrototype => Bound (JObject [])
  | NoPrototype => Bound JNull
  | Instance b => b
  end.

(** [input[key] = v]; [special] says that [key] is [__proto__]. *)
Definition assign (special : bool) (v : bound) (s : slot) : slot :=
  match own s with
  | Some _ => {| own := Some v; proto := proto s |}
  | None =>
      if special then
        match lookup_above (proto s) with
        | Accessor =>
            if bound_is_null v then {| own := None; proto := NoPrototype |}
            else if bound_is_object v then {| own := None; proto := Instance v |}
            else s
        | Data _ | Nothing => {| own := Some v; proto := proto s |}
        end
      else {| own := Some v; proto := proto s |}
  end.

(** [input[key]], which the loop reads after it assigned the key: an
    ordinary key is an own property by then. *)
Definition load (special : bool) (s : slot) : bound :=
  match own s with
  | Some b => b
  | None =>
      if special then
        match lookup_above (proto s) with
        | Accessor => prototype_value (proto s)
        | Data v => Bound v
        | Nothing => Bound JUndefined
        end
      else Bound JUndefined
  end.

(** Reading [param.type] of [null]. *)
Definition type_of_null : error :=
  TypeError "Cannot read properties of null (reading 'type')".

(** The body of [Object.keys(params).forEach(function(key) {...})] for
    one [param = params[key]], line by line: the own property it
    leaves under the key, if any, and the type it declares.  In the
    second branch what is read back is a value, never a [Date] the
    loop built. *)
Definition bind_entry (special : bool) (param : jsval)
  : result (option bound * mssql.sqltype) :=
  if typeof_object param && negb (is_Date param) then
    let value :=
      if truthy param && negb (is_undefined (prop param "value"))
      then prop param "value"
      else JNull in
    let s1 := assign special (Bound value) fresh in
    if negb (bound_is_null (load special s1)) then
      if is_null param then Err type_of_null
      else
        let s2 :=
          if (is_string (prop param "type") "date"
              || is_string (prop param "type") "datetime")
             && negb (bound_is_Date (load special s1))
          then
            match load special s1 with
            | Bound x => assign special (NewDate x) s1
            | NewDate _ => s1
            end
          else s1 in
        Ok (own s2, getType (load special s2) param)
    else Ok (own s1, getType (load special s1) param)
  else
    let value := if negb (is_undefined param) then param else JNull in
    let s1 := assign special (Bound value) fresh in
    match load special s1 with
    | Bound (JDate d) =>
        match toISOString d with
        | Ok iso =>
            let s2 :=
              assign special
                (Bound (JString (String.substring 0 23 iso ++ "000"))) s1 in
            Ok (own s2, getType (load special s2) JUndefined)
        | Err e => Err e
        end
    | b => Ok (own s1, getType b JUndefined)
    end.

(** The [forEach] over the keys; a throw ends it.  [ps.input(key,
    type)] is recorded under every key, the input under the keys that
    became own properties. *)
Fixpoint bind_all (ps : list (string * jsval)) (acc : inputs) : result inputs :=
  match ps with
  | [] => Ok acc
  | (key, param) :: rest =>
      match bind_entry (String.eqb key "__proto__") param with
      | Ok (stored, type) =>
          bind_all rest
            {| input :=
                 match stored with
                 | Some value => Obj.set (input acc) key value
                 | None => input acc
                 end;
               declared := Obj.set (declared acc) key type |}
      | Err e => Err e
      end
  end.

(** The first callback of [query]: [convertParams()] and the binding
    loop.  It yields the statement to prepare and the inputs. *)
Definition bind (statement : string) (ps : params) : result (string * inputs) :=
  match convertParams statement ps with
  | Ok (statement', obj) =>
      match bind_all obj {| input := []; declared := [] |} with
      | Ok i => Ok (statement', i)
      | Err e => Err e
      end
  | Err e => Err e
  end.

(** ** The result normalizer *)

Module Rows.

(** A column value as the driver delivers it.  Dates and buffers are
    objects: [===] compares them by reference, so they carry one.  The
    driver delivers no array as a column value: an array in a row is
    always its signal for a repeated column name. *)
Inductive cell : Type :=
| CNull
| CBoolean (b : bool)
| CNumber (n : number)
| CString (s : string)
| CObject (ref : nat).

(** [record[key]]: one value, or the array the driver builds when a
    column name occurs more than once in the statement. *)
Inductive column : Type :=
| Single (c : cell)
| Multi (elems : list cell).

(** [el === first] *)
Definition strict_eq (el first : cell) : bool :=
  match el, first with
  | CNull, CNull => true
  | CBoolean a, CBoolean b => Bool.eqb a b
  | CNumber a, CNumber b => JSNumber.strict_eq a b
  | CString a, CString b => String.eqb a b
  | CObject a, CObject b => (a =? b)%nat
  | _, _ => false
  end.

(** The body of the [forEach] of [fold] for one [value = record[key]]:
    the value of [record[key]] afterwards. *)
Definition fold_column (value : column) : column :=
  match value with
  | Multi ((first :: _) as elems) =>
      if (1 <? length elems)%nat
         && forallb (fun el => strict_eq el first) elems
      then Single first
      else value
  | _ => value
  end.

(** [fold(record)]: every key of the record is visited once. *)
Definition fold (record : gmap string column) : gmap string column :=
  fold_column <$> record.

(** [recordset ? recordset.map(fold) : []] *)
Definition normalize (recordset : option (list (gmap string column)))
  : list (gmap string column) :=
  match recordset with
  | Some rows => map fold rows
  | None => []
  end.

End Rows.

(** ** Promises over a driver *)

Section Promise.

Context {S : Type}.

(** A promise chain run against a state [S]: it settles to a value or
    a failure and leaves the state it reached. *)
Definition promise (A : Type) : Type := S -> result A * S.

(** [Promise.resolve(a)] *)
Definition resolve {A} (a : A) : promise A := fun s => (Ok a, s).

(** [throw e] inside a callback, [Promise.reject(e)] *)
Definition throw {A} (e : error) : promise A := fun s => (Err e, s).

(** [p.then(k)] *)
Definition and_then {A B} (p : promise A) (k : A -> promise B) : promise B :=
  fun s =>
    match p s with
    | (Ok a, s') => k a s'
    | (Err e, s') => (Err e, s')
    end.

(** [p.catch(h)] *)
Definition or_catch {A} (p : promise A) (h : error -> promise A) : promise A :=
  fun s =>
    match p s with
    | (Ok a, s') => (Ok a, s')
    | (Err e, s') => h e s'
    end.

(** A synchronous result entering the chain. *)
Definition settle {A} (r : result A) : promise A := fun s => (r, s).

Definition read {A} (f : S -> A) : promise A := fun s => (Ok (f s), s).

Definition update (f : S -> S) : promise unit := fun s => (Ok tt, f s).

(** A promise chain keeps a property of the state. *)
Definition preserves {A} (P : S -> Prop) (p : promise A) : Prop :=
  forall s, P s -> P (snd (p s)).

End Promise.

Declare Scope promise_scope.
Delimit Scope promise_scope with promise.
Notation "x <- p ;; k" := (and_then p (fun x => k))
  (at level 100, p at next level, right associativity) : promise_scope.
Notation "p ;; k" := (and_then p (fun _ => k))
  (at level 100, right associativity) : promise_scope.
Local Open Scope promise_scope.

(** What the driver answers to one call: whether it fails, and whether
    its [rollback] event fires on the transaction meanwhile. *)
Record response : Type := {
  failure : option error;
  emits_rollback : bool
}.

Definition outcome (r : response) : result unit :=
  match failure r with
  | None => Ok tt
  | Some e => Err e
  end.

Definition succeeds : response := {| failure := None; emits_rollback := false |}.

(** ** Transactions *)

(** The calls the layer makes on a [mssql.Transaction]. *)
Inductive tx_command : Type :=
| Begin (isolationLevel : string)
| Commit
| Rollback.

(** *** Scoped mode: [transaction(fn, options)] *)

Module Scoped.

(** The local [rolledBack] of one call and the commands it issued. *)
Record state : Type := {
  rolledBack : bool;
  issued : list tx_command
}.

Definition initial : state := {| rolledBack := false; issued := [] |}.

(** The driver of one run: the answer to each call. *)
Record driver : Type := {
  on_connect : option error;
  on_begin : response;
  on_commit : response;
  on_rollback : response
}.

(** What [fn(transaction)] does: how its promise settles, and whether
    the driver's [rollback] event fires while it runs. *)
Record work (R : Type) : Type := {
  settles : result R;
  aborts : bool
}.
Arguments settles {R} w.
Arguments aborts {R} w.

(** [transaction.on('rollback', function() { rolledBack = true })] *)
Definition listener (fires : bool) (s : state) : state :=
  {| rolledBack := rolledBack s || fires; issued := issued s |}.

(** A call on the transaction. *)
Definition call (c : tx_command) (r : response) : promise unit :=
  fun s =>
    (outcome r,
     listener (emits_rollback r)
       {| rolledBack := rolledBack s; issued := issued s ++ [c] |}).

Definition run {R} (fn : work R) : promise R :=
  fun s => (settles fn, listener (aborts fn) s).

(** [MssqlCrLayer.prototype.transaction] *)
Definition transaction {R} (d : driver) (isolationLevel : string)
    (fn : work R) : promise R :=
  (match on_connect d with None => resolve tt | Some e => throw e end ;;
   update (fun s => {| rolledBack := false; issued := issued s |}) ;;
   or_catch
     (call (Begin isolationLevel) (on_begin d) ;;
      res <- run fn ;;
      call Commit (on_commit d) ;;
      resolve res)
     (fun err =>
        rb <- read rolledBack ;;
        if negb rb
        then (call Rollback (on_rollback d) ;; throw err)
        else throw err))%promise.

End Scoped.

(** *** Step by step: [beginTransaction], [commit], [rollback] *)

Module StepByStep.

(** The module-level [rolledBack] map, the transactions carrying its
    listener, the [rollback] events delivered to a listener, the
    number of transactions created and the commands issued. *)
Record state : Type := {
  rolledBack : gmap nat bool;
  listening : gset nat;
  fired : list nat;
  created : nat;
  issued : list (nat * tx_command)
}.

Definition initial : state :=
  {| rolledBack := ∅; listening := ∅; fired := []; created := 0; issued := [] |}.

(** The driver emits [rollback] on [t]: the listener registered by
    [beginTransaction], if any, runs [rolledBack.set(transaction, true)]. *)
Definition emit (t : nat) (s : state) : state :=
  if bool_decide (t ∈ listening s) then
    {| rolledBack := <[t := true]> (rolledBack s);
       listening := listening s;
       fired := t :: fired s;
       created := created s;
       issued := issued s |}
  else s.

Definition call (t : nat) (c : tx_command) (r : response) : promise unit :=
  fun s =>
    let s' := {| rolledBack := rolledBack s;
                 listening := listening s;
                 fired := fired s;
                 created := created s;
                 issued := issued s ++ [(t, c)] |} in
    (outcome r, if emits_rollback r then emit t s' else s').

(** [new mssql.Transaction(connection)], [rolledBack.set(transaction,
    false)] and [transaction.on('rollback', ...)]. *)
Definition new_transaction : promise nat :=
  fun s =>
    let t := created s in
    (Ok t,
     {| rolledBack := <[t := false]> (rolledBack s);
        listening := {[t]} ∪ listening s;
        fired := fired s;
        created := S t;
        issued := issued s |}).

(** [rolledBack.get(transaction)] where a condition reads it. *)
Definition flag (t : nat) (s : state) : bool :=
  match rolledBack s !! t with
  | Some b => b
  | None => false
  end.

(** [MssqlCrLayer.prototype.beginTransaction] *)
Definition beginTransaction (connect : option error)
    (isolationLevel : string) (r : response) : promise nat :=
  (match connect with None => resolve tt | Some e => throw e end ;;
   t <- new_transaction ;;
   call t (Begin isolationLevel) r ;;
   resolve t)%promise.

(** [MssqlCrLayer.prototype.commit] *)
Definition commit (t : nat) (on_commit on_rollback : response) : promise unit :=
  or_catch (call t Commit on_commit)
    (fun err =>
       rb <- read (flag t) ;;
       if negb rb
       then (call t Rollback on_rollback ;; throw err)
       else throw err)%promise.

(** [MssqlCrLayer.prototype.rollback] *)
Definition rollback (t : nat) (on_rollback : response) : promise unit :=
  (rb <- read (flag t) ;;
   if rb then resolve tt else call t Rollback on_rollback)%promise.

(** What can happen to the layer: a call of one of its three
    operations, or the driver emitting [rollback] on its own. *)
Inductive action : Type :=
| DoBegin (connect : option error) (isolationLevel : string) (r : response)
| DoCommit (t : nat) (on_commit on_rollback : response)
| DoRollback (t : nat) (on_rollback : response)
| DriverRollback (t : nat).

Definition step (s : state) (a : action) : state :=
  match a with
  | DoBegin c l r => snd (beginTransaction c l r s)
  | DoCommit t rc rr => snd (commit t rc rr s)
  | DoRollback t r => snd (rollback t r s)
  | DriverRollback t => emit t s
  end.

Definition run (actions : list action) (s : state) : state :=
  fold_left step actions s.

End StepByStep.

(** ** [query]: requests and prepared statements *)

Module Query.

Import Rows.

(** The calls [query] makes on the driver.  [ps.input] only records a
    declaration in the statement object, which [Prepare] sends. *)
Inductive command : Type :=
| Connect
| RequestQuery (statement : string)
| Prepare (statement : string) (declared : list (string * mssql.sqltype))
| Execute (input : list (string * bound))
| Unprepare.

Record driver : Type := {
  on_connect : option error;
  on_query : result (option (list (gmap string column)));
  on_prepare : option error;
  on_execute : result (option (list (gmap string column)));
  (** the answer to the n-th [unprepare], counted from 0 *)
  on_unprepare : nat -> option error
}.

Definition state : Type := list command.

Definition is_unprepare (c : command) : bool :=
  match c with Unprepare => true | _ => false end.

Definition unprepares (s : state) : nat :=
  length (List.filter is_unprepare s).

Definition call {A} (c : command) (r : result A) : promise A :=
  fun s => (r, s ++ [c]).

Definition answer (f : option error) : result unit :=
  match f with None => Ok tt | Some e => Err e end.

(** [ps.unprepare()] *)
Definition unprepare (d : driver) : promise unit :=
  fun s => call Unprepare (answer (on_unprepare d (unprepares s))) s.

(** [transaction ? Promise.resolve(transaction) : this.connect()] *)
Definition connection (d : driver) (in_transaction : bool) : promise unit :=
  if in_transaction then resolve tt else call Connect (answer (on_connect d)).

(** [MssqlCrLayer.prototype.query]; [ps = None] is a call whose
    [params] is [undefined] or [null]. *)
Definition query (d : driver) (in_transaction : bool) (statement : string)
    (ps : option params) : promise (list (gmap string column)) :=
  match ps with
  | None =>
      (connection d in_transaction ;;
       recordset <- call (RequestQuery statement) (on_query d) ;;
       resolve (normalize recordset))%promise
  | Some p =>
      (connection d in_transaction ;;
       b <- settle (bind statement p) ;;
       call (Prepare (fst b) (declared (snd b))) (answer (on_prepare d)) ;;
       or_catch
         (recordset <- call (Execute (input (snd b))) (on_execute d) ;;
          unprepare d ;;
          resolve (normalize recordset))
         (fun error => unprepare d ;; throw error))%promise
  end.

(** [MssqlCrLayer.prototype.execute] *)
Definition execute := query.

End Query.

(** ** The connection registry *)

Module Registry.

(** The driver configuration, as far as [connect] reads it. *)
Record config : Type := {
  server : string;
  port : number;
  database : option string;
  user : option string;
  password : option string
}.

(** [`${x}`] for a property that may be [undefined]. *)
Definition show (o : option string) : string :=
  match o with Some s => s | None => "undefined" end.

(** [getConnectionKey()] *)
Definition getConnectionKey (c : config) : string :=
  server c ++ toString (port c) ++ show (database c) ++ show (user c).

(** [a === b] on passwords. *)
Definition same_password (a b : option string) : bool :=
  match a, b with
  | Some x, Some y => String.eqb x y
  | None, None => true
  | _, _ => false
  end.

(** An entry of [this.connections]: the configuration used and the
    pool, named by its creation rank. *)
Record entry : Type := {
  used : config;
  pool : nat
}.

Inductive command : Type :=
| NewPool (id : nat) (c : config)
| PoolConnect (id : nat)
| PoolClose (id : nat).

(** [this.connections] (a [Map] keeps its entries in insertion order,
    [None] before the first [connect] and after [close]), the number
    of pools created and the calls made on the driver. *)
Record state : Type := {
  connections : option (list (string * entry));
  pools : nat;
  issued : list command
}.

Definition initial : state :=
  {| connections := None; pools := 0; issued := [] |}.

(** [this.connections || new Map()] *)
Definition the_map (s : state) : list (string * entry) :=
  match connections s with Some m => m | None => [] end.

(** [this.connections = this.connections || new Map()] *)
Definition with_map (s : state) : state :=
  {| connections := Some (the_map s); pools := pools s; issued := issued s |}.

Definition log (c : command) (s : state) : state :=
  {| connections := connections s; pools := pools s; issued := issued s ++ [c] |}.

(** From [connection = {}] on: a new pool, its [connect()], and on
    success the registration under the key. *)
Definition open (c : config) (connected : option error) : promise nat :=
  fun s =>
    let id := pools s in
    let s' := log (PoolConnect id) (log (NewPool id c)
                {| connections := connections s; pools := S id; issued := issued s |}) in
    match connected with
    | None =>
        (Ok id,
         {| connections :=
              Some (Obj.set (the_map s') (getConnectionKey c) {| used := c; pool := id |});
            pools := pools s';
            issued := issued s' |})
    | Some e => (Err e, s')
    end.

(** [MssqlCrLayer.prototype.connect] for the configuration [c];
    [connected] is the answer of the new pool's [connect()]. *)
Definition connect (c : config) (connected : option error) : promise nat :=
  fun s =>
    let s0 := with_map s in
    match Obj.get (the_map s0) (getConnectionKey c) with
    | Some connection =>
        if same_password (password c) (password (used connection))
        then (Ok (pool connection), s0)
        else open c connected (log (PoolClose (pool connection)) s0)
    | None => open c connected s0
    end.

(** The chain built by [close]: the pools are closed one after the
    other and the first failure ends the chain. *)
Fixpoint close_each (closing : nat -> option error)
    (entries : list (string * entry)) : promise unit :=
  match entries with
  | [] => resolve tt
  | (_, e) :: rest =>
      fun s =>
        match closing (pool e) with
        | None => close_each closing rest (log (PoolClose (pool e)) s)
        | Some err => (Err err, log (PoolClose (pool e)) s)
        end
  end.

(** [MssqlCrLayer.prototype.close] *)
Definition close (closing : nat -> option error) : promise unit :=
  fun s =>
    close_each closing (the_map s)
      {| connections := None; pools := pools s; issued := issued s |}.

(** A pool is live once its [connect()] was called and until a
    [close()] is called on it. *)
Definition is_close_of (id : nat) (c : command) : bool :=
  match c with PoolClose i => (i =? id)%nat | _ => false end.

Definition live (s : state) (id : nat) : bool :=
  (id <? pools s)%nat && negb (existsb (is_close_of id) (issued s)).

(** The live entries registered for a configuration's key. *)
Definition live_entries (s : state) (c : config) : list (string * entry) :=
  List.filter
    (fun ke => String.eqb (fst ke) (getConnectionKey c) && live s (pool (snd ke)))
    (the_map s).

Inductive action : Type :=
| DoConnect (c : config) (connected : option error)
| DoClose (closing : nat -> option error).

Definition step (s : state) (a : action) : state :=
  match a with
  | DoConnect c r => snd (connect c r s)
  | DoClose closing => snd (close closing s)
  end.

Definition run (actions : list action) (s : state) : state :=
  fold_left step actions s.

End Registry.

(** ** The words of the specification *)

Module Spec.

(** The tokens of a statement, none when [match] is [null]. *)
Definition tokens (statement : string) : list string :=
  match String_match statement with Some l => l | None => [] end.

(** "The number of distinct positional tokens found". *)
Definition distinct_tokens (statement : string) : nat :=
  length (remove_dups (tokens statement)).

(** The places of a text where a [$] is directly followed by a word
    character: the occurrences of a positional token, repeated ones
    counted each time. *)
Fixpoint occurrences (s : list ascii) : nat :=
  match s with
  | [] => 0
  | c :: t =>
      (if is_char "$" c && word_side (head t) then 1 else 0)%nat
      + occurrences t
  end.

Definition token_occurrences (statement : string) : nat :=
  occurrences (chars statement).






(** A parameter the binding loop treats as a descriptor:
    [typeof param === 'object' && !(param instanceof Date)]. *)
Definition descriptor (param : jsval) : bool :=
  typeof_object param && negb (is_Date param).






(** "Every element is equal": any two elements of the array are [===]. *)
Definition all_equal (elems : list Rows.cell) : Prop :=
  forall x y, In x elems -> In y elems -> Rows.strict_eq x y = true.

(** The failure a scoped transaction has to report: the one of the
    work, or else the one of the commit. *)
Definition original_failure {R} (d : Scoped.driver) (fn : Scoped.work R)
  : option error :=
  match Scoped.settles fn with
  | Err e => Some e
  | Ok _ => failure (Scoped.on_commit d)
  end.

(** Whether the driver's [rollback] event fired before the failure
    reached the [catch]. *)
Definition rolled_back_already {R} (d : Scoped.driver) (fn : Scoped.work R)
  : bool :=
  emits_rollback (Scoped.on_begin d) || Scoped.aborts fn
  || match Scoped.settles fn with
     | Ok _ => emits_rollback (Scoped.on_commit d)
     | Err _ => false
     end.

Definition is_rollback (c : tx_command) : bool :=
  match c with Rollback => true | _ => false end.

(** The rollbacks a scoped transaction issued. *)
Definition rollbacks (s : Scoped.state) : nat :=
  length (List.filter is_rollback (Scoped.issued s)).

(** The commands of a parameterized [query] up to the execution. *)
Definition sent (in_transaction : bool) (b : string * inputs)
  : list Query.command :=
  (if in_transaction then [] else [Query.Connect])
  ++ [Query.Prepare (fst b) (declared (snd b)); Query.Execute (input (snd b))].

(** The entries registered under the key of a configuration. *)
Definition entries (s : Registry.state) (c : Registry.config)
  : list (string * Registry.entry) :=
  List.filter (fun ke => String.eqb (fst ke) (Registry.getConnectionKey c))
    (Registry.the_map s).

End Spec.

(** ** The shape of tokens and of number texts *)

Module Shapes.

Import Spec.

(** The word characters at the head of a text. *)
Fixpoint word_run (s : list ascii) : list ascii :=
  match s with
  | c :: t => if is_word c then c :: word_run t else []
  | [] => []
  end.

Definition digit (c : ascii) : Prop := is_digit c = true.

(** A character that starts neither group of the expression of
    [decimalPlaces]. *)
Definition plain (c : ascii) : Prop :=
  is_char "." c = false /\ is_char "e" c = false /\ is_char "E" c = false.

(** The text does not go on with a digit. *)
Definition stops (rest : list ascii) : Prop :=
  match rest with
  | c :: _ => is_digit c = false
  | [] => True
  end.

(** The scale the source computes from a string form, and the scale
    the specification describes. *)
Definition code_places (l : list ascii) : Z :=
  match DecimalRegex.exec l with
  | Some (m1, m2) =>
      Z.max 0
        ((match m1 with Some d => Z.of_nat (length d) | None => 0 end)
         - (match m2 with Some e => DecimalRegex.to_number e | None => 0 end))
  | None => 0%Z
  end.


(** The layout of a number's string form: a sign and digits, then an
    optional fraction, then an optional exponent. *)
Definition layout (pre : list ascii) (fraction : option (list ascii))
    (exp : option (ascii * list ascii)) : list ascii :=
  pre
  ++ (match fraction with Some ds => "."%char :: ds | None => [] end)
  ++ (match exp with Some (sg, ds) => "e"%char :: sg :: ds | None => [] end).

Definition digits1 (ds : list ascii) : Prop := ds <> [] /\ Forall digit ds.


End Shapes.

(** ** What every reachable state satisfies *)

Module Invariants.

(** The states the step-by-step layer can be in. *)
Definition reachable (s : StepByStep.state) : Prop :=
  exists actions, s = StepByStep.run actions StepByStep.initial.

(** What holds of the [rolledBack] map in every such state. *)
Definition flags_follow_events (s : StepByStep.state) : Prop :=
  (forall t, t ∈ StepByStep.listening s <-> t < StepByStep.created s)
  /\ (forall t, t ∈ StepByStep.listening s ->
        StepByStep.rolledBack s !! t
        = Some (bool_decide (t ∈ StepByStep.fired s)))
  /\ (forall t, t ∈ StepByStep.fired s -> t ∈ StepByStep.listening s)
  /\ (forall t, StepByStep.rolledBack s !! t <> None ->
        t ∈ StepByStep.listening s).

(** The pool a registry command is about. *)
Definition pool_of (c : Registry.command) : nat :=
  match c with
  | Registry.NewPool id _ | Registry.PoolConnect id | Registry.PoolClose id => id
  end.

(** What holds of the registry in every state it can reach: one entry
    per key, and only pools that were created. *)
Definition registry_sound (s : Registry.state) : Prop :=
  List.NoDup (Obj.keys (Registry.the_map s))
  /\ (forall k e, In (k, e) (Registry.the_map s) ->
        Registry.pool e < Registry.pools s)
  /\ (forall c, In c (Registry.issued s) -> pool_of c < Registry.pools s).

End Invariants.

(** ** Sample runs *)

Module Samples.

(** A run in which the work fails with "Crash" and the rollback the
    layer then issues fails too. *)
Definition failing_rollback : Scoped.driver :=
  {| Scoped.on_connect := None;
     Scoped.on_begin := succeeds;
     Scoped.on_commit := succeeds;
     Scoped.on_rollback :=
       {| failure := Some (Failure "rollback failed");
          emits_rollback := false |} |}.

Definition crashing_work : Scoped.work unit :=
  {| Scoped.settles := Err (Failure "Crash"); Scoped.aborts := false |}.

(** A driver that answers every call of a scoped transaction well. *)
Definition healthy : Scoped.driver :=
  {| Scoped.on_connect := None;
     Scoped.on_begin := succeeds;
     Scoped.on_commit := succeeds;
     Scoped.on_rollback := succeeds |}.

(** A driver whose execution of the prepared statement fails. *)
Definition failing_execute : Query.driver :=
  {| Query.on_connect := None;
     Query.on_query := Ok None;
     Query.on_prepare := None;
     Query.on_execute := Err (Failure "Violation of PRIMARY KEY constraint");
     Query.on_unprepare := fun _ => None |}.

(** What [bind] yields for ["SELECT $1"] and [[1]]. *)
Definition select_one : string * inputs :=
  ("SELECT @p1",
   {| input := [("p1", Bound (JNumber (of_Z 1)))];
      declared := [("p1", mssql.Decimal (JNumber (of_nat 1)) (JNumber (of_Z 0)))] |}).

(** The usage example of the README. *)
Definition insert_three : string := "INSERT INTO t VALUES ($1, $2, $3)".

Definition three_params : list (option jsval) :=
  [Some (JNumber (of_Z 3)); Some (JString "Duck"); Some (JNumber (Dec 99 (-2)))].

(** A token that begins another one, and a repeated one. *)
Definition ten_then_one : string := "SELECT $10, $1, $1".


Definition update_null : string :=
  "UPDATE products SET price=$1 WHERE product_no=$2".

Definition null_and_six : list (option jsval) :=
  [Some JNull; Some (JNumber (of_Z 6))].

Definition update_null_bound : string * inputs :=
  ("UPDATE products SET price=@p1 WHERE product_no=@p2",
   {| input := [("p1", Bound JNull); ("p2", Bound (JNumber (of_Z 6)))];
      declared := [("p1", mssql.NVarChar);
                   ("p2", mssql.Decimal (JNumber (of_nat 1)) (JNumber (of_Z 0)))] |}).

Definition duplicate_name : gmap string Rows.column :=
  {[ "name" := Rows.Multi [Rows.CString "Duck"; Rows.CString "Duck"] ]}.

(** A transaction begun, then rolled back by the driver on its own. *)
Definition aborted_by_driver : list StepByStep.action :=
  [StepByStep.DoBegin None "READ_COMMITTED" succeeds; StepByStep.DriverRollback 0].

Definition local_db : Registry.config :=
  {| Registry.server := "localhost";
     Registry.port := of_Z 1433;
     Registry.database := Some "tests";
     Registry.user := Some "sa";
     Registry.password := Some "secret" |}.

Definition connected_once : list Registry.action :=
  [Registry.DoConnect local_db None].

Definition new_password : Registry.config :=
  {| Registry.server := "localhost";
     Registry.port := of_Z 1433;
     Registry.database := Some "tests";
     Registry.user := Some "sa";
     Registry.password := Some "changed" |}.

Definition two_ducks : gmap string Rows.column :=
  {[ "name" := Rows.Multi [Rows.CString "Duck"; Rows.CString "Goose"] ]}.

End Samples.

(** ** The rest of the layer *)

(** *** The statement after [convertParams] *)

Module Rewriting.

(** The text with every [$] that a word character follows replaced by
    [@p]: what the rewriting of the tokens, one after the other, is
    meant to give. *)
Fixpoint rewrite (s : list ascii) : list ascii :=
  match s with
  | [] => []
  | c :: t =>
      if is_char "$" c && word_side (head t)
      then "@"%char :: "p"%char :: rewrite t
      else c :: rewrite t
  end.

Definition rewritten (statement : string) : string :=
  text (rewrite (chars statement)).

(** No token starts inside [l], a text followed by a word character
    or not as [next_word] tells. *)
Fixpoint quiet (l : list ascii) (next_word : bool) : Prop :=
  match l with
  | [] => True
  | c :: t =>
      is_char "$" c
      && match t with [] => next_word | d :: _ => is_word d end = false
      /\ quiet t next_word
  end.

(** One step of the [map] of [convertParams] on the statement alone. *)
Definition replace_token (statement m : list ascii) : list ascii :=
  replace_first m ("@"%char :: "p"%char :: tl m) statement.

(** A raw parameter that is an invalid [Date]. *)
(** The name [convertParams] gives the parameter of a token. *)
Definition parameter_name (token : string) : string := "p" ++ substr1 token.


End Rewriting.

(** *** [batch] *)

Module Batch.

Import Rows.

Inductive command : Type :=
| Connect
| RequestBatch (script : string).

Record driver : Type := {
  on_connect : option error;
  on_batch : result (option (list (gmap string column)))
}.

Definition call {A} (c : command) (r : result A) : promise A :=
  fun s => (r, s ++ [c]).

(** [MssqlCrLayer.prototype.batch] *)
Definition batch (d : driver) (in_transaction : bool) (script : string)
  : promise (list (gmap string column)) :=
  ((if in_transaction then resolve tt
    else call Connect (match on_connect d with None => Ok tt | Some e => Err e end)) ;;
   recordset <- call (RequestBatch script) (on_batch d) ;;
   resolve (normalize recordset))%promise.

End Batch.

(** *** The constructor and its configuration *)

Module Layer.

(** [a || b] and [a && b] *)
Definition or_ (a b : jsval) : jsval := if truthy a then a else b.
Definition and_ (a b : jsval) : jsval := if truthy a then b else a.

(** [delete o[k]] *)
Fixpoint remove (o : list (string * jsval)) (k : string) : list (string * jsval) :=
  match o with
  | [] => []
  | (k', v) :: t => if String.eqb k' k then remove t k else (k', v) :: remove t k
  end.

(** The keys ["0"], ["1"], ... of the elements of an array or of the
    characters of a string. *)
Fixpoint indexed (i : nat) (l : list jsval) : list (string * jsval) :=
  match l with
  | [] => []
  | v :: t => (text (Z_abs_chars (Z.of_nat i)), v) :: indexed (S i) t
  end.

(** The own enumerable properties [{...v}] copies (a string is taken
    as ASCII text). *)
Definition own (v : jsval) : list (string * jsval) :=
  match v with
  | JObject props => props
  | JArray elems => indexed 0 elems
  | JString s => indexed 0 (map (fun c => JString (String c EmptyString)) (chars s))
  | _ => []
  end.

(** [{...o, ...more}]: the properties of [more] are defined on [o] one
    after the other.  (The language lists integer-like keys first; the
    order of the list is not that of [Object.keys] when there are
    some, and nothing here reads it.) *)
Definition spread (o more : list (string * jsval)) : list (string * jsval) :=
  fold_left (fun acc kv => Obj.set acc (fst kv) (snd kv)) more o.

(** [function toMssqlConfig(config)], for a [config] that is an object
    (reading [config.host] of [undefined] throws). *)
Definition toMssqlConfig (config : list (string * jsval)) : list (string * jsval) :=
  let c := JObject config in
  let mssqlConfig :=
    Obj.set
      (Obj.set
         (spread
            [("port", JNumber (of_Z 1433));
             ("server", or_ (prop c "host") (JString "localhost"));
             ("requestTimeout", JNumber (of_Z 6000))]
            (own (or_ c (JObject []))))
         "pool" (JObject [("min", JNumber (of_Z 0))]))
      "options"
      (JObject
         (spread [("encrypt", JBoolean false); ("enableArithAbort", JBoolean false)]
            (own (or_ (prop c "options") (JObject []))))) in
  if truthy (prop c "pool") then
    let pool := spread [("min", JNumber (of_Z 0))] (own (prop c "pool")) in
    let pool' :=
      if truthy (prop (JObject pool) "idleTimeout")
      then remove (Obj.set pool "idleTimeoutMillis" (prop (JObject pool) "idleTimeout"))
             "idleTimeout"
      else pool in
    Obj.set mssqlConfig "pool" (JObject pool')
  else mssqlConfig.

(** [(config && config.ISOLATION_LEVEL) || 'READ_COMMITTED'] *)
Definition ISOLATION_LEVEL (config : jsval) : jsval :=
  or_ (and_ config (prop config "ISOLATION_LEVEL")) (JString "READ_COMMITTED").

(** [options.ISOLATION_LEVEL || this.ISOLATION_LEVEL], after
    [options = options || {}]. *)
Definition isolationLevel (options layer_level : jsval) : jsval :=
  or_ (prop (or_ options (JObject [])) "ISOLATION_LEVEL") layer_level.

(** [MssqlCrLayer.prototype.delimiters] and [dialect] *)
Definition delimiters : string := "[]".
Definition dialect : string := "mssql".

(** [s[i]] as a string: a missing character reads as [undefined],
    which [+] prints. *)
Definition char_at (s : string) (i : nat) : string :=
  match String.get i s with
  | Some c => String c EmptyString
  | None => "undefined"
  end.

(** [MssqlCrLayer.prototype.wrap] *)
Definition wrap (identifier : string) : string :=
  char_at delimiters 0 ++ identifier ++ char_at delimiters 1.

End Layer.

(** *** The configuration of the earlier [connect(config)] *)

Module Earlier.

Import Layer.

(** [function toMssqlConfig(config, defaultConfig)] of the version whose
    [connect] takes an override. *)
Definition toMssqlConfig (config defaultConfig : jsval) : jsval :=
  let config := or_ config (JObject []) in
  let d := defaultConfig in
  JObject
    [("user", or_ (prop config "user") (and_ d (prop d "user")));
     ("database", or_ (prop config "database") (and_ d (prop d "database")));
     ("password", or_ (prop config "password") (and_ d (prop d "password")));
     ("port", or_ (or_ (prop config "port") (and_ d (prop d "port")))
                  (JNumber (of_Z 1433)));
     ("server", or_ (or_ (prop config "host") (and_ d (prop d "server")))
                    (JString "localhost"));
     ("pool",
      JObject
        [("max", or_ (and_ (prop config "pool") (prop (prop config "pool") "max"))
                     (and_ (and_ d (prop d "pool")) (prop (prop d "pool") "max")));
         ("min", JNumber (of_Z 0));
         ("idleTimeoutMillis",
          or_ (and_ (prop config "pool") (prop (prop config "pool") "idleTimeout"))
              (and_ (and_ d (prop d "pool"))
                    (prop (prop d "pool") "idleTimeoutMillis")))])].

End Earlier.

(** *** What [close] asks of the pools *)

Module Closing.

Import Registry.

(** A [close()] on the pool of each entry, in the order of the map. *)
Definition closes (entries : list (string * entry)) : list command :=
  map (fun ke => PoolClose (pool (snd ke))) entries.

End Closing.

(** *** The zeroes a numeral ends with *)

Module Numeral.

(** The number of zeroes at the end of a run of digits. *)
Definition trailing_zeros (ds : list ascii) : nat :=
  length ds - length (significand ds).

End Numeral.

(** *** The defaults of the configuration *)

Module Defaults.

Import Layer.

(** The first properties of the literal of [toMssqlConfig]. *)
Definition top (config : list (string * jsval)) : list (string * jsval) :=
  [("port", JNumber (of_Z 1433));
   ("server", or_ (prop (JObject config) "host") (JString "localhost"));
   ("requestTimeout", JNumber (of_Z 6000))].

Definition options : list (string * jsval) :=
  [("encrypt", JBoolean false); ("enableArithAbort", JBoolean false)].

Definition pool : list (string * jsval) := [("min", JNumber (of_Z 0))].

(** [o[k]] where [o] is laid over [under]. *)
Definition over (o under : list (string * jsval)) (k : string) : option jsval :=
  match Obj.get o k with
  | Some v => Some v
  | None => Obj.get under k
  end.

End Defaults.

(** *** More sample runs *)

Module Cases.

(** One token written twice, and the one value it stands for. *)
Definition name_twice : string := "SELECT $1, $1".

Definition one_name : list (option jsval) := [Some (JString "Duck")].

(** A server that rejects the statement when it is prepared. *)
Definition failing_prepare : Query.driver :=
  {| Query.on_connect := None;
     Query.on_query := Ok None;
     Query.on_prepare := Some (Failure "Incorrect syntax");
     Query.on_execute := Ok None;
     Query.on_unprepare := fun _ => None |}.

(** The statement runs and returns a row, but its first release fails. *)
Definition failing_release : Query.driver :=
  {| Query.on_connect := None;
     Query.on_query := Ok None;
     Query.on_prepare := None;
     Query.on_execute := Ok (Some [Samples.duplicate_name]);
     Query.on_unprepare :=
       fun n => if (n =? 0)%nat then Some (Failure "release failed") else None |}.

(** A script and a request that the server answers with the same row. *)
Definition one_row_batch : Batch.driver :=
  {| Batch.on_connect := None;
     Batch.on_batch := Ok (Some [Samples.duplicate_name]) |}.

Definition one_row_query : Query.driver :=
  {| Query.on_connect := None;
     Query.on_query := Ok (Some [Samples.duplicate_name]);
     Query.on_prepare := None;
     Query.on_execute := Ok None;
     Query.on_unprepare := fun _ => None |}.

(** A server that refuses to begin a transaction. *)
Definition failing_begin : Scoped.driver :=
  {| Scoped.on_connect := None;
     Scoped.on_begin :=
       {| failure := Some (Failure "begin failed"); emits_rollback := false |};
     Scoped.on_commit := succeeds;
     Scoped.on_rollback := succeeds |}.

Definition working : Scoped.work nat :=
  {| Scoped.settles := Ok 7; Scoped.aborts := false |}.

(** The answer of a driver that rolls back and says so. *)
Definition rolls_back : response := {| failure := None; emits_rollback := true |}.

Definition refuses : response :=
  {| failure := Some (Failure "commit failed"); emits_rollback := false |}.

Definition declines : response :=
  {| failure := Some (Failure "begin failed"); emits_rollback := false |}.

(** Two transactions begun one after the other. *)
Definition two_begun : list StepByStep.action :=
  [StepByStep.DoBegin None "READ_COMMITTED" succeeds;
   StepByStep.DoBegin None "READ_COMMITTED" succeeds].

(** A second database on the same server, and both connected. *)
Definition other_db : Registry.config :=
  {| Registry.server := "localhost";
     Registry.port := of_Z 1433;
     Registry.database := Some "other";
     Registry.user := Some "sa";
     Registry.password := Some "secret" |}.

Definition two_pools : list Registry.action :=
  [Registry.DoConnect Samples.local_db None; Registry.DoConnect other_db None].

(** The first pool refuses to close. *)
Definition stuck (id : nat) : option error :=
  if (id =? 0)%nat then Some (Failure "close failed") else None.

(** The configuration of the README, with a pool. *)
Definition pooled : list (string * jsval) :=
  [("user", JString "sa"); ("password", JString "secret");
   ("host", JString "db.local"); ("port", JUndefined);
   ("pool", JObject [("max", JNumber (of_Z 25));
                     ("idleTimeout", JNumber (of_Z 30000));
                     ("idleTimeoutMillis", JNumber (of_Z 10))]);
   ("options", JObject [("encrypt", JBoolean true)])].


(** The execution fails, and so does the release that follows it. *)
Definition failing_execute_and_release : Query.driver :=
  {| Query.on_connect := None;
     Query.on_query := Ok None;
     Query.on_prepare := None;
     Query.on_execute := Err (Failure "Violation of PRIMARY KEY constraint");
     Query.on_unprepare := fun _ => Some (Failure "release failed") |}.

End Cases.

(** ** Character classes *)

(** Turns the boolean character tests of the context and of the goal
    into arithmetic on character codes. *)
Ltac literal_codes :=
  repeat match goal with
    | |- context [code (Ascii ?a ?b ?c ?d ?e ?f ?g ?h)] =>
        let n := eval vm_compute in (code (Ascii a b c d e f g h)) in
        change (code (Ascii a b c d e f g h)) with n
    | H : context [code (Ascii ?a ?b ?c ?d ?e ?f ?g ?h)] |- _ =>
        let n := eval vm_compute in (code (Ascii a b c d e f g h)) in
        change (code (Ascii a b c d e f g h)) with n in H
    end.

Ltac char_arith :=
  unfold is_word, is_digit, is_char, between in *;
  literal_codes;
  repeat match goal with
    | H : _ && _ = true |- _ => apply andb_true_iff in H; destruct H
    | H : _ || _ = false |- _ => apply orb_false_iff in H; destruct H
    | H : (_ <=? _)%nat = true |- _ => apply Nat.leb_le in H
    | H : (_ <=? _)%nat = false |- _ => apply Nat.leb_gt in H
    | H : (_ =? _)%nat = true |- _ => apply Nat.eqb_eq in H
    | H : (_ =? _)%nat = false |- _ => apply Nat.eqb_neq in H
    end.

Lemma code_inj (a c : ascii) : code a = code c -> a = c.
Proof.
  unfold code. intros H.
  rewrite <- (ascii_nat_embedding a), <- (ascii_nat_embedding c).
  now rewrite H.
Qed.

Lemma is_char_eq (a c : ascii) : is_char a c = true <-> a = c.
Proof.
  unfold is_char. rewrite Nat.eqb_eq. split.
  - apply code_inj.
  - now intros ->.
Qed.

Lemma is_char_refl (a : ascii) : is_char a a = true.
Proof. now apply is_char_eq. Qed.

Lemma dollar_not_word (c : ascii) : is_char "$" c = true -> is_word c = false.
Proof. intros H. apply is_char_eq in H. now subst c. Qed.

Lemma word_not_dollar (c : ascii) : is_word c = true -> is_char "$" c = false.
Proof.
  intros H. destruct (is_char "$" c) eqn:E; [|reflexivity].
  apply dollar_not_word in E. congruence.
Qed.

(** ** The matchers on sample texts *)

Example tokens_of_a_statement :
  String_match "a $ b $$1 $a_b$c $" = Some ["$1"; "$a_b"; "$c"].
Proof. reflexivity. Qed.

Example replace_is_first_only :
  String_replace "x $1 $10 $1" "$1" "@p1" = "x @p1 $10 $1".
Proof. reflexivity. Qed.

Example string_forms :
  map toString
    [Dec 99 (-2); Dec 1 21; Dec 1 20; Dec 15 (-8); Dec 1 (-6); Dec (-1200) (-2);
     NaN; Infinity true]
  = ["0.99"; "1e+21"; "100000000000000000000"; "1.5e-7"; "0.000001"; "-12";
     "NaN"; "-Infinity"].
Proof. vm_compute. reflexivity. Qed.

Example decimal_places :
  map decimalPlaces [Dec 99 (-2); Dec 1 21; Dec 15 (-8); Dec 3 0; NaN]
  = [2; 0; 8; 0; 0]%Z.
Proof. vm_compute. reflexivity. Qed.

Example key_indices :
  map KeyNumber.index ["1"; "10"; "0"; "abc"; "1e1"; "0x10"; "Infinity"]
  = [Some 0; Some 9; None; None; Some 9; Some 15; None].
Proof. vm_compute. reflexivity. Qed.

(** ** Positional tokens and arity *)

Section Tokens.

Import Shapes.

Lemma word_star_boundary_run (t : list ascii) (prev : ascii) :
  word_star_boundary prev t =
    if word_side (head t) then Some (word_run t)
    else if is_word prev then Some [] else None.
Proof.
  revert prev. induction t as [|c t IH]; intros prev.
  - cbn. unfold boundary. cbn. now destruct (is_word prev).
  - cbn [word_star_boundary head word_side word_run].
    destruct (is_word c) eqn:Hc.
    + rewrite IH. destruct t as [|c' t']; cbn [head word_side].
      * now rewrite Hc.
      * destruct (is_word c') eqn:Hc'; [reflexivity|].
        rewrite Hc. cbn [word_run]. now rewrite Hc'.
    + unfold boundary. cbn. rewrite Hc. now destruct (is_word prev).
Qed.

Lemma match_here_run (c : ascii) (t : list ascii) :
  match_here (c :: t) =
    if is_char "$" c && word_side (head t)
    then Some (c :: word_run t) else None.
Proof.
  unfold match_here. destruct (is_char "$" c) eqn:Hc; [|reflexivity].
  rewrite word_star_boundary_run, (dollar_not_word c Hc).
  now destruct (word_side (head t)).
Qed.

Lemma scan_occurrences (s : list ascii) (skip : nat) :
  skip <= length (word_run s) ->
  length (scan skip s) = Spec.occurrences s.
Proof.
  revert skip. induction s as [|c t IH]; intros skip Hskip; [reflexivity|].
  cbn [scan Spec.occurrences]. destruct skip as [|k].
  - rewrite match_here_run.
    destruct (is_char "$" c && word_side (head t)).
    + cbn [length]. rewrite IH; [reflexivity|]. cbn. lia.
    + rewrite IH; [reflexivity|lia].
  - cbn [word_run] in Hskip. destruct (is_word c) eqn:Hc.
    + rewrite (word_not_dollar c Hc). cbn [andb].
      apply IH. cbn in Hskip. lia.
    + cbn in Hskip. lia.
Qed.

End Tokens.

Lemma match_length_occurrences (statement : string) :
  match_length (String_match statement) = Spec.token_occurrences statement.
Proof.
  unfold String_match, Spec.token_occurrences.
  rewrite <- (scan_occurrences (chars statement) 0) by lia.
  destruct (scan 0 (chars statement)); [reflexivity|].
  cbn [match_length]. now rewrite length_map.
Qed.

Lemma keys_length_dense (l : list jsval) :
  JSArray.keys_length (map Some l) = length l.
Proof.
  unfold JSArray.keys_length.
  induction l as [|v l IH]; [reflexivity|]. cbn. now rewrite IH.
Qed.

(** C1 (as amended).  For an array of parameters [convertParams] passes
    exactly when the number of token occurrences in the statement, a
    repeated token counted each time, is at most the number of elements
    present in the array (its length when it has no hole), and fails
    with the "more parameters in statement" assertion exactly when the
    occurrences exceed it; a statement without any token binds nothing
    whatever the array holds. *)
Theorem convertParams_arity (statement : string) (a : list (option jsval)) :
  (is_ok (convertParams statement (ParamsArray a)) = true
     <-> Spec.token_occurrences statement <= JSArray.keys_length a)
  /\ (convertParams statement (ParamsArray a) = Err (AssertionError arity_message)
     <-> JSArray.keys_length a < Spec.token_occurrences statement)
  /\ (Spec.token_occurrences statement = 0
     -> convertParams statement (ParamsArray a) = Ok (statement, []))
  /\ (forall l : list jsval, a = map Some l -> JSArray.keys_length a = length l).
Proof.
  unfold convertParams. rewrite <- match_length_occurrences.
  split; [|split; [|split]].
  - destruct (Nat.leb_spec (match_length (String_match statement))
                (JSArray.keys_length a)) as [E|E].
    + split; [intros _; exact E|intros _].
      now destruct (String_match statement).
    + split; [discriminate|lia].
  - destruct (Nat.leb_spec (match_length (String_match statement))
                (JSArray.keys_length a)) as [E|E].
    + split; [|lia]. destruct (String_match statement); discriminate.
    + split; [intros _; exact E|reflexivity].
  - intros H0. rewrite H0. cbn [Nat.leb].
    destruct (String_match statement) as [[|x l]|]; try reflexivity.
    discriminate.
  - intros l ->. apply keys_length_dense.
Qed.

(** The usage example: three tokens, three parameters. *)
Lemma convertParams_arity_witness :
  Spec.token_occurrences Samples.insert_three <= JSArray.keys_length Samples.three_params
  /\ is_ok (convertParams Samples.insert_three (ParamsArray Samples.three_params)) = true.
Proof.
  assert (H : Spec.token_occurrences Samples.insert_three
              <= JSArray.keys_length Samples.three_params)
    by (vm_compute; lia).
  split; [exact H|].
  exact (proj2 (proj1 (convertParams_arity Samples.insert_three Samples.three_params)) H).
Defined.

(** C1 (as stated) fails: ["SELECT $1, $1"] holds one distinct token and
    the array one element, yet the arity assertion fails, because the
    token is counted twice. *)
Lemma convertParams_counts_repeats :
  Spec.distinct_tokens "SELECT $1, $1" = 1
  /\ length [Some (JNumber (of_Z 5))] = 1
  /\ convertParams "SELECT $1, $1" (ParamsArray [Some (JNumber (of_Z 5))])
     = Err (AssertionError arity_message).
Proof. repeat split; vm_compute; reflexivity. Qed.

(** A hole of the array is no supplied parameter: [[ , 5]] has length
    two and one element, and two tokens are one too many for it. *)
Example holes_are_not_parameters :
  length [None; Some (JNumber (of_Z 5))] = 2
  /\ JSArray.keys_length [None; Some (JNumber (of_Z 5))] = 1
  /\ convertParams "SELECT $1, $2" (ParamsArray [None; Some (JNumber (of_Z 5))])
     = Err (AssertionError arity_message).
Proof. repeat split. Qed.

(** ** The string form of a number and [decimalPlaces] *)

Lemma chars_text (l : list ascii) : chars (text l) = l.
Proof. apply list_ascii_of_string_of_list_ascii. Qed.

Lemma length_text (l : list ascii) : String.length (text l) = length l.
Proof. induction l as [|c l IH]; [reflexivity|]. cbn. now rewrite <- IH. Qed.

Section NumberText.

Import DecimalRegex Spec Shapes.

Lemma digit_plain (c : ascii) : digit c -> plain c.
Proof.
  unfold digit, plain. intros H.
  repeat split; apply Nat.eqb_neq; char_arith; lia.
Qed.

Lemma digits_plain (ds : list ascii) : Forall digit ds -> Forall plain ds.
Proof. apply List.Forall_impl, digit_plain. Qed.

Lemma digits_plus_stop {A} (rest : list ascii)
    (k : list ascii -> list ascii -> option A) :
  stops rest -> digits_plus rest k = None.
Proof. destruct rest as [|c t]; cbn; [reflexivity|]. now intros ->. Qed.

Lemma digits_plus_greedy {A} (ds rest : list ascii)
    (k : list ascii -> list ascii -> option A) (r : A) :
  ds <> [] -> Forall digit ds -> stops rest ->
  k ds rest = Some r ->
  digits_plus (ds ++ rest) k = Some r.
Proof.
  revert k. induction ds as [|c ds IH]; intros k Hne Hds Hrest Hk; [easy|].
  inversion Hds as [|? ? Hc Hds']; subst.
  cbn [app digits_plus]. rewrite Hc.
  destruct ds as [|c' ds'].
  - cbn [app]. now rewrite (digits_plus_stop rest _ Hrest).
  - rewrite (IH (fun ds rest => k (c :: ds) rest)); auto.
Qed.

Lemma exec_skip (pre tail : list ascii) :
  Forall plain pre -> exec (pre ++ tail) = exec tail.
Proof.
  induction 1 as [|c pre [Hdot [He HE]] _ IH]; [reflexivity|].
  cbn [app exec]. unfold match_here, exponent_then_end.
  rewrite Hdot, He, HE. cbn. exact IH.
Qed.





Lemma sign_not_digit (sg : ascii) :
  sg = "+"%char \/ sg = "-"%char -> is_digit sg = false.
Proof. now intros [-> | ->]. Qed.

Lemma exponent_then_end_exp (sg : ascii) (eds : list ascii) :
  sg = "+"%char \/ sg = "-"%char -> digits1 eds ->
  exponent_then_end ("e"%char :: sg :: eds) = Some (Some (sg :: eds)).
Proof.
  intros Hsg [Hne Heds]. unfold exponent_then_end.
  rewrite is_char_refl. cbn [orb].
  assert (Hs : is_char "+" sg || is_char "-" sg = true)
    by (destruct Hsg as [-> | ->]; reflexivity).
  rewrite Hs. rewrite <- (app_nil_r eds) at 1.
  now rewrite (digits_plus_greedy eds [] _ (sg :: eds)).
Qed.

Lemma match_here_fraction (ds rest : list ascii)
    (m2 : option (list ascii)) :
  digits1 ds -> stops rest -> exponent_then_end rest = Some m2 ->
  match_here ("."%char :: ds ++ rest) = Some (Some ds, m2).
Proof.
  intros [Hne Hds] Hrest Hm2. unfold match_here.
  rewrite is_char_refl.
  rewrite (digits_plus_greedy ds rest _ (Some ds, m2)); try easy.
  now rewrite Hm2.
Qed.

Lemma match_here_exp (sg : ascii) (eds : list ascii) :
  sg = "+"%char \/ sg = "-"%char -> digits1 eds ->
  match_here ("e"%char :: sg :: eds) = Some (None, Some (sg :: eds)).
Proof.
  intros Hsg Heds. unfold match_here.
  change (is_char "." "e") with false. cbn iota.
  now rewrite exponent_then_end_exp.
Qed.






Lemma uint_chars_digits (u : Decimal.uint) : Forall digit (uint_chars u).
Proof. induction u; cbn; constructor; auto; reflexivity. Qed.

Lemma digits_of_digits1 (p : positive) : digits1 (digits_of p).
Proof.
  split; [|apply uint_chars_digits].
  unfold digits_of. pose proof (DecimalPos.Unsigned.to_uint_nonnil p) as H.
  destruct (Pos.to_uint p); try discriminate. congruence.
Qed.

Lemma Z_abs_chars_digits1 (e : Z) : digits1 (Z_abs_chars e).
Proof.
  destruct e; cbn; try apply digits_of_digits1.
  split; [discriminate|]. now repeat constructor.
Qed.

Lemma drop_zeros_digits (l : list ascii) :
  Forall digit l -> Forall digit (drop_zeros l).
Proof.
  induction 1 as [|c l Hc Hl IH]; cbn; [constructor|].
  destruct (is_char "0" c); [exact IH|now constructor].
Qed.

Lemma significand_digits (ds : list ascii) :
  Forall digit ds -> Forall digit (significand ds).
Proof.
  intros H. unfold significand.
  apply List.Forall_rev, drop_zeros_digits, List.Forall_rev, H.
Qed.

Lemma zeros_digits (n : nat) : Forall digit (zeros n).
Proof. induction n; cbn; constructor; auto; reflexivity. Qed.






End NumberText.

(** ** Type inference *)







(** ** Objects as property lists *)

Lemma get_set_eq {A} (o : list (string * A)) (k : string) (v : A) :
  Obj.get (Obj.set o k v) k = Some v.
Proof.
  induction o as [|[k' v'] o IH]; cbn.
  - now rewrite String.eqb_refl.
  - destruct (String.eqb k' k) eqn:E; cbn.
    + now rewrite String.eqb_refl.
    + now rewrite E.
Qed.

Lemma get_set_ne {A} (o : list (string * A)) (k k' : string) (v : A) :
  k <> k' -> Obj.get (Obj.set o k v) k' = Obj.get o k'.
Proof.
  intros Hne. induction o as [|[k0 v0] o IH]; cbn.
  - destruct (String.eqb_spec k k'); [contradiction|reflexivity].
  - destruct (String.eqb_spec k0 k) as [->|Hk]; cbn.
    + destruct (String.eqb_spec k k'); [contradiction|reflexivity].
    + destruct (String.eqb_spec k0 k'); [reflexivity|exact IH].
Qed.

Lemma get_In_keys {A} (o : list (string * A)) (k : string) (v : A) :
  Obj.get o k = Some v -> In k (Obj.keys o).
Proof.
  induction o as [|[k' v'] o IH]; cbn; [discriminate|].
  destruct (String.eqb_spec k' k); [now left|right; auto].
Qed.

(** ** The binding loop *)

(** At a key other than [__proto__] the body reads back what it
    assigned: it is [bind_param], and the input becomes an own
    property. *)
Lemma bind_entry_own (param : jsval) :
  bind_entry false param
  = match bind_param param with
    | Ok (b, t) => Ok (Some b, t)
    | Err e => Err e
    end.
Proof.
  unfold bind_entry, bind_param, assign, load, fresh. cbn [own proto].
  destruct (typeof_object param && negb (is_Date param)) eqn:Hd.
  - cbn [bound_is_null bound_is_Date].
    destruct (truthy param && negb (is_undefined (prop param "value"))) eqn:Hv.
    + assert (Hp : is_null param = false) by now destruct param.
      rewrite Hp.
      destruct (negb (is_null (prop param "value"))); [|reflexivity].
      cbn [andb].
      now destruct ((is_string (prop param "type") "date"
                     || is_string (prop param "type") "datetime")
                    && negb (is_Date (prop param "value"))).
    + reflexivity.
  - destruct (if negb (is_undefined param) then param else JNull)
      as [| | | | |d| |]; try reflexivity.
    now destruct (toISOString d).
Qed.

(** What the body reads back after it assigned a value is a value. *)
Lemma load_after_value (special : bool) (v : jsval) :
  exists x, load special (assign special (Bound v) fresh) = Bound x.
Proof.
  destruct special; [|now exists v].
  unfold assign, load, fresh. cbn [own proto lookup_above].
  destruct (bound_is_null (Bound v)) eqn:Hn; [now exists JUndefined|].
  destruct (bound_is_object (Bound v)) eqn:Ho; cbn [own proto];
    [|now exists (JObject [])].
  destruct v as [| | | | |d|props|elems]; try discriminate;
    cbn [lookup_above prototype_value]; eauto.
  destruct (Obj.get props "__proto__"); eauto.
Qed.

Lemma proto_key_eqb (k : string) :
  k <> "__proto__" -> String.eqb k "__proto__" = false.
Proof. intros H. now apply String.eqb_neq. Qed.

Lemma bind_all_keeps (ps : list (string * jsval)) (acc i : inputs) (k : string) :
  bind_all ps acc = Ok i -> ~ In k (Obj.keys ps) ->
  Obj.get (input i) k = Obj.get (input acc) k
  /\ Obj.get (declared i) k = Obj.get (declared acc) k.
Proof.
  revert acc. induction ps as [|[k0 p0] ps IH]; intros acc H Hk; cbn in H.
  - now injection H as <-.
  - destruct (bind_entry _ p0) as [[stored t]|e]; [|discriminate].
    cbn in Hk. apply IH in H; [|tauto]. cbn in H.
    rewrite get_set_ne in H by tauto.
    destruct stored; [rewrite get_set_ne in H by tauto|]; exact H.
Qed.

(** Every parameter of an object is bound by [bind_param] under its
    own key, when that key is not [__proto__]. *)
Lemma bind_all_get (ps : list (string * jsval)) (acc i : inputs)
    (k : string) (p : jsval) :
  List.NoDup (Obj.keys ps) -> bind_all ps acc = Ok i -> Obj.get ps k = Some p ->
  k <> "__proto__" ->
  exists b t, bind_param p = Ok (b, t)
    /\ Obj.get (input i) k = Some b
    /\ Obj.get (declared i) k = Some t.
Proof.
  revert acc. induction ps as [|[k0 p0] ps IH]; intros acc Hnd H Hp Hk; cbn in *.
  - discriminate.
  - apply List.NoDup_cons_iff in Hnd. destruct Hnd as [Hk0 Hnd].
    destruct (String.eqb_spec k0 k) as [->|Hne].
    + injection Hp as <-.
      rewrite (proto_key_eqb k Hk), bind_entry_own in H.
      destruct (bind_param p0) as [[b t]|e] eqn:Hb; [|discriminate].
      exists b, t. split; [reflexivity|].
      destruct (bind_all_keeps _ _ _ k H Hk0) as [H1 H2]. cbn in H1, H2.
      now rewrite H1, H2, !get_set_eq.
    + destruct (bind_entry _ p0) as [[stored t]|e]; [|discriminate].
      eapply IH; eauto.
Qed.

Lemma set_keys_NoDup {A} (o : list (string * A)) (k : string) (v : A) :
  List.NoDup (Obj.keys o) -> List.NoDup (Obj.keys (Obj.set o k v)).
Proof.
  assert (Hin : forall (o : list (string * A)) k v x,
             In x (Obj.keys (Obj.set o k v)) -> x = k \/ In x (Obj.keys o)).
  { clear. intros o k v x. induction o as [|[k' v'] o IH]; cbn.
    - intros [->|[]]. now left.
    - destruct (String.eqb_spec k' k) as [->|Hne]; cbn.
      + intros [->|H]; auto.
      + intros [->|H]; auto. apply IH in H. tauto. }
  induction o as [|[k' v'] o IH]; cbn; intros Hnd.
  - constructor; [easy|constructor].
  - apply List.NoDup_cons_iff in Hnd. destruct Hnd as [Hk Hnd].
    destruct (String.eqb_spec k' k) as [->|Hne]; cbn.
    + now constructor.
    + constructor; [|now apply IH].
      intros Hx. apply Hin in Hx. tauto.
Qed.

(** [paramsObj] after [convertParams]: every token [$key] of the
    statement has its property [p<key>], holding [params[Number(key)-1]]. *)
Lemma convert_tokens (a : list (option jsval)) (tokens : list string)
    (acc : string * list (string * jsval)) :
  List.NoDup (Obj.keys (snd acc)) ->
  (forall key v, Obj.get (snd acc) ("p" ++ key) = Some v -> v = positional a key) ->
  let r := fold_left (convert_token a) tokens acc in
  List.NoDup (Obj.keys (snd r))
  /\ (forall key v, Obj.get (snd r) ("p" ++ key) = Some v -> v = positional a key)
  /\ (forall key, (In key (map substr1 tokens)
                   \/ Obj.get (snd acc) ("p" ++ key) <> None) ->
       Obj.get (snd r) ("p" ++ key) = Some (positional a key)).
Proof.
  revert acc. induction tokens as [|tok tokens IH]; intros [stmt obj] Hnd Hacc; cbn zeta.
  - cbn. repeat split; auto.
    intros key [[]|Hk]. destruct (Obj.get obj ("p" ++ key)) eqn:E; [|easy].
    now rewrite (Hacc key j E).
  - cbn [fold_left convert_token].
    set (obj' := Obj.set obj ("p" ++ substr1 tok) (positional a (substr1 tok))).
    set (acc' := (String_replace stmt tok ("@p" ++ substr1 tok), obj')).
    assert (Hnd' : List.NoDup (Obj.keys (snd acc'))) by now apply set_keys_NoDup.
    assert (Hacc' : forall key v,
               Obj.get (snd acc') ("p" ++ key) = Some v -> v = positional a key).
    { intros key v. cbn. unfold obj'.
      destruct (String.eqb_spec (substr1 tok) key) as [->|Hne].
      - rewrite get_set_eq. now intros [= <-].
      - rewrite get_set_ne; [apply Hacc|]. cbn. now intros [=]. }
    destruct (IH acc' Hnd' Hacc') as (H1 & H2 & H3).
    repeat split; auto.
    intros key Hk. apply H3. cbn in Hk. cbn [snd acc']. unfold obj'.
    destruct (String.eqb_spec (substr1 tok) key) as [->|Hne].
    + right. now rewrite get_set_eq.
    + rewrite get_set_ne by (cbn; now intros [=]). tauto.
Qed.


(** The usage example: the statement is rewritten and the three
    parameters are typed. *)
Lemma usage_example :
  bind Samples.insert_three (ParamsArray Samples.three_params)
  = Ok ("INSERT INTO t VALUES (@p1, @p2, @p3)",
        {| input := [("p1", Bound (JNumber (of_Z 3)));
                     ("p2", Bound (JString "Duck"));
                     ("p3", Bound (JNumber (Dec 99 (-2))))];
           declared :=
             [("p1", mssql.Decimal (JNumber (of_nat 1)) (JNumber (of_Z 0)));
              ("p2", mssql.NVarChar);
              ("p3", mssql.Decimal (JNumber (of_nat 4)) (JNumber (of_Z 2)))] |}).
Proof. vm_compute. reflexivity. Qed.

(** ** NULL and the values that are only falsy *)




(** A parameter that is [null] is bound by the descriptor branch
    ([typeof null] is ['object']): its input is NULL and its declared
    type the default string, for an element of a parameter array and
    for a value of a parameter object under any key but [__proto__]. *)
Lemma null_parameter_binds_null_string :
  Spec.descriptor JNull = true
  /\ bind_param JNull = Ok (Bound JNull, mssql.NVarChar)
  /\ (forall statement o statement' i key,
      List.NoDup (Obj.keys o) ->
      bind statement (ParamsObject o) = Ok (statement', i) ->
      Obj.get o key = Some JNull ->
      key <> "__proto__" ->
      Obj.get (input i) key = Some (Bound JNull)
      /\ Obj.get (declared i) key = Some mssql.NVarChar)
  /\ (forall statement a statement' i token,
      bind statement (ParamsArray a) = Ok (statement', i) ->
      In token (Spec.tokens statement) ->
      positional a (substr1 token) = JNull ->
      Obj.get (input i) ("p" ++ substr1 token) = Some (Bound JNull)
      /\ Obj.get (declared i) ("p" ++ substr1 token) = Some mssql.NVarChar).
Proof.
  split; [reflexivity|]. split; [reflexivity|]. split.
  - intros statement o statement' i key Hnd Hb Hk Hkey. unfold bind in Hb. cbn in Hb.
    destruct (bind_all o _) as [i'|e] eqn:E; [|discriminate].
    injection Hb as <- <-.
    destruct (bind_all_get _ _ _ key JNull Hnd E Hk Hkey) as (b & t & Hp & H1 & H2).
    cbn in Hp. injection Hp as <- <-. now split.
  - intros statement a statement' i token Hb Ht Hnull.
    unfold bind, convertParams in Hb. unfold Spec.tokens in Ht.
    destruct (match_length (String_match statement) <=? JSArray.keys_length a)%nat;
      [|discriminate].
    destruct (String_match statement) as [tokens|]; [|now destruct Ht].
    destruct (convert_tokens a tokens (statement, [])) as (Hnd & _ & Hget).
    { constructor. }
    { cbn. discriminate. }
    destruct (fold_left (convert_token a) tokens (statement, [])) as [st obj].
    destruct (bind_all obj _) as [i'|e] eqn:E; [|discriminate].
    injection Hb as <- <-. cbn [snd] in *.
    specialize (Hget (substr1 token)). rewrite Hnull in Hget.
    destruct (bind_all_get _ _ _ ("p" ++ substr1 token) JNull Hnd E)
      as (b & t & Hp & H1 & H2).
    { apply Hget. left. now apply in_map. }
    { discriminate. }
    cbn in Hp. injection Hp as <- <-. now split.
Qed.

(** [[null, 6]] of the tests: [$1] is bound to NULL, as a string. *)
Lemma null_in_an_array_binds_null :
  bind Samples.update_null (ParamsArray Samples.null_and_six) = Ok Samples.update_null_bound
  /\ Obj.get (input (snd Samples.update_null_bound)) "p1" = Some (Bound JNull)
  /\ Obj.get (declared (snd Samples.update_null_bound)) "p1" = Some mssql.NVarChar.
Proof.
  assert (H : bind Samples.update_null (ParamsArray Samples.null_and_six)
              = Ok Samples.update_null_bound)
    by (vm_compute; reflexivity).
  split; [exact H|].
  apply (proj2 (proj2 (proj2 null_parameter_binds_null_string))
           Samples.update_null Samples.null_and_six
           (fst Samples.update_null_bound) (snd Samples.update_null_bound) "$1").
  - exact H.
  - vm_compute. now left.
  - vm_compute. reflexivity.
Defined.

(** C10 (a defect of the code).  [input] is a plain object, and the
    loop assigns and reads [input[key]]: for a parameter object that
    has [null] under the own key [__proto__], as [JSON.parse] builds
    it, the assignment makes [null] the prototype of [input], the
    read gives [undefined], and [param.type] is read of [null]: the
    binding throws a [TypeError], where under any other key the same
    [null] is bound as NULL and declared the default string. *)
Lemma null_under_proto_key_throws :
  bind "SELECT 1" (ParamsObject [("__proto__", JNull)]) = Err type_of_null
  /\ bind "SELECT 1" (ParamsObject [("price", JNull)])
     = Ok ("SELECT 1",
           {| input := [("price", Bound JNull)];
              declared := [("price", mssql.NVarChar)] |}).
Proof. split; vm_compute; reflexivity. Qed.

(** The same assignment loses a plain value: a number under the
    key [__proto__] is ignored by the setter, so that nothing is
    bound, and what is read back, [Object.prototype], is declared the
    default string. *)
Example number_under_proto_key_is_not_bound :
  bind "SELECT 1" (ParamsObject [("__proto__", JNumber (of_Z 5))])
  = Ok ("SELECT 1",
        {| input := []; declared := [("__proto__", mssql.NVarChar)] |}).
Proof. vm_compute. reflexivity. Qed.

(** A [Date] under the key [__proto__] becomes the prototype of
    [input]; the text assigned next is ignored by the setter, nothing
    is bound, and the [Date] read back is declared [DateTime2]. *)
Example date_under_proto_key_is_not_bound :
  bind "SELECT 1" (ParamsObject [("__proto__", JDate (Some "2020-02-29T12:00:00.000Z"))])
  = Ok ("SELECT 1",
        {| input := []; declared := [("__proto__", mssql.DateTime2)] |}).
Proof. vm_compute. reflexivity. Qed.

(** ** Row folding *)

Section StrictEquality.

Import Rows.

(** Two decimals are [===] when they agree at any common scale. *)
Lemma scale_eq (m1 e1 m2 e2 lo k : Z) :
  (0 <= k)%Z -> (lo <= e1)%Z -> (lo <= e2)%Z ->
  (m1 * 10 ^ (e1 - lo) = m2 * 10 ^ (e2 - lo)
   <-> m1 * 10 ^ (e1 - (lo - k)) = m2 * 10 ^ (e2 - (lo - k)))%Z.
Proof.
  intros Hk H1 H2.
  replace (e1 - (lo - k))%Z with ((e1 - lo) + k)%Z by lia.
  replace (e2 - (lo - k))%Z with ((e2 - lo) + k)%Z by lia.
  rewrite !Z.pow_add_r by lia. rewrite !Z.mul_assoc.
  assert (10 ^ k <> 0)%Z by (apply Z.pow_nonzero; lia).
  split; [now intros ->|]. now apply Z.mul_cancel_r.
Qed.

Lemma number_eq_at (m1 e1 m2 e2 lo : Z) :
  (lo <= e1)%Z -> (lo <= e2)%Z ->
  JSNumber.strict_eq (Dec m1 e1) (Dec m2 e2) = true
  <-> (m1 * 10 ^ (e1 - lo) = m2 * 10 ^ (e2 - lo))%Z.
Proof.
  intros H1 H2. cbn. rewrite Z.eqb_eq.
  rewrite (scale_eq m1 e1 m2 e2 (Z.min e1 e2) (Z.min e1 e2 - lo)) by lia.
  now replace (Z.min e1 e2 - (Z.min e1 e2 - lo))%Z with lo by lia.
Qed.

Lemma number_eq_sym (x y : number) :
  JSNumber.strict_eq x y = true -> JSNumber.strict_eq y x = true.
Proof.
  destruct x as [| a | m1 e1], y as [| b | m2 e2]; try discriminate.
  - cbn. now destruct a, b.
  - rewrite (number_eq_at m1 e1 m2 e2 (Z.min e1 e2)) by lia.
    rewrite (number_eq_at m2 e2 m1 e1 (Z.min e1 e2)) by lia. auto.
Qed.

Lemma number_eq_trans (x y z : number) :
  JSNumber.strict_eq x y = true -> JSNumber.strict_eq y z = true ->
  JSNumber.strict_eq x z = true.
Proof.
  destruct x as [| a | m1 e1], y as [| b | m2 e2], z as [| c | m3 e3];
    try discriminate.
  - cbn. now destruct a, b, c.
  - set (lo := Z.min e1 (Z.min e2 e3)).
    rewrite (number_eq_at m1 e1 m2 e2 lo), (number_eq_at m2 e2 m3 e3 lo),
      (number_eq_at m1 e1 m3 e3 lo) by lia.
    congruence.
Qed.

Lemma strict_eq_sym (x y : cell) : strict_eq x y = true -> strict_eq y x = true.
Proof.
  destruct x, y; cbn; try discriminate; auto.
  - now destruct b, b0.
  - apply number_eq_sym.
  - now rewrite String.eqb_sym.
  - now rewrite Nat.eqb_sym.
Qed.

Lemma strict_eq_trans (x y z : cell) :
  strict_eq x y = true -> strict_eq y z = true -> strict_eq x z = true.
Proof.
  destruct x, y, z; cbn; try discriminate; auto.
  - now destruct b, b0, b1.
  - apply number_eq_trans.
  - rewrite !String.eqb_eq. congruence.
  - rewrite !Nat.eqb_eq. congruence.
Qed.

(** The test of [fold], every element against the first, decides
    whether all the elements are equal. *)
Lemma every_first_all_equal (first : cell) (rest : list cell) :
  forallb (fun el => strict_eq el first) (first :: rest) = true
  <-> Spec.all_equal (first :: rest).
Proof.
  rewrite forallb_forall. split.
  - intros H x y Hx Hy.
    apply (strict_eq_trans x first y); [now apply H|].
    apply strict_eq_sym. now apply H.
  - intros H el Hel. apply H; [exact Hel|now left].
Qed.

Lemma fold_column_idempotent (value : column) :
  fold_column (fold_column value) = fold_column value.
Proof.
  destruct value as [c|[|first rest]]; try reflexivity.
  cbn [fold_column].
  destruct ((1 <? length (first :: rest))%nat
            && forallb (fun el => strict_eq el first) (first :: rest)) eqn:E.
  - reflexivity.
  - cbn [fold_column]. now rewrite E.
Qed.

End StrictEquality.

(** C9.  Folding a folded row changes nothing; a column holding an
    array of more than one element is left as that array when its
    elements are not all equal, and becomes the single value when they
    are (equal as [===] has it). *)
Theorem fold_collapses_equal_duplicates (record : gmap string Rows.column) :
  Rows.fold (Rows.fold record) = Rows.fold record
  /\ (forall key elems,
      record !! key = Some (Rows.Multi elems) ->
      1 < length elems -> ~ Spec.all_equal elems ->
      Rows.fold record !! key = Some (Rows.Multi elems))
  /\ (forall key first rest,
      record !! key = Some (Rows.Multi (first :: rest)) ->
      1 < length (first :: rest) -> Spec.all_equal (first :: rest) ->
      Rows.fold record !! key = Some (Rows.Single first)).
Proof.
  unfold Rows.fold. split; [|split].
  - rewrite <- map_fmap_compose. apply map_fmap_ext.
    intros key value _. apply fold_column_idempotent.
  - intros key elems Hk Hlen Hne. rewrite lookup_fmap, Hk. cbn.
    destruct elems as [|first rest]; [reflexivity|].
    destruct (forallb _ (first :: rest)) eqn:E.
    + now apply every_first_all_equal in E.
    + now rewrite andb_false_r.
  - intros key first rest Hk Hlen Heq. rewrite lookup_fmap, Hk.
    apply every_first_all_equal in Heq. apply Nat.ltb_lt in Hlen.
    cbn [fmap option_fmap option_map Rows.fold_column]. now rewrite Hlen, Heq.
Qed.

(** [SELECT name, name]: the two equal values become one. *)
Lemma fold_collapses_equal_duplicates_witness :
  Rows.fold Samples.duplicate_name !! "name"
  = Some (Rows.Single (Rows.CString "Duck")).
Proof.
  apply (proj2 (proj2 (fold_collapses_equal_duplicates Samples.duplicate_name))
           "name" (Rows.CString "Duck") [Rows.CString "Duck"]).
  - vm_compute. reflexivity.
  - cbn. lia.
  - intros x y [<-|[<-|[]]] [<-|[<-|[]]]; reflexivity.
Defined.

(** [SELECT name, name] over two different values: the array stays. *)
Example differing_duplicates_stay :
  Rows.fold Samples.two_ducks = Samples.two_ducks.
Proof.
  unfold Rows.fold, Samples.two_ducks. now rewrite map_fmap_singleton.
Qed.

(** ** Scoped transactions *)

(** C5 (as amended).  When the work or the commit of a scoped
    transaction fails, the layer issues one rollback unless the
    driver's rollback event already fired, in which case it issues
    none.  The caller receives the original failure when the rollback
    is skipped or succeeds; when the rollback itself fails, the caller
    receives the failure of the rollback: it is not swallowed. *)
Theorem transaction_failure {R} (d : Scoped.driver) (isolationLevel : string)
    (fn : Scoped.work R) (e : error) :
  Scoped.on_connect d = None ->
  failure (Scoped.on_begin d) = None ->
  Spec.original_failure d fn = Some e ->
  let out := Scoped.transaction d isolationLevel fn Scoped.initial in
  (Spec.rolled_back_already d fn = true ->
     Spec.rollbacks (snd out) = 0 /\ fst out = Err e)
  /\ (Spec.rolled_back_already d fn = false ->
      Spec.rollbacks (snd out) = 1
      /\ fst out = Err (match failure (Scoped.on_rollback d) with
                        | None => e
                        | Some e' => e'
                        end)).
Proof.
  destruct d as [c [fb eb] [fc ec] [fr er]], fn as [w ab].
  unfold Spec.original_failure, Spec.rolled_back_already, Spec.rollbacks.
  cbn [Scoped.on_connect Scoped.on_begin Scoped.on_commit Scoped.on_rollback
       Scoped.settles Scoped.aborts failure emits_rollback].
  intros -> -> He.
  destruct w as [res|e0]; [subst fc|injection He as ->];
    destruct eb, ab, ec, fr, er; cbn; split; intros H;
    try discriminate H; split; reflexivity.
Qed.

(** The work fails with "Crash" under a healthy driver: one rollback,
    and "Crash" reaches the caller. *)
Lemma transaction_failure_witness :
  Spec.original_failure Samples.healthy Samples.crashing_work = Some (Failure "Crash")
  /\ Spec.rollbacks
       (snd (Scoped.transaction Samples.healthy "READ_COMMITTED"
               Samples.crashing_work Scoped.initial)) = 1
  /\ fst (Scoped.transaction Samples.healthy "READ_COMMITTED"
            Samples.crashing_work Scoped.initial)
     = Err (Failure "Crash").
Proof.
  split; [reflexivity|].
  exact (proj2 (transaction_failure Samples.healthy "READ_COMMITTED"
                  Samples.crashing_work (Failure "Crash")
                  eq_refl eq_refl eq_refl) eq_refl).
Defined.

(** C5 (as stated) fails: the work fails with "Crash", no rollback
    happened before, and the rollback the layer issues fails in turn;
    the caller receives the rollback's failure and not "Crash". *)
Lemma rollback_failure_replaces_original :
  Spec.original_failure Samples.failing_rollback Samples.crashing_work
  = Some (Failure "Crash")
  /\ fst (Scoped.transaction Samples.failing_rollback "READ_COMMITTED"
            Samples.crashing_work Scoped.initial)
     = Err (Failure "rollback failed")
  /\ Scoped.issued
       (snd (Scoped.transaction Samples.failing_rollback "READ_COMMITTED"
               Samples.crashing_work Scoped.initial))
     = [Begin "READ_COMMITTED"; Rollback]
  /\ Failure "rollback failed" <> Failure "Crash".
Proof. repeat split. discriminate. Qed.

(** ** Properties kept along a promise chain *)

Section Preserved.

Context {S : Type} (P : S -> Prop).

Lemma preserves_resolve {A} (a : A) : preserves P (resolve a).
Proof. now intros s. Qed.

Lemma preserves_throw {A} (e : error) : preserves P (@throw S A e).
Proof. now intros s. Qed.

Lemma preserves_settle {A} (r : result A) : preserves P (settle r).
Proof. now intros s. Qed.

Lemma preserves_read {A} (f : S -> A) : preserves P (read f).
Proof. now intros s. Qed.

Lemma preserves_and_then {A B} (p : promise A) (k : A -> promise B) :
  preserves P p -> (forall a, preserves P (k a)) ->
  preserves P (and_then p k).
Proof.
  intros Hp Hk s Hs. unfold and_then. specialize (Hp s Hs).
  destruct (p s) as [[a|e] s']; [now apply Hk|exact Hp].
Qed.

Lemma preserves_or_catch {A} (p : promise A) (h : error -> promise A) :
  preserves P p -> (forall e, preserves P (h e)) ->
  preserves P (or_catch p h).
Proof.
  intros Hp Hh s Hs. unfold or_catch. specialize (Hp s Hs).
  destruct (p s) as [[a|e] s']; [exact Hp|now apply Hh].
Qed.

End Preserved.

(** ** Transactions step by step *)

Section StepByStepFacts.

Import StepByStep.

Lemma emit_follows (t : nat) (s : state) :
  Invariants.flags_follow_events s -> Invariants.flags_follow_events (emit t s).
Proof.
  intros H. unfold emit.
  case_bool_decide as Ht; [|exact H].
  destruct H as (H1 & H2 & H3 & H4).
  split; [exact H1|]. split; [|split]; cbn.
  - intros t' Ht'. destruct (decide (t' = t)) as [->|Hne].
    + rewrite lookup_insert_eq. f_equal. symmetry.
      apply bool_decide_eq_true. apply elem_of_cons. now left.
    + rewrite lookup_insert_ne by congruence. rewrite (H2 t' Ht').
      f_equal. apply bool_decide_ext. rewrite elem_of_cons. tauto.
  - intros t' Ht'. apply elem_of_cons in Ht'. destruct Ht' as [->|Ht']; auto.
  - intros t' Ht'. destruct (decide (t' = t)) as [->|Hne]; [exact Ht|].
    rewrite lookup_insert_ne in Ht' by congruence. auto.
Qed.

(** What both properties need of the three operations: they are
    built from the calls, the creation of a transaction and reads. *)
Lemma operations_preserve (P : state -> Prop) :
  (forall t c r, preserves P (call t c r)) ->
  preserves P new_transaction ->
  (forall t, preserves P (fun s => (Ok tt, emit t s))) ->
  forall a s, P s -> P (step s a).
Proof.
  intros Hcall Hnew Hemit a s Hs.
  destruct a as [c l r|t rc rr|t r|t]; cbn [step].
  - revert s Hs. change (preserves P (beginTransaction c l r)).
    unfold beginTransaction.
    repeat (apply preserves_and_then; [|intros ?]); auto.
    + destruct c; [apply preserves_throw|apply preserves_resolve].
    + apply preserves_resolve.
  - revert s Hs. change (preserves P (commit t rc rr)).
    unfold commit. apply preserves_or_catch; [auto|intros e].
    apply preserves_and_then; [apply preserves_read|intros rb].
    destruct rb; cbn [negb]; [apply preserves_throw|].
    apply preserves_and_then; [auto|intros ?; apply preserves_throw].
  - revert s Hs. change (preserves P (rollback t r)).
    unfold rollback.
    apply preserves_and_then; [apply preserves_read|intros rb].
    destruct rb; [apply preserves_resolve|auto].
  - exact (Hemit t s Hs).
Qed.

Lemma call_preserves (P : state -> Prop) :
  (forall s l, P s ->
     P {| rolledBack := rolledBack s; listening := listening s;
          fired := fired s; created := created s; issued := l |}) ->
  (forall t s, P s -> P (emit t s)) ->
  forall t c r, preserves P (call t c r).
Proof.
  intros Hlog Hemit t c r s Hs. unfold call. cbn [snd].
  destruct (emits_rollback r); [apply Hemit|]; now apply Hlog.
Qed.

Lemma step_follows (s : state) (a : action) :
  Invariants.flags_follow_events s -> Invariants.flags_follow_events (step s a).
Proof.
  apply operations_preserve.
  - apply call_preserves; [easy|apply emit_follows].
  - clear s. intros s (H1 & H2 & H3 & H4). unfold new_transaction. cbn [snd].
    assert (Hfresh : created s ∉ fired s).
    { intros Hin. apply H3, H1 in Hin. lia. }
    split; [|split; [|split]]; cbn.
    + intros t. rewrite elem_of_union, elem_of_singleton, H1. lia.
    + intros t Ht. destruct (decide (t = created s)) as [->|Hne].
      * rewrite lookup_insert_eq. f_equal. symmetry.
        now apply bool_decide_eq_false.
      * rewrite lookup_insert_ne by congruence. apply H2.
        apply elem_of_union in Ht. destruct Ht as [Ht|Ht]; [|exact Ht].
        now apply elem_of_singleton in Ht.
    + intros t Ht. apply elem_of_union_r. auto.
    + intros t Ht. destruct (decide (t = created s)) as [->|Hne].
      * apply elem_of_union_l. now apply elem_of_singleton.
      * rewrite lookup_insert_ne in Ht by congruence.
        apply elem_of_union_r. auto.
  - intros t s' Hs'. now apply emit_follows.
Qed.

Lemma run_follows (actions : list action) (s : state) :
  Invariants.flags_follow_events s -> Invariants.flags_follow_events (run actions s).
Proof.
  revert s. induction actions as [|a actions IH]; intros s H; [exact H|].
  cbn. apply IH, step_follows, H.
Qed.

Lemma initial_follows : Invariants.flags_follow_events initial.
Proof.
  split; [|split; [|split]]; cbn.
  - intros t. rewrite elem_of_empty. lia.
  - intros t Ht. now apply elem_of_empty in Ht.
  - intros t Ht. now apply elem_of_nil in Ht.
  - intros t Ht. now rewrite lookup_empty in Ht.
Qed.

Lemma reachable_follows (s : state) :
  Invariants.reachable s -> Invariants.flags_follow_events s.
Proof. intros [actions ->]. apply run_follows, initial_follows. Qed.

(** In a reachable state the flag of a transaction is set exactly
    when a rollback event was delivered for it. *)
Lemma flag_fired (s : state) (t : nat) :
  Invariants.flags_follow_events s -> flag t s = true <-> t ∈ fired s.
Proof.
  intros (H1 & H2 & H3 & H4). unfold flag. split.
  - destruct (rolledBack s !! t) as [b|] eqn:E; [|discriminate].
    intros ->. assert (Ht : t ∈ listening s) by (apply H4; congruence).
    rewrite (H2 t Ht) in E. injection E as E.
    now apply bool_decide_eq_true in E.
  - intros Ht. rewrite (H2 t (H3 t Ht)). now apply bool_decide_eq_true.
Qed.

(** The events delivered are never forgotten. *)
Lemma emit_fired (t t' : nat) (s : state) : t ∈ fired s -> t ∈ fired (emit t' s).
Proof.
  intros Ht. unfold emit. case_bool_decide; cbn; [|exact Ht].
  apply elem_of_cons. now right.
Qed.

Lemma run_fired (t : nat) (actions : list action) (s : state) :
  t ∈ fired s -> t ∈ fired (run actions s).
Proof.
  revert s. induction actions as [|a actions IH]; intros s H; [exact H|].
  cbn. apply IH. revert H.
  apply (operations_preserve (fun s => t ∈ fired s)).
  - apply call_preserves; [easy|intros; now apply emit_fired].
  - now intros s'.
  - intros t' s' Hs'. now apply emit_fired.
Qed.

End StepByStepFacts.

(** C6.  In any state the layer can reach, the flag of a transaction
    begun by [beginTransaction] is [false] until the driver's rollback
    event fires for it, [true] from then on and never reset;
    [rollback] resolves without a command when the flag is set, and
    issues exactly one rollback otherwise. *)
Theorem rollback_is_guarded (actions : list StepByStep.action) (t : nat)
    (r : response) :
  let s := StepByStep.run actions StepByStep.initial in
  (forall isolationLevel,
     let begun := StepByStep.beginTransaction None isolationLevel succeeds s in
     fst begun = Ok (StepByStep.created s)
     /\ StepByStep.rolledBack (snd begun) !! StepByStep.created s = Some false)
  /\ (t < StepByStep.created s ->
      StepByStep.rolledBack s !! t = Some (bool_decide (t ∈ StepByStep.fired s)))
  /\ (forall more,
      StepByStep.flag t s = true ->
      StepByStep.flag t (StepByStep.run more s) = true)
  /\ (StepByStep.flag t s = true -> StepByStep.rollback t r s = (Ok tt, s))
  /\ (StepByStep.flag t s = false ->
      fst (StepByStep.rollback t r s) = outcome r
      /\ StepByStep.issued (snd (StepByStep.rollback t r s))
         = StepByStep.issued s ++ [(t, Rollback)]).
Proof.
  intros s.
  assert (Hs : Invariants.flags_follow_events s)
    by (apply reachable_follows; now exists actions).
  split; [|split; [|split; [|split]]].
  - intros level. cbn. split; [reflexivity|]. apply lookup_insert_eq.
  - intros Ht. destruct Hs as (H1 & H2 & _). apply H2, H1, Ht.
  - intros more Hf. apply flag_fired; [now apply run_follows|].
    apply run_fired. now apply flag_fired.
  - intros Hf. unfold StepByStep.rollback, and_then, read. now rewrite Hf.
  - intros Hf. unfold StepByStep.rollback, and_then, read, StepByStep.call.
    rewrite Hf. cbn [fst snd]. split; [reflexivity|].
    destruct (emits_rollback r); [|reflexivity].
    unfold StepByStep.emit. now case_bool_decide.
Qed.

(** After the driver rolled the transaction back on its own,
    [rollback] resolves and issues nothing. *)
Lemma rollback_is_guarded_witness :
  StepByStep.flag 0 (StepByStep.run Samples.aborted_by_driver StepByStep.initial) = true
  /\ StepByStep.rollback 0 succeeds
       (StepByStep.run Samples.aborted_by_driver StepByStep.initial)
     = (Ok tt, StepByStep.run Samples.aborted_by_driver StepByStep.initial).
Proof.
  assert (H : StepByStep.flag 0
                (StepByStep.run Samples.aborted_by_driver StepByStep.initial) = true)
    by (vm_compute; reflexivity).
  split; [exact H|].
  exact (proj1 (proj2 (proj2 (proj2
           (rollback_is_guarded Samples.aborted_by_driver 0 succeeds)))) H).
Defined.

(** ** Prepared statements *)

(** C8 (as amended).  A parameterized [query] whose statement was
    prepared unprepares it after the execution, whether the execution
    succeeded or failed.  When the execution fails the caller receives
    the failure of the execution itself if the release goes through,
    and the failure of the release if the release fails too. *)
Theorem unprepare_on_both_paths (d : Query.driver) (in_transaction : bool)
    (statement : string) (p : params) (b : string * inputs) :
  in_transaction = true \/ Query.on_connect d = None ->
  bind statement p = Ok b ->
  Query.on_prepare d = None ->
  let out := Query.query d in_transaction statement (Some p) [] in
  (exists rest, snd out = Spec.sent in_transaction b ++ Query.Unprepare :: rest)
  /\ (forall recordset,
      Query.on_execute d = Ok recordset -> Query.on_unprepare d 0 = None ->
      out = (Ok (Rows.normalize recordset),
             Spec.sent in_transaction b ++ [Query.Unprepare]))
  /\ (forall e,
      Query.on_execute d = Err e ->
      out = (Err (match Query.on_unprepare d 0 with
                  | None => e
                  | Some released => released
                  end),
             Spec.sent in_transaction b ++ [Query.Unprepare])).
Proof.
  intros Hc Hb Hp. cbn zeta.
  unfold Query.query, Query.connection, Query.unprepare, Query.call,
    and_then, or_catch, settle, resolve, throw, Spec.sent.
  rewrite Hb, Hp.
  assert (Hconn : in_transaction = false -> Query.on_connect d = None).
  { intros ->. now destruct Hc. }
  destruct in_transaction; [|rewrite (Hconn eq_refl)]; cbn;
    destruct (Query.on_execute d) as [recordset|e]; cbn;
    destruct (Query.on_unprepare d 0) as [e0|]; cbn;
    try destruct (Query.on_unprepare d 1) as [e1|]; cbn;
    (split; [eexists; reflexivity|]);
    (split; [intros ? [=] [=]|intros ? [=]]); subst; reflexivity.
Qed.

(** The execution of ["SELECT $1"] fails: the statement is unprepared
    and the failure of the execution reaches the caller. *)
Lemma unprepare_on_both_paths_witness :
  bind "SELECT $1" (ParamsArray [Some (JNumber (of_Z 1))]) = Ok Samples.select_one
  /\ Query.query Samples.failing_execute false "SELECT $1"
       (Some (ParamsArray [Some (JNumber (of_Z 1))])) []
     = (Err (Failure "Violation of PRIMARY KEY constraint"),
        Spec.sent false Samples.select_one ++ [Query.Unprepare]).
Proof.
  assert (H : bind "SELECT $1" (ParamsArray [Some (JNumber (of_Z 1))])
              = Ok Samples.select_one) by (vm_compute; reflexivity).
  split; [exact H|].
  exact (proj2 (proj2 (unprepare_on_both_paths Samples.failing_execute false
                         "SELECT $1" (ParamsArray [Some (JNumber (of_Z 1))])
                         Samples.select_one (or_intror eq_refl) H eq_refl))
           (Failure "Violation of PRIMARY KEY constraint") eq_refl).
Defined.

(** C8 (as stated) fails: the execution fails on a constraint, the
    statement is unprepared, and the release fails in turn; the caller
    receives the failure of the release and not that of the
    execution. *)
Lemma release_failure_replaces_execution_error :
  Query.on_execute Cases.failing_execute_and_release
  = Err (Failure "Violation of PRIMARY KEY constraint")
  /\ Query.query Cases.failing_execute_and_release false "SELECT $1"
       (Some (ParamsArray [Some (JNumber (of_Z 1))])) []
     = (Err (Failure "release failed"),
        [Query.Connect;
         Query.Prepare "SELECT @p1"
           [("p1", mssql.Decimal (JNumber (of_nat 1)) (JNumber (of_Z 0)))];
         Query.Execute [("p1", Bound (JNumber (of_Z 1)))];
         Query.Unprepare])
  /\ Failure "release failed" <> Failure "Violation of PRIMARY KEY constraint".
Proof.
  split; [reflexivity|]. split; [vm_compute; reflexivity|discriminate].
Qed.

(** ** The connection registry *)

Section RegistryFacts.

Import Registry.

Lemma set_In {A} (o : list (string * A)) (k : string) (v : A) (k' : string) (v' : A) :
  In (k', v') (Obj.set o k v) -> (k', v') = (k, v) \/ In (k', v') o.
Proof.
  induction o as [|[k0 v0] o IH]; cbn.
  - intros [H|[]]. now left.
  - destruct (String.eqb_spec k0 k) as [->|Hne]; cbn.
    + intros [H|H]; auto.
    + intros [H|H]; auto. apply IH in H. tauto.
Qed.

Lemma get_In {A} (o : list (string * A)) (k : string) (v : A) :
  Obj.get o k = Some v -> In (k, v) o.
Proof.
  induction o as [|[k0 v0] o IH]; cbn; [discriminate|].
  destruct (String.eqb_spec k0 k) as [->|Hne].
  - intros [= ->]. now left.
  - intros H. right. auto.
Qed.

Lemma set_length_present {A} (o : list (string * A)) (k : string) (v v' : A) :
  Obj.get o k = Some v -> length (Obj.set o k v') = length o.
Proof.
  induction o as [|[k0 v0] o IH]; cbn; [discriminate|].
  destruct (String.eqb k0 k); cbn; [reflexivity|].
  intros H. f_equal. now apply IH.
Qed.

(** Under distinct keys, the entries of a key are the one [get] finds. *)
Lemma filter_key {A} (o : list (string * A)) (k : string) :
  List.NoDup (Obj.keys o) ->
  List.filter (fun ke => String.eqb (fst ke) k) o
  = match Obj.get o k with Some v => [(k, v)] | None => [] end.
Proof.
  induction o as [|[k0 v0] o IH]; cbn; [reflexivity|].
  intros Hnd. apply List.NoDup_cons_iff in Hnd. destruct Hnd as [Hk0 Hnd].
  rewrite (IH Hnd). destruct (String.eqb_spec k0 k) as [->|Hne]; [|reflexivity].
  destruct (Obj.get o k) as [v|] eqn:E; [|reflexivity].
  now apply get_In_keys in E.
Qed.

Lemma filter_and_le {A} (f g : A -> bool) (l : list A) :
  length (List.filter (fun x => f x && g x) l) <= length (List.filter f l).
Proof.
  induction l as [|x l IH]; cbn; [lia|].
  destruct (f x), (g x); cbn; lia.
Qed.

Lemma open_sound (c : config) (connected : option error) (s : state) :
  Invariants.registry_sound s -> Invariants.registry_sound (snd (open c connected s)).
Proof.
  intros (H1 & H2 & H3). unfold open, log.
  destruct connected as [e|]; cbn [snd]; (split; [|split]); cbn.
  - exact H1.
  - intros k e' Hin. apply H2 in Hin. lia.
  - intros cmd Hin. rewrite !in_app_iff in Hin. cbn in Hin.
    destruct Hin as [[Hin|[<-|[]]]|[<-|[]]]; cbn; try lia.
    apply H3 in Hin. lia.
  - apply set_keys_NoDup. exact H1.
  - intros k e' Hin. apply set_In in Hin. destruct Hin as [[= -> ->]|Hin].
    + cbn. lia.
    + apply H2 in Hin. lia.
  - intros cmd Hin. rewrite !in_app_iff in Hin. cbn in Hin.
    destruct Hin as [[Hin|[<-|[]]]|[<-|[]]]; cbn; try lia.
    apply H3 in Hin. lia.
Qed.

Lemma connect_sound (c : config) (connected : option error) (s : state) :
  Invariants.registry_sound s -> Invariants.registry_sound (snd (connect c connected s)).
Proof.
  intros Hs. unfold connect.
  assert (Hs0 : Invariants.registry_sound (with_map s)) by exact Hs.
  change (the_map (with_map s)) with (the_map s).
  destruct (Obj.get (the_map s) (getConnectionKey c)) as [existing|] eqn:E.
  - destruct (same_password _ _); [exact Hs0|].
    apply open_sound. destruct Hs0 as (H1 & H2 & H3).
    split; [exact H1|]. split; [exact H2|].
    intros cmd Hin. cbn in Hin. rewrite in_app_iff in Hin. cbn in Hin.
    destruct Hin as [Hin|[<-|[]]]; [now apply H3|].
    cbn. apply get_In in E. now apply (H2 _ _ E).
  - now apply open_sound.
Qed.

Lemma close_each_sound (closing : nat -> option error)
    (entries : list (string * entry)) (s : state) :
  (forall k e, In (k, e) entries -> pool e < pools s) ->
  Invariants.registry_sound s ->
  Invariants.registry_sound (snd (close_each closing entries s)).
Proof.
  revert s. induction entries as [|[k e] entries IH]; intros s Hlt Hs;
    [exact Hs|].
  cbn [close_each].
  assert (Hlog : Invariants.registry_sound (log (PoolClose (pool e)) s)).
  { destruct Hs as (H1 & H2 & H3). split; [exact H1|]. split; [exact H2|].
    intros cmd Hin. cbn in Hin. rewrite in_app_iff in Hin. cbn in Hin.
    destruct Hin as [Hin|[<-|[]]]; [now apply H3|].
    cbn. apply (Hlt k e). now left. }
  destruct (closing (pool e)); [exact Hlog|].
  apply IH; [|exact Hlog].
  intros k' e' Hin. apply (Hlt k' e'). now right.
Qed.

Lemma step_sound (s : state) (a : action) :
  Invariants.registry_sound s -> Invariants.registry_sound (step s a).
Proof.
  intros Hs. destruct a as [c r|closing]; cbn [step].
  - now apply connect_sound.
  - unfold close. destruct Hs as (H1 & H2 & H3).
    apply close_each_sound; [exact H2|].
    split; [constructor|]. split; [intros k e []|exact H3].
Qed.

Lemma run_sound (actions : list action) :
  Invariants.registry_sound (run actions initial).
Proof.
  unfold run. rewrite <- (rev_involutive actions).
  induction (rev actions) as [|a l IH]; cbn.
  - split; [constructor|]. split; [intros k e []|intros c []].
  - rewrite fold_left_app. cbn. now apply step_sound.
Qed.

End RegistryFacts.

(** C7.  In every state the registry can reach there is at most one
    entry, hence at most one live entry, under the key of a
    configuration.  A [connect] that finds an entry with the same
    password resolves to its pool and changes nothing; one that finds
    an entry with another password closes that entry's pool and, once
    the new pool is connected, registers it in place of the old one. *)
Theorem one_entry_per_key (actions : list Registry.action)
    (c : Registry.config) :
  let s := Registry.run actions Registry.initial in
  let key := Registry.getConnectionKey c in
  length (Spec.entries s c) <= 1
  /\ length (Registry.live_entries s c) <= 1
  /\ (forall existing connected,
      Obj.get (Registry.the_map s) key = Some existing ->
      Registry.same_password (Registry.password c)
        (Registry.password (Registry.used existing)) = true ->
      Registry.connect c connected s = (Ok (Registry.pool existing), s))
  /\ (forall existing,
      Obj.get (Registry.the_map s) key = Some existing ->
      Registry.same_password (Registry.password c)
        (Registry.password (Registry.used existing)) = false ->
      let out := Registry.connect c None s in
      let fresh := Registry.pools s in
      fst out = Ok fresh
      /\ fresh <> Registry.pool existing
      /\ Registry.issued (snd out)
         = Registry.issued s
           ++ [Registry.PoolClose (Registry.pool existing);
               Registry.NewPool fresh c; Registry.PoolConnect fresh]
      /\ Spec.entries (snd out) c
         = [(key, {| Registry.used := c; Registry.pool := fresh |})]
      /\ length (Registry.the_map (snd out)) = length (Registry.the_map s)
      /\ Registry.live (snd out) (Registry.pool existing) = false
      /\ Registry.live (snd out) fresh = true).
Proof.
  intros s key.
  pose proof (run_sound actions) as Hs. fold s in Hs.
  destruct Hs as (H1 & H2 & H3).
  assert (Hentries : length (Spec.entries s c) <= 1).
  { unfold Spec.entries. rewrite filter_key by exact H1.
    destruct (Obj.get _ _); cbn; lia. }
  split; [exact Hentries|]. split; [|split].
  - etransitivity; [|exact Hentries]. apply filter_and_le.
  - intros existing connected Hget Hpw. unfold Registry.connect.
    change (Registry.the_map (Registry.with_map s)) with (Registry.the_map s).
    fold key. rewrite Hget, Hpw. f_equal.
    destruct s as [[m|] n l]; cbn in *; [reflexivity|discriminate].
  - intros existing Hget Hpw. cbn zeta.
    pose proof (H2 _ _ (get_In _ _ _ Hget)) as Hlt.
    unfold Registry.connect.
    change (Registry.the_map (Registry.with_map s)) with (Registry.the_map s).
    fold key. rewrite Hget, Hpw.
    unfold Registry.open, Registry.log, Registry.with_map. cbn.
    split; [reflexivity|]. split; [lia|]. split; [now rewrite <- !app_assoc|].
    split; [|split; [|split]].
    + unfold Spec.entries. cbn. fold key.
      rewrite filter_key by (apply set_keys_NoDup, H1).
      now rewrite get_set_eq.
    + now apply set_length_present with existing.
    + unfold Registry.live. cbn. rewrite !existsb_app. cbn.
      rewrite Nat.eqb_refl. cbn. rewrite orb_true_r. apply andb_false_r.
    + unfold Registry.live. cbn. rewrite !existsb_app. cbn.
      rewrite Nat.leb_refl. cbn [andb].
      rewrite (proj2 (Nat.eqb_neq (Registry.pool existing) (Registry.pools s)))
        by lia.
      rewrite !orb_false_r. apply negb_true_iff.
      apply not_true_is_false. intros Hex. apply existsb_exists in Hex.
      destruct Hex as (cmd & Hin & Hc). apply H3 in Hin.
      destruct cmd; cbn in *; try discriminate.
      apply Nat.eqb_eq in Hc. lia.
Qed.

(** A registry holding one pool: a second [connect] with the same
    configuration resolves to that pool and changes nothing. *)
Lemma one_entry_per_key_witness :
  Registry.connect Samples.local_db None
    (Registry.run Samples.connected_once Registry.initial)
  = (Ok 0, Registry.run Samples.connected_once Registry.initial).
Proof.
  exact (proj1 (proj2 (proj2 (one_entry_per_key Samples.connected_once Samples.local_db)))
           {| Registry.used := Samples.local_db; Registry.pool := 0 |} None
           eq_refl eq_refl).
Defined.

(** A [connect] with a changed password: the old pool is closed and the
    new one registered in its place. *)
Example password_change_replaces :
  Registry.connect Samples.new_password None
    (Registry.run Samples.connected_once Registry.initial)
  = (Ok 1,
     {| Registry.connections :=
          Some [(Registry.getConnectionKey Samples.new_password,
                 {| Registry.used := Samples.new_password; Registry.pool := 1 |})];
        Registry.pools := 2;
        Registry.issued :=
          [Registry.NewPool 0 Samples.local_db; Registry.PoolConnect 0;
           Registry.PoolClose 0;
           Registry.NewPool 1 Samples.new_password; Registry.PoolConnect 1] |}).
Proof. vm_compute. reflexivity. Qed.

(** * The rest of the layer *)

(** ** The statement [convertParams] leaves *)

Section RewritingFacts.

Import Rewriting Shapes.

Lemma quiet_snoc (l : list ascii) (c : ascii) (next_word : bool) :
  quiet l (is_word c) -> is_char "$" c && next_word = false ->
  quiet (l ++ [c]) next_word.
Proof.
  induction l as [|x l IH]; cbn [app quiet]; intros Hq Hc.
  - auto.
  - destruct Hq as [Hx Hq]. split; [|now apply IH].
    destruct l; exact Hx.
Qed.

Lemma strip_prefix_app (m rest : list ascii) : strip_prefix m (m ++ rest) = Some rest.
Proof.
  induction m as [|c m IH]; cbn; [now destruct rest|].
  now rewrite is_char_refl.
Qed.

Lemma replace_first_here (p r s rest : list ascii) :
  strip_prefix p s = Some rest -> replace_first p r s = r ++ rest.
Proof. intros H. destruct s; cbn [replace_first]; now rewrite H. Qed.

(** A token cannot be found where no token starts. *)
Lemma replace_first_quiet (done rest r : list ascii) (d : ascii) (w : list ascii) :
  is_word d = true ->
  quiet done (word_side (head rest)) ->
  replace_first ("$"%char :: d :: w) r (done ++ rest)
  = done ++ replace_first ("$"%char :: d :: w) r rest.
Proof.
  intros Hd. induction done as [|c done IH]; intros Hq; [reflexivity|].
  cbn [app]. destruct Hq as [Hc Hq].
  assert (Hno : strip_prefix ("$"%char :: d :: w) (c :: done ++ rest) = None).
  { cbn [strip_prefix]. destruct (is_char "$" c) eqn:E; [|reflexivity].
    cbn [andb] in Hc.
    destruct done as [|y done]; cbn [app].
    - destruct rest as [|y rest]; [reflexivity|]. cbn in Hc. cbn [strip_prefix].
      destruct (is_char d y) eqn:Ey; [|reflexivity].
      apply is_char_eq in Ey. subst y. congruence.
    - cbn [strip_prefix]. destruct (is_char d y) eqn:Ey; [|reflexivity].
      apply is_char_eq in Ey. subst y. congruence. }
  cbn [replace_first]. rewrite Hno. f_equal.
  apply IH. exact Hq.
Qed.

Lemma word_run_split (t : list ascii) :
  exists rest, t = word_run t ++ rest /\ word_side (head rest) = false.
Proof.
  induction t as [|c t (rest & Ht & Hr)]; cbn.
  - now exists [].
  - destruct (is_word c) eqn:Hc.
    + exists rest. split; [|exact Hr]. cbn. now f_equal.
    + exists (c :: t). split; [reflexivity|]. cbn. exact Hc.
Qed.

Lemma rewrite_words (w rest : list ascii) :
  Forall (fun c => is_word c = true) w ->
  rewrite (w ++ rest) = w ++ rewrite rest.
Proof.
  induction 1 as [|c w Hc _ IH]; [reflexivity|].
  cbn. rewrite (word_not_dollar c Hc). cbn. now rewrite IH.
Qed.

Lemma word_run_words (t : list ascii) : Forall (fun c => is_word c = true) (word_run t).
Proof.
  induction t as [|c t IH]; cbn; [constructor|].
  destruct (is_word c) eqn:Hc; [now constructor|constructor].
Qed.

(** Replacing the tokens one after the other, each at its first
    occurrence, rewrites the statement from left to right. *)
Lemma replace_tokens_rewrite (s done : list ascii) (skip : nat) :
  skip <= length (word_run s) ->
  quiet done (word_side (head s)) ->
  fold_left replace_token (scan skip s) (done ++ s) = done ++ rewrite s.
Proof.
  revert done skip. induction s as [|c t IH]; intros done skip Hskip Hq.
  - reflexivity.
  - cbn [scan rewrite]. destruct skip as [|k].
    + rewrite match_here_run.
      destruct (is_char "$" c && word_side (head t)) eqn:E.
      * apply andb_true_iff in E. destruct E as [Ec Et].
        apply is_char_eq in Ec. subst c.
        cbn [fold_left length Nat.sub]. rewrite Nat.sub_0_r.
        destruct (word_run_split t) as (rest & Ht & Hrest).
        assert (Hw : exists d w, word_run t = d :: w /\ is_word d = true).
        { destruct t as [|d t']; [discriminate|]. cbn in Et. cbn. rewrite Et.
          now exists d, (word_run t'). }
        destruct Hw as (d & w & Hdw & Hd).
        assert (Hrep : replace_first ("$"%char :: word_run t)
                         ("@"%char :: "p"%char :: word_run t) ("$"%char :: t)
                       = "@"%char :: "p"%char :: t).
        { rewrite Ht at 3 4.
          change ("$"%char :: word_run t ++ rest)
            with (("$"%char :: word_run t) ++ rest).
          now rewrite (replace_first_here _ _ _ rest (strip_prefix_app _ rest)). }
        unfold replace_token at 2. cbn [tl].
        rewrite Hdw at 1 2.
        rewrite (replace_first_quiet done ("$"%char :: t) _ d w Hd Hq).
        rewrite <- Hdw, Hrep.
        change (done ++ "@"%char :: "p"%char :: t)
          with (done ++ ["@"%char; "p"%char] ++ t).
        rewrite app_assoc, IH; [now rewrite <- app_assoc|lia|].
        change (done ++ ["@"%char; "p"%char])
          with (done ++ ["@"%char] ++ ["p"%char]).
        rewrite app_assoc. apply quiet_snoc; [|reflexivity].
        apply quiet_snoc; [|reflexivity].
        exact Hq.
      * change (done ++ c :: t) with (done ++ [c] ++ t).
        rewrite app_assoc, IH; [now rewrite <- app_assoc|lia|].
        apply quiet_snoc; [|exact E]. exact Hq.
    + cbn [word_run] in Hskip. destruct (is_word c) eqn:Hc; [|cbn in Hskip; lia].
      rewrite (word_not_dollar c Hc). cbn [andb].
      change (done ++ c :: t) with (done ++ [c] ++ t).
      rewrite app_assoc, IH; [now rewrite <- app_assoc|cbn in Hskip; lia|].
      apply quiet_snoc; [|now rewrite (word_not_dollar c Hc)].
      exact Hq.
Qed.

End RewritingFacts.

Section ConvertedStatement.

Import Rewriting Shapes.

Lemma text_chars (s : string) : text (chars s) = s.
Proof. apply string_of_list_ascii_of_string. Qed.

Lemma replacement_chars (m : list ascii) :
  chars ("@p" ++ substr1 (text m)) = "@"%char :: "p"%char :: tl m.
Proof. destruct m as [|c w]; [reflexivity|]. cbn [text string_of_list_ascii substr1 tl]. change (chars ("@p" ++ string_of_list_ascii w)) with ("@"%char :: "p"%char :: chars (text w)). now rewrite chars_text. Qed.

(** The callback of [match.map] works on the statement as
    [replace_token] does on its characters. *)
Lemma convert_tokens_statement (a : list (option jsval)) (l : list (list ascii))
    (stmt : list ascii) (obj : list (string * jsval)) :
  fst (fold_left (convert_token a) (map text l) (text stmt, obj))
  = text (fold_left replace_token l stmt).
Proof.
  revert stmt obj. induction l as [|m l IH]; intros stmt obj; [reflexivity|].
  cbn [map fold_left convert_token]. unfold String_replace.
  rewrite replacement_chars, !chars_text. apply IH.
Qed.

Lemma rewrite_all (s : list ascii) :
  fold_left replace_token (scan 0 s) s = rewrite s.
Proof. apply (replace_tokens_rewrite s [] 0); [lia|exact I]. Qed.

Lemma convertParams_statement (statement st : string) (a : list (option jsval))
    (obj : list (string * jsval)) :
  convertParams statement (ParamsArray a) = Ok (st, obj) ->
  st = rewritten statement.
Proof.
  unfold convertParams, String_match, rewritten.
  destruct (_ <=? _)%nat; [|discriminate].
  pose proof (rewrite_all (chars statement)) as Hall.
  destruct (scan 0 (chars statement)) as [|m l] eqn:Hscan.
  - intros [= <- _]. cbn in Hall. now rewrite <- Hall, text_chars.
  - intros [= H]. rewrite <- Hall.
    change st with (fst (st, obj)). rewrite <- H.
    rewrite <- (text_chars statement) at 1.
    exact (convert_tokens_statement a (m :: l) (chars statement) []).
Qed.

Lemma word_side_rewrite (s : list ascii) :
  word_side (head (rewrite s)) = word_side (head s).
Proof.
  destruct s as [|c t]; [reflexivity|]. cbn [rewrite].
  destruct (is_char "$" c && word_side (head t)) eqn:E; [|reflexivity].
  apply andb_true_iff in E. destruct E as [Ec _]. cbn.
  now rewrite (dollar_not_word c Ec).
Qed.

Lemma rewrite_no_occurrence (s : list ascii) : Spec.occurrences (rewrite s) = 0.
Proof.
  induction s as [|c t IH]; [reflexivity|]. cbn [rewrite].
  destruct (is_char "$" c && word_side (head t)) eqn:E.
  - cbn [Spec.occurrences head]. rewrite IH. reflexivity.
  - cbn [Spec.occurrences]. now rewrite word_side_rewrite, E, IH.
Qed.

End ConvertedStatement.

(** X1.  When [convertParams] accepts an array, the statement it leaves
    is the original with every [$] that stands before a word character
    replaced by [@p], from left to right: although each token is
    replaced at its first occurrence only, and a token may be the
    beginning of another ([$1] of [$10]), no replacement ever lands on
    another place than the token's own. *)
Theorem convertParams_rewrites_in_place (statement st : string)
    (a : list (option jsval)) (obj : list (string * jsval)) :
  convertParams statement (ParamsArray a) = Ok (st, obj) ->
  st = Rewriting.rewritten statement
  /\ String.length st = (String.length statement + Spec.token_occurrences statement)%nat.
Proof.
  intros H. apply convertParams_statement in H. subst st. split; [reflexivity|].
  unfold Rewriting.rewritten, Spec.token_occurrences.
  rewrite length_text. rewrite <- (text_chars statement) at 2. rewrite length_text.
  induction (chars statement) as [|c t IH]; [reflexivity|].
  cbn [Rewriting.rewrite Spec.occurrences].
  destruct (is_char "$" c && word_side (head t)); cbn [length]; lia.
Qed.

Lemma convertParams_rewrites_in_place_witness :
  convertParams Samples.insert_three (ParamsArray Samples.three_params)
  = Ok ("INSERT INTO t VALUES (@p1, @p2, @p3)",
        [("p1", JNumber (of_Z 3)); ("p2", JString "Duck");
         ("p3", JNumber (Dec 99 (-2)))])
  /\ "INSERT INTO t VALUES (@p1, @p2, @p3)" = Rewriting.rewritten Samples.insert_three
  /\ String.length "INSERT INTO t VALUES (@p1, @p2, @p3)"
     = (String.length Samples.insert_three
        + Spec.token_occurrences Samples.insert_three)%nat.
Proof.
  assert (H : convertParams Samples.insert_three (ParamsArray Samples.three_params)
              = Ok ("INSERT INTO t VALUES (@p1, @p2, @p3)",
                    [("p1", JNumber (of_Z 3)); ("p2", JString "Duck");
                     ("p3", JNumber (Dec 99 (-2)))]))
    by (vm_compute; reflexivity).
  split; [exact H|].
  exact (convertParams_rewrites_in_place _ _ _ _ H).
Defined.

(** X2.  The statement [convertParams] hands to [ps.prepare] holds no
    positional token any more: the token pattern finds nothing in it. *)
Theorem converted_statement_has_no_token (statement st : string)
    (a : list (option jsval)) (obj : list (string * jsval)) :
  convertParams statement (ParamsArray a) = Ok (st, obj) ->
  String_match st = None /\ Spec.token_occurrences st = 0.
Proof.
  intros H. apply convertParams_statement in H. subst st.
  assert (H0 : Spec.token_occurrences (Rewriting.rewritten statement) = 0).
  { unfold Spec.token_occurrences, Rewriting.rewritten.
    rewrite chars_text. apply rewrite_no_occurrence. }
  split; [|exact H0].
  rewrite <- match_length_occurrences in H0.
  destruct (String_match (Rewriting.rewritten statement)) as [[|x l]|] eqn:E;
    [|discriminate|reflexivity].
  unfold String_match in E. now destruct (scan 0 _).
Qed.

Lemma converted_statement_has_no_token_witness :
  convertParams Samples.insert_three (ParamsArray Samples.three_params)
  = Ok ("INSERT INTO t VALUES (@p1, @p2, @p3)",
        [("p1", JNumber (of_Z 3)); ("p2", JString "Duck");
         ("p3", JNumber (Dec 99 (-2)))])
  /\ String_match "INSERT INTO t VALUES (@p1, @p2, @p3)" = None
  /\ Spec.token_occurrences "INSERT INTO t VALUES (@p1, @p2, @p3)" = 0.
Proof.
  assert (H : convertParams Samples.insert_three (ParamsArray Samples.three_params)
              = Ok ("INSERT INTO t VALUES (@p1, @p2, @p3)",
                    [("p1", JNumber (of_Z 3)); ("p2", JString "Duck");
                     ("p3", JNumber (Dec 99 (-2)))]))
    by (vm_compute; reflexivity).
  split; [exact H|].
  exact (converted_statement_has_no_token _ _ _ _ H).
Defined.

(** ** The element a token names *)

Section TokenIndex.

Import KeyNumber Shapes.

Lemma radix_value_acc (u : Decimal.uint) (acc : positive) :
  radix_value 10 (Zpos acc) (uint_chars u) = Some (Zpos (Pos.of_uint_acc u acc)).
Proof.
  revert acc. induction u as [|u IH|u IH|u IH|u IH|u IH|u IH|u IH|u IH|u IH|u IH];
    intros acc; [reflexivity|..];
    cbn [uint_chars radix_value Pos.of_uint_acc];
    match goal with
    | |- context [hex_value ?c] =>
        let v := eval vm_compute in (hex_value c) in
        change (hex_value c) with v
    end;
    cbv beta iota;
    match goal with
    | |- context [(?d <? 10)%Z] => change (d <? 10)%Z with true
    end;
    cbv iota;
    match goal with
    | |- radix_value 10 ?z _ = Some (Zpos (Pos.of_uint_acc _ ?q)) =>
        replace z with (Zpos q) by lia; apply IH
    end.
Qed.

Lemma radix_value_uint (u : Decimal.uint) :
  radix_value 10 0 (uint_chars u) = Some (Z.of_N (Pos.of_uint u)).
Proof.
  induction u as [|u IH|u IH|u IH|u IH|u IH|u IH|u IH|u IH|u IH|u IH];
    [reflexivity|exact IH|..];
    cbn [uint_chars radix_value Pos.of_uint];
    match goal with
    | |- context [hex_value ?c] =>
        let v := eval vm_compute in (hex_value c) in
        change (hex_value c) with v
    end;
    cbv beta iota;
    match goal with
    | |- context [(?d <? 10)%Z] => change (d <? 10)%Z with true
    end;
    cbv iota;
    apply radix_value_acc.
Qed.

Lemma split_exponent_digits (ds : list ascii) :
  Forall digit ds -> split_exponent ds = (ds, None).
Proof.
  induction 1 as [|c ds Hc _ IH]; [reflexivity|].
  cbn [split_exponent]. destruct (digit_plain c Hc) as (_ & -> & ->).
  cbn [orb]. now rewrite IH.
Qed.

Lemma digit_no_prefix (x c : ascii) :
  digit x -> (65 <= code c)%nat -> is_char c x = false.
Proof. unfold digit. intros H Hc. apply Nat.eqb_neq. char_arith. lia. Qed.

Lemma Number_digits (ds : list ascii) :
  Forall digit ds -> Number ds = digits 10 ds.
Proof.
  intros H. unfold Number.
  destruct ds as [|z [|x t]]; try reflexivity.
  assert (Hx : digit x) by (inversion H as [|? ? _ H']; now inversion H').
  rewrite !(digit_no_prefix x) by (assumption || (vm_compute; lia)).
  cbn [orb]. rewrite !andb_false_r.
  now rewrite (split_exponent_digits _ H).
Qed.

Lemma Number_decimal (p : positive) : Number (digits_of p) = Some (Zpos p).
Proof.
  rewrite Number_digits by apply uint_chars_digits.
  destruct (digits_of_digits1 p) as [Hne _].
  unfold digits. destruct (digits_of p) as [|c t] eqn:E; [easy|].
  rewrite <- E. unfold digits_of. rewrite radix_value_uint.
  now rewrite DecimalPos.Unsigned.of_to.
Qed.

(** [params[Number(key) - 1]] for the decimal numeral of [p]. *)
Lemma positional_decimal (a : list (option jsval)) (p : positive) :
  (Zpos p <= 4294967295)%Z ->
  positional a (text (digits_of p)) = JSArray.get a (Pos.to_nat p - 1).
Proof.
  intros Hp. unfold positional, index. rewrite chars_text, Number_decimal.
  replace (1 <=? Z.pos p)%Z with true by (symmetry; apply Z.leb_le; lia).
  replace (Z.pos p <=? 4294967295)%Z with true by (symmetry; now apply Z.leb_le).
  cbn [andb]. f_equal. lia.
Qed.

End TokenIndex.

Section BoundKeys.

Import Shapes Rewriting.

Lemma convertParams_object (statement st : string) (a : list (option jsval))
    (obj : list (string * jsval)) :
  convertParams statement (ParamsArray a) = Ok (st, obj) ->
  obj = snd (fold_left (convert_token a) (Spec.tokens statement) (statement, [])).
Proof.
  unfold convertParams, Spec.tokens.
  destruct (_ <=? _)%nat; [|discriminate].
  destruct (String_match statement) as [tokens|]; intros [= H].
  - now rewrite H.
  - now subst.
Qed.

Lemma keys_set_In {A} (o : list (string * A)) (k x : string) (v : A) :
  In x (Obj.keys (Obj.set o k v)) <-> x = k \/ In x (Obj.keys o).
Proof.
  induction o as [|[k' v'] o IH]; cbn.
  - intuition congruence.
  - destruct (String.eqb_spec k' k) as [->|Hne]; cbn; [|rewrite IH];
      intuition congruence.
Qed.

Lemma keys_set_new {A} (o : list (string * A)) (k : string) (v : A) :
  ~ In k (Obj.keys o) -> Obj.keys (Obj.set o k v) = Obj.keys o ++ [k].
Proof.
  induction o as [|[k' v'] o IH]; cbn; [reflexivity|]. intros Hk.
  destruct (String.eqb_spec k' k) as [->|Hne]; [tauto|].
  cbn. f_equal. apply IH. tauto.
Qed.

Lemma convert_tokens_keys (a : list (option jsval)) (tokens : list string)
    (acc : string * list (string * jsval)) (k : string) :
  In k (Obj.keys (snd (fold_left (convert_token a) tokens acc)))
  <-> In k (Obj.keys (snd acc)) \/ In k (map parameter_name tokens).
Proof.
  revert acc. induction tokens as [|tok tokens IH]; intros [stmt obj].
  - cbn. tauto.
  - cbn [fold_left convert_token map]. rewrite IH. cbn [snd In].
    rewrite keys_set_In. unfold parameter_name. intuition congruence.
Qed.

Lemma scan_dollar (s : list ascii) (skip : nat) :
  Forall (fun m => exists w, m = "$"%char :: w) (scan skip s).
Proof.
  revert skip. induction s as [|c t IH]; intros skip; cbn [scan]; [constructor|].
  destruct skip as [|k]; [|apply IH].
  rewrite match_here_run.
  destruct (is_char "$" c && word_side (head t)) eqn:E; [|apply IH].
  apply andb_true_iff in E. destruct E as [Ec _]. apply is_char_eq in Ec.
  constructor; [|apply IH]. subst c. now exists (word_run t).
Qed.

Lemma tokens_dollar (statement : string) :
  Forall (fun t => exists w, t = String "$" w) (Spec.tokens statement).
Proof.
  unfold Spec.tokens, String_match.
  pose proof (scan_dollar (chars statement) 0) as H.
  destruct (scan 0 (chars statement)) as [|m l]; [constructor|].
  apply Forall_fmap. eapply List.Forall_impl; [|exact H].
  intros m' [w ->]. now exists (text w).
Qed.

Lemma parameter_name_inj (statement x y : string) :
  In x (Spec.tokens statement) -> In y (Spec.tokens statement) ->
  parameter_name x = parameter_name y -> x = y.
Proof.
  pose proof (tokens_dollar statement) as H.
  rewrite List.Forall_forall in H.
  intros Hx Hy. destruct (H x Hx) as [wx ->], (H y Hy) as [wy ->].
  change (String "p" wx = String "p" wy -> String "$" wx = String "$" wy).
  now intros [= ->].
Qed.

Lemma remove_dups_fmap_length {A B} `{EqDecision A, EqDecision B}
    (f : A -> B) (l : list A) :
  (forall x y, In x l -> In y l -> f x = f y -> x = y) ->
  length (remove_dups (map f l)) = length (remove_dups l).
Proof.
  induction l as [|x l IH]; intros Hinj; [reflexivity|].
  cbn [map remove_dups].
  assert (IH' : length (remove_dups (map f l)) = length (remove_dups l)).
  { apply IH. intros a b Ha Hb. apply Hinj; now right. }
  assert (Hiff : f x ∈ map f l <-> x ∈ l).
  { rewrite list_elem_of_fmap. split.
    - intros (y & Hxy & Hy). rewrite (Hinj x y); [exact Hy|now left| |exact Hxy].
      right. now apply list_elem_of_In.
    - intros Hx. now exists x. }
  destruct (decide_rel elem_of x l) as [Hx|Hx];
    destruct (decide_rel elem_of (f x) (map f l)) as [Hy|Hy];
    cbn [length]; try tauto; try exact IH'; now f_equal.
Qed.

Lemma NoDup_same_length {A} (l k : list A) :
  List.NoDup l -> List.NoDup k -> (forall x, In x l <-> In x k) ->
  length l = length k.
Proof.
  intros Hl Hk H. now apply Permutation_length, Permutation.NoDup_Permutation.
Qed.

Lemma converted_keys_length (statement : string) (a : list (option jsval)) :
  length (snd (fold_left (convert_token a) (Spec.tokens statement) (statement, [])))
  = Spec.distinct_tokens statement.
Proof.
  unfold Spec.distinct_tokens.
  rewrite <- (remove_dups_fmap_length parameter_name)
    by apply parameter_name_inj.
  rewrite <- (length_map fst). apply NoDup_same_length.
  - apply (convert_tokens a (Spec.tokens statement) (statement, []));
      [constructor|discriminate].
  - apply NoDup_ListNoDup, NoDup_remove_dups.
  - intros x. change (map fst ?o) with (Obj.keys o).
    rewrite convert_tokens_keys. cbn [snd Obj.keys map In].
    rewrite <- !list_elem_of_In, elem_of_remove_dups. tauto.
Qed.

Lemma bind_all_keys (ps : list (string * jsval)) (acc i : inputs) :
  List.NoDup (Obj.keys ps) ->
  ~ In "__proto__" (Obj.keys ps) ->
  (forall k, In k (Obj.keys ps) ->
     ~ In k (Obj.keys (input acc)) /\ ~ In k (Obj.keys (declared acc))) ->
  bind_all ps acc = Ok i ->
  Obj.keys (input i) = Obj.keys (input acc) ++ Obj.keys ps
  /\ Obj.keys (declared i) = Obj.keys (declared acc) ++ Obj.keys ps.
Proof.
  revert acc. induction ps as [|[k p] ps IH]; intros acc Hnd Hproto Hnew H; cbn in H.
  - injection H as <-. cbn. now rewrite !app_nil_r.
  - cbn in Hproto.
    rewrite proto_key_eqb, bind_entry_own in H by (intros ->; tauto).
    destruct (bind_param p) as [[b t]|e]; [|discriminate].
    apply List.NoDup_cons_iff in Hnd. destruct Hnd as [Hk Hnd].
    destruct (Hnew k (or_introl eq_refl)) as [Hki Hkd].
    apply IH in H; [|exact Hnd|tauto|].
    + cbn [input declared] in H.
      rewrite !keys_set_new in H by assumption.
      cbn [Obj.keys map fst]. now rewrite <- !app_assoc in H.
    + intros k' Hk'. cbn [input declared]. rewrite !keys_set_In.
      destruct (Hnew k' (or_intror Hk')).
      assert (k' <> k) by (intros ->; tauto). tauto.
Qed.

(** The keys [convertParams] makes begin with [p]: none is
    [__proto__]. *)
Lemma converted_keys_are_own (a : list (option jsval)) (tokens : list string)
    (statement : string) :
  ~ In "__proto__"
      (Obj.keys (snd (fold_left (convert_token a) tokens (statement, [])))).
Proof.
  rewrite convert_tokens_keys. cbn [snd Obj.keys map In]. intros [[]|H].
  apply in_map_iff in H. destruct H as (t & Ht & _). discriminate Ht.
Qed.

End BoundKeys.

(** X3.  A token [$n] names the [n]-th element of the array, counted
    from one: once [convertParams] has accepted the array, the
    parameter [pn] holds [params[n - 1]], [undefined] when the array
    has no such element. *)
Theorem token_counts_from_one (statement st : string) (a : list (option jsval))
    (obj : list (string * jsval)) (p : positive) :
  convertParams statement (ParamsArray a) = Ok (st, obj) ->
  In (text ("$"%char :: digits_of p)) (Spec.tokens statement) ->
  (Zpos p <= 4294967295)%Z ->
  Obj.get obj (text ("p"%char :: digits_of p))
  = Some (JSArray.get a (Pos.to_nat p - 1)).
Proof.
  intros H Hin Hp. apply convertParams_object in H. subst obj.
  rewrite <- (positional_decimal a p Hp).
  apply (convert_tokens a (Spec.tokens statement) (statement, []));
    [constructor|discriminate|].
  left. apply (in_map substr1) in Hin. exact Hin.
Qed.

Lemma token_counts_from_one_witness :
  convertParams Samples.ten_then_one (ParamsArray Samples.three_params)
  = Ok ("SELECT @p10, @p1, @p1", [("p10", JUndefined); ("p1", JNumber (of_Z 3))])
  /\ In (text ("$"%char :: digits_of 10)) (Spec.tokens Samples.ten_then_one)
  /\ (Zpos 10 <= 4294967295)%Z
  /\ Obj.get [("p10", JUndefined); ("p1", JNumber (of_Z 3))]
       (text ("p"%char :: digits_of 10))
     = Some (JSArray.get Samples.three_params (Pos.to_nat 10 - 1)).
Proof.
  assert (H : convertParams Samples.ten_then_one (ParamsArray Samples.three_params)
              = Ok ("SELECT @p10, @p1, @p1",
                    [("p10", JUndefined); ("p1", JNumber (of_Z 3))]))
    by (vm_compute; reflexivity).
  assert (Hin : In (text ("$"%char :: digits_of 10)) (Spec.tokens Samples.ten_then_one))
    by (vm_compute; tauto).
  assert (Hp : (Zpos 10 <= 4294967295)%Z) by lia.
  split; [exact H|]. split; [exact Hin|]. split; [exact Hp|].
  exact (token_counts_from_one _ _ _ _ 10 H Hin Hp).
Defined.

(** X4.  The inputs bound for an array are as many as the distinct
    tokens of the statement, however often a token is repeated: one
    input and one declaration per token name, under the same keys. *)
Theorem one_input_per_distinct_token (statement st : string)
    (a : list (option jsval)) (i : inputs) :
  bind statement (ParamsArray a) = Ok (st, i) ->
  length (input i) = Spec.distinct_tokens statement
  /\ length (declared i) = Spec.distinct_tokens statement
  /\ Obj.keys (declared i) = Obj.keys (input i)
  /\ (forall k, In k (Obj.keys (input i))
        <-> In k (map Rewriting.parameter_name (Spec.tokens statement))).
Proof.
  unfold bind. intros H.
  destruct (convertParams statement (ParamsArray a)) as [[st' obj]|e] eqn:Hc;
    [|discriminate].
  destruct (bind_all obj {| input := []; declared := [] |}) as [i'|e] eqn:Hb;
    [|discriminate].
  injection H as <- <-.
  apply convertParams_object in Hc.
  assert (Hnd : List.NoDup (Obj.keys obj)).
  { subst obj.
    apply (convert_tokens a (Spec.tokens statement) (statement, []));
      [constructor|discriminate]. }
  destruct (bind_all_keys obj {| input := []; declared := [] |} i' Hnd) as [Hi Hd];
    [subst obj; apply converted_keys_are_own|intros k _; split; intros []|exact Hb|].
  cbn [input declared Obj.keys map app] in Hi, Hd.
  assert (Hlen : length obj = Spec.distinct_tokens statement)
    by (subst obj; apply converted_keys_length).
  split; [|split; [|split]].
  - rewrite <- Hlen, <- (length_map fst (input i')), <- (length_map fst obj).
    now f_equal.
  - rewrite <- Hlen, <- (length_map fst (declared i')), <- (length_map fst obj).
    now f_equal.
  - now rewrite Hi, Hd.
  - intros k. rewrite Hi. subst obj. rewrite convert_tokens_keys. cbn. tauto.
Qed.

Lemma one_input_per_distinct_token_witness :
  bind Samples.ten_then_one (ParamsArray Samples.three_params)
  = Ok ("SELECT @p10, @p1, @p1",
        {| input := [("p10", Bound JNull); ("p1", Bound (JNumber (of_Z 3)))];
           declared :=
             [("p10", mssql.NVarChar);
              ("p1", mssql.Decimal (JNumber (of_nat 1)) (JNumber (of_Z 0)))] |})
  /\ Spec.token_occurrences Samples.ten_then_one = 3
  /\ length [("p10", Bound JNull); ("p1", Bound (JNumber (of_Z 3)))]
     = Spec.distinct_tokens Samples.ten_then_one.
Proof.
  assert (H : bind Samples.ten_then_one (ParamsArray Samples.three_params)
    = Ok ("SELECT @p10, @p1, @p1",
          {| input := [("p10", Bound JNull); ("p1", Bound (JNumber (of_Z 3)))];
             declared :=
               [("p10", mssql.NVarChar);
                ("p1", mssql.Decimal (JNumber (of_nat 1)) (JNumber (of_Z 0)))] |}))
    by (vm_compute; reflexivity).
  split; [exact H|]. split; [vm_compute; reflexivity|].
  exact (proj1 (one_input_per_distinct_token _ _ _ _ H)).
Defined.

(** ** Parameters given by name *)

Section NamedParameters.

Import Rewriting.



End NamedParameters.





(** ** What [query] sends in the other cases *)

(** X7.  A failure of the binding, the arity assertion included, is
    not raised when [query] is called: it rejects the promise after
    the connection was obtained, so that nothing but the connection is
    asked of the driver, and a failure to connect comes first. *)
Theorem binding_fails_after_connecting (d : Query.driver) (statement : string)
    (p : params) (e : error) :
  bind statement p = Err e ->
  Query.query d false statement (Some p) []
  = (Err (match Query.on_connect d with Some e' => e' | None => e end),
     [Query.Connect])
  /\ Query.query d true statement (Some p) [] = (Err e, []).
Proof.
  intros H.
  unfold Query.query, Query.connection, Query.call, and_then, settle, resolve.
  rewrite H. cbn. now destruct (Query.on_connect d).
Qed.

Lemma binding_fails_after_connecting_witness :
  bind Cases.name_twice (ParamsArray Cases.one_name)
  = Err (AssertionError arity_message)
  /\ Query.query Samples.failing_execute false Cases.name_twice
       (Some (ParamsArray Cases.one_name)) []
     = (Err (AssertionError arity_message), [Query.Connect]).
Proof.
  assert (H : bind Cases.name_twice (ParamsArray Cases.one_name)
              = Err (AssertionError arity_message))
    by (vm_compute; reflexivity).
  split; [exact H|].
  exact (proj1 (binding_fails_after_connecting Samples.failing_execute _ _ _ H)).
Defined.

(** X8.  Whatever the driver answers, [query] unprepares a statement
    exactly when it sent it for execution, at most twice, and once
    only when it resolves; a statement whose preparation failed is
    neither executed nor unprepared. *)
Theorem unprepare_follows_execute (d : Query.driver) (in_transaction : bool)
    (statement : string) (ps : option params) :
  let out := Query.query d in_transaction statement ps [] in
  (In Query.Unprepare (snd out) <-> exists i, In (Query.Execute i) (snd out))
  /\ Query.unprepares (snd out) <= 2
  /\ (is_ok (fst out) = true -> Query.unprepares (snd out) <= 1)
  /\ (forall e, Query.on_prepare d = Some e -> ~ In Query.Unprepare (snd out)).
Proof.
  destruct d as [c q pr ex un], ps as [p|];
    unfold Query.query, Query.connection, Query.unprepare, Query.call,
      and_then, or_catch, settle, resolve, throw;
    cbn [Query.on_connect Query.on_query Query.on_prepare Query.on_execute
         Query.on_unprepare];
    [destruct (bind statement p) as [b|eb]|];
    destruct in_transaction, c, q, pr, ex; cbn;
    try destruct (un 0) as [u0|]; cbn;
    try destruct (un 1) as [u1|]; cbn;
    (split;
     [split; [intros H|intros [i H]];
      repeat (destruct H as [H|H]; try discriminate H); try contradiction;
      try (exists (input (snd b)));
      repeat (first [left; reflexivity | right])
     |split; [lia|split;
        [intros H; first [discriminate H | lia]
        |intros e' He; first [discriminate He | intros H;
           repeat (destruct H as [H|H]; try discriminate H); contradiction]]]]).
Qed.

Lemma fold_idempotent (record : gmap string Rows.column) :
  Rows.fold (Rows.fold record) = Rows.fold record.
Proof.
  unfold Rows.fold. rewrite <- map_fmap_compose. apply map_fmap_ext.
  intros key value _. apply fold_column_idempotent.
Qed.

Lemma normalize_folded (recordset : option (list (gmap string Rows.column))) :
  Forall (fun row => Rows.fold row = row) (Rows.normalize recordset).
Proof.
  destruct recordset as [rows|]; cbn; [|constructor].
  induction rows; cbn; constructor; auto using fold_idempotent.
Qed.

(** X9.  When the release of an executed statement fails, the caller
    receives a failure of the release.  After a failed execution the
    failure of the execution is lost; after a successful one the rows
    are lost, and because the handler of the chain also catches the
    failed release, [unprepare] is called a second time. *)
Theorem release_failure_reaches_the_caller (d : Query.driver)
    (in_transaction : bool) (statement : string) (p : params)
    (b : string * inputs) (e1 : error) :
  in_transaction = true \/ Query.on_connect d = None ->
  bind statement p = Ok b ->
  Query.on_prepare d = None ->
  Query.on_unprepare d 0 = Some e1 ->
  let out := Query.query d in_transaction statement (Some p) [] in
  (forall e, Query.on_execute d = Err e ->
     out = (Err e1, Spec.sent in_transaction b ++ [Query.Unprepare]))
  /\ (forall recordset, Query.on_execute d = Ok recordset ->
      out = (Err (match Query.on_unprepare d 1 with
                  | Some e2 => e2
                  | None => e1
                  end),
             Spec.sent in_transaction b ++ [Query.Unprepare; Query.Unprepare])).
Proof.
  intros Hc Hb Hp Hu. cbn zeta.
  unfold Query.query, Query.connection, Query.unprepare, Query.call,
    and_then, or_catch, settle, resolve, throw, Spec.sent.
  rewrite Hb, Hp.
  assert (Hconn : in_transaction = false -> Query.on_connect d = None).
  { intros ->. now destruct Hc. }
  destruct in_transaction; [|rewrite (Hconn eq_refl)]; cbn;
    destruct (Query.on_execute d) as [recordset|e]; cbn; rewrite Hu; cbn;
    try destruct (Query.on_unprepare d 1) as [e2|]; cbn;
    split; intros ? [=]; subst; reflexivity.
Qed.

Lemma release_failure_reaches_the_caller_witness :
  bind "SELECT $1" (ParamsArray [Some (JNumber (of_Z 1))]) = Ok Samples.select_one
  /\ Query.query Cases.failing_release false "SELECT $1"
       (Some (ParamsArray [Some (JNumber (of_Z 1))])) []
     = (Err (Failure "release failed"),
        Spec.sent false Samples.select_one ++ [Query.Unprepare; Query.Unprepare]).
Proof.
  assert (H : bind "SELECT $1" (ParamsArray [Some (JNumber (of_Z 1))])
              = Ok Samples.select_one) by (vm_compute; reflexivity).
  split; [exact H|].
  exact (proj2 (release_failure_reaches_the_caller Cases.failing_release false
                  "SELECT $1" (ParamsArray [Some (JNumber (of_Z 1))])
                  Samples.select_one (Failure "release failed")
                  (or_intror eq_refl) H eq_refl eq_refl)
           (Some [Samples.duplicate_name]) eq_refl).
Defined.

(** X10.  The rows [query], [execute] and [batch] resolve to are
    folded rows: folding one of them again changes nothing, so no row
    handed to the caller still holds an array of equal values. *)
Theorem resolved_rows_are_folded (d : Query.driver) (db : Batch.driver)
    (in_transaction : bool) (statement : string) (ps : option params)
    (s : Query.state) (sb : list Batch.command) (rows : list (gmap string Rows.column)) :
  fst (Query.query d in_transaction statement ps s) = Ok rows
  \/ fst (Query.execute d in_transaction statement ps s) = Ok rows
  \/ fst (Batch.batch db in_transaction statement sb) = Ok rows ->
  Forall (fun row => Rows.fold row = row) rows.
Proof.
  assert (Hq : fst (Query.query d in_transaction statement ps s) = Ok rows ->
               Forall (fun row => Rows.fold row = row) rows).
  { unfold Query.query, Query.connection, Query.unprepare, Query.call,
      and_then, or_catch, settle, resolve, throw.
    destruct ps as [p|].
    - destruct in_transaction; [|destruct (Query.answer (Query.on_connect d))];
        cbn; try discriminate;
        (destruct (bind statement p) as [b|]; cbn; [|discriminate]);
        (destruct (Query.answer (Query.on_prepare d)); cbn; [|discriminate]);
        (destruct (Query.on_execute d) as [recordset|]; cbn);
        repeat match goal with
          | |- context [Query.answer ?x] => destruct (Query.answer x); cbn
          end;
        try discriminate; intros [= <-]; apply normalize_folded.
    - destruct in_transaction; [|destruct (Query.answer (Query.on_connect d))];
        cbn; try discriminate;
        (destruct (Query.on_query d) as [recordset|]; cbn; [|discriminate]);
        intros [= <-]; apply normalize_folded. }
  intros [H|[H|H]]; [now apply Hq|now apply Hq|].
  revert H. unfold Batch.batch, Batch.call, and_then, resolve.
  destruct in_transaction; [|destruct (Batch.on_connect db)];
    cbn; try discriminate;
    (destruct (Batch.on_batch db) as [recordset|]; cbn; [|discriminate]);
    intros [= <-]; apply normalize_folded.
Qed.

Lemma resolved_rows_are_folded_witness :
  fst (Batch.batch Cases.one_row_batch false "SELECT name, name FROM ducks" [])
  = Ok [{[ "name" := Rows.Single (Rows.CString "Duck") ]}]
  /\ Forall (fun row => Rows.fold row = row)
       [{[ "name" := Rows.Single (Rows.CString "Duck") ]}].
Proof.
  assert (H : fst (Batch.batch Cases.one_row_batch false
                     "SELECT name, name FROM ducks" [])
              = Ok [{[ "name" := Rows.Single (Rows.CString "Duck") ]}]).
  { cbn. unfold Rows.fold, Samples.duplicate_name.
    now rewrite map_fmap_singleton. }
  split; [exact H|].
  exact (resolved_rows_are_folded Cases.one_row_query Cases.one_row_batch false
           "SELECT name, name FROM ducks" None [] [] _ (or_intror (or_intror H))).
Defined.

(** X11.  [batch] differs from a [query] without parameters in the
    request it makes and in nothing else: answered alike, both settle
    alike, after as many calls, and neither prepares anything. *)
Theorem batch_is_a_plain_request (db : Batch.driver) (dq : Query.driver)
    (in_transaction : bool) (script : string) :
  Batch.on_connect db = Query.on_connect dq ->
  Batch.on_batch db = Query.on_query dq ->
  fst (Batch.batch db in_transaction script [])
  = fst (Query.query dq in_transaction script None [])
  /\ length (snd (Batch.batch db in_transaction script []))
     = length (snd (Query.query dq in_transaction script None []))
  /\ (forall c, In c (snd (Batch.batch db in_transaction script [])) ->
        c = Batch.Connect \/ c = Batch.RequestBatch script)
  /\ (forall c, In c (snd (Query.query dq in_transaction script None [])) ->
        c = Query.Connect \/ c = Query.RequestQuery script).
Proof.
  intros Hc Hb.
  unfold Batch.batch, Batch.call, Query.query, Query.connection, Query.call,
    Query.answer, and_then, resolve.
  rewrite Hc, Hb.
  destruct in_transaction, (Query.on_connect dq), (Query.on_query dq); cbn;
    (split; [reflexivity|split; [reflexivity|split]]);
    intros c H; repeat (destruct H as [<-|H]; auto); contradiction.
Qed.

Lemma batch_is_a_plain_request_witness :
  fst (Batch.batch Cases.one_row_batch false "SELECT name, name FROM ducks" [])
  = fst (Query.query Cases.one_row_query false "SELECT name, name FROM ducks" None [])
  /\ snd (Batch.batch Cases.one_row_batch false "SELECT name, name FROM ducks" [])
     = [Batch.Connect; Batch.RequestBatch "SELECT name, name FROM ducks"].
Proof.
  split; [|reflexivity].
  exact (proj1 (batch_is_a_plain_request Cases.one_row_batch Cases.one_row_query
                  false "SELECT name, name FROM ducks" eq_refl eq_refl)).
Defined.

(** ** Scoped transactions: the other outcomes *)

(** X12.  A scoped transaction resolves, to the value of the work,
    exactly when the connection, the begin, the work and the commit
    all succeed; it then issued the begin and the commit and nothing
    else, even if the driver signalled a rollback meanwhile. *)
Theorem transaction_resolves_when_all_succeed {R} (d : Scoped.driver)
    (isolationLevel : string) (fn : Scoped.work R) (res : R) :
  let out := Scoped.transaction d isolationLevel fn Scoped.initial in
  (fst out = Ok res
   <-> Scoped.on_connect d = None
       /\ failure (Scoped.on_begin d) = None
       /\ Scoped.settles fn = Ok res
       /\ failure (Scoped.on_commit d) = None)
  /\ (fst out = Ok res ->
      Scoped.issued (snd out) = [Begin isolationLevel; Commit]).
Proof.
  destruct d as [c [fb eb] [fc ec] [fr er]], fn as [w ab].
  cbn [Scoped.on_connect Scoped.on_begin Scoped.on_commit Scoped.on_rollback
       Scoped.settles Scoped.aborts failure emits_rollback].
  destruct c as [ec'|], fb as [eb'|], w as [r|ew], fc as [ec''|], eb, ab, ec, fr as [er'|], er; cbn;
    (split; [split; [intros [= ->]; auto|intros (H1 & H2 & H3 & H4)]|intros H];
     congruence).
Qed.

Lemma transaction_resolves_when_all_succeed_witness :
  fst (Scoped.transaction Samples.healthy "SERIALIZABLE" Cases.working Scoped.initial)
  = Ok 7
  /\ Scoped.issued
       (snd (Scoped.transaction Samples.healthy "SERIALIZABLE" Cases.working
               Scoped.initial))
     = [Begin "SERIALIZABLE"; Commit].
Proof.
  assert (H : fst (Scoped.transaction Samples.healthy "SERIALIZABLE" Cases.working
                     Scoped.initial) = Ok 7) by reflexivity.
  split; [exact H|].
  exact (proj2 (transaction_resolves_when_all_succeed Samples.healthy "SERIALIZABLE"
                  Cases.working 7) H).
Defined.

(** X13.  Whatever the driver and the work do, a scoped transaction
    issues one of five sequences of commands: nothing, the begin
    alone, the begin and a rollback, the begin and the commit, or the
    begin, the commit and a rollback.  So it never rolls back twice,
    never commits after a rollback, and never commits twice. *)
Theorem transaction_command_sequences {R} (d : Scoped.driver)
    (isolationLevel : string) (fn : Scoped.work R) :
  let issued :=
    Scoped.issued (snd (Scoped.transaction d isolationLevel fn Scoped.initial)) in
  issued = []
  \/ issued = [Begin isolationLevel]
  \/ issued = [Begin isolationLevel; Rollback]
  \/ issued = [Begin isolationLevel; Commit]
  \/ issued = [Begin isolationLevel; Commit; Rollback].
Proof.
  destruct d as [c [fb eb] [fc ec] [fr er]], fn as [w ab].
  destruct c as [ec'|], fb as [eb'|], w as [r|ew], fc as [ec''|], eb, ab, ec, fr as [er'|], er; cbn; tauto.
Qed.

(** X14.  Before the work: when the connection fails nothing is asked
    of the transaction; when the begin fails the work is not run, and
    the layer still rolls back the transaction that never began,
    unless the driver's rollback event fired, the caller receiving
    the rollback's failure if it has one and the begin's otherwise. *)
Theorem transaction_fails_before_the_work {R} (d : Scoped.driver)
    (isolationLevel : string) (fn : Scoped.work R) (e : error) :
  (Scoped.on_connect d = Some e ->
     Scoped.transaction d isolationLevel fn Scoped.initial = (Err e, Scoped.initial))
  /\ (Scoped.on_connect d = None -> failure (Scoped.on_begin d) = Some e ->
      let out := Scoped.transaction d isolationLevel fn Scoped.initial in
      if emits_rollback (Scoped.on_begin d)
      then fst out = Err e /\ Scoped.issued (snd out) = [Begin isolationLevel]
      else fst out = Err (match failure (Scoped.on_rollback d) with
                          | None => e
                          | Some e' => e'
                          end)
           /\ Scoped.issued (snd out) = [Begin isolationLevel; Rollback]).
Proof.
  destruct d as [c [fb eb] [fc ec] [fr er]], fn as [w ab].
  cbn [Scoped.on_connect Scoped.on_begin Scoped.on_commit Scoped.on_rollback
       Scoped.settles Scoped.aborts failure emits_rollback].
  split.
  - now intros ->.
  - intros -> ->. destruct eb, fr, er; cbn; split; reflexivity.
Qed.

Lemma transaction_fails_before_the_work_witness :
  fst (Scoped.transaction Cases.failing_begin "READ_COMMITTED" Cases.working
         Scoped.initial)
  = Err (Failure "begin failed")
  /\ Scoped.issued
       (snd (Scoped.transaction Cases.failing_begin "READ_COMMITTED" Cases.working
               Scoped.initial))
     = [Begin "READ_COMMITTED"; Rollback].
Proof.
  exact (proj2 (transaction_fails_before_the_work Cases.failing_begin
                  "READ_COMMITTED" Cases.working (Failure "begin failed"))
           eq_refl eq_refl).
Defined.

(** ** Step by step: [commit], and one transaction beside another *)

Section StepByStepMore.

Import StepByStep.

Lemma flag_emit_other (t t' : nat) (s : state) :
  t <> t' -> flag t' (emit t s) = flag t' s.
Proof.
  intros Hne. unfold emit. case_bool_decide; [|reflexivity].
  unfold flag. cbn. now rewrite lookup_insert_ne.
Qed.

Lemma flag_emit_listening (t : nat) (s : state) :
  t ∈ listening s -> flag t (emit t s) = true.
Proof.
  intros Ht. unfold emit. rewrite bool_decide_eq_true_2 by exact Ht.
  unfold flag. cbn. now rewrite lookup_insert_eq.
Qed.

Lemma flag_emit_set (t : nat) (s : state) :
  flag t s = true -> flag t (emit t s) = true.
Proof.
  intros Hf. unfold emit. case_bool_decide; [|exact Hf].
  unfold flag. cbn. now rewrite lookup_insert_eq.
Qed.

Lemma issued_emit (t : nat) (s : state) : issued (emit t s) = issued s.
Proof. unfold emit. now case_bool_decide. Qed.

Lemma flag_call_other (t t' : nat) (c : tx_command) (r : response) (s : state) :
  t <> t' -> flag t' (snd (call t c r s)) = flag t' s.
Proof.
  intros Hne. unfold call. cbn [snd].
  destruct (emits_rollback r); [|reflexivity].
  now rewrite flag_emit_other.
Qed.

Lemma issued_call (t : nat) (c : tx_command) (r : response) (s : state) :
  issued (snd (call t c r s)) = issued s ++ [(t, c)].
Proof.
  unfold call. cbn [snd]. destruct (emits_rollback r); [|reflexivity].
  now rewrite issued_emit.
Qed.

End StepByStepMore.

(** X15.  [commit] issues the commit; when the commit fails it issues
    one rollback, unless the flag of the transaction is set by then,
    whether it was set before or by an event the failing commit
    raised.  The caller receives the commit's failure, or the
    rollback's when the rollback fails as well. *)
Theorem commit_failure_rolls_back (t : nat) (on_commit on_rollback : response)
    (s : StepByStep.state) (e : error) :
  failure on_commit = Some e ->
  let after_commit := snd (StepByStep.call t Commit on_commit s) in
  let out := StepByStep.commit t on_commit on_rollback s in
  (StepByStep.flag t after_commit = true ->
     out = (Err e, after_commit)
     /\ StepByStep.issued (snd out) = StepByStep.issued s ++ [(t, Commit)])
  /\ (StepByStep.flag t after_commit = false ->
      fst out = Err (match failure on_rollback with
                     | None => e
                     | Some e' => e'
                     end)
      /\ StepByStep.issued (snd out)
         = StepByStep.issued s ++ [(t, Commit); (t, Rollback)])
  /\ (StepByStep.flag t after_commit
      = StepByStep.flag t s
        || (emits_rollback on_commit && bool_decide (t ∈ StepByStep.listening s))).
Proof.
  intros He. cbn zeta.
  unfold StepByStep.commit, or_catch, and_then, read, throw.
  destruct (StepByStep.call t Commit on_commit s) as [r s1] eqn:Hcall.
  assert (Hr : r = Err e).
  { apply (f_equal fst) in Hcall. cbn in Hcall. unfold outcome in Hcall.
    now rewrite He in Hcall. }
  assert (Hs1 : StepByStep.issued s1 = StepByStep.issued s ++ [(t, Commit)]).
  { rewrite <- (issued_call t Commit on_commit s). now rewrite Hcall. }
  subst r. cbn [snd]. split; [|split].
  - intros Hf. rewrite Hf. cbn. auto.
  - intros Hf. rewrite Hf. cbn [negb].
    destruct (StepByStep.call t Rollback on_rollback s1) as [r2 s2] eqn:Hcall2.
    assert (Hr2 : r2 = outcome on_rollback)
      by (apply (f_equal fst) in Hcall2; now cbn in Hcall2).
    assert (Hs2 : StepByStep.issued s2 = StepByStep.issued s1 ++ [(t, Rollback)]).
    { rewrite <- (issued_call t Rollback on_rollback s1). now rewrite Hcall2. }
    subst r2. unfold outcome.
    destruct (failure on_rollback); cbn; rewrite Hs2, Hs1, <- app_assoc; auto.
  - apply (f_equal snd) in Hcall. cbn [snd] in Hcall. subst s1.
    unfold StepByStep.call. cbn [snd].
    destruct (emits_rollback on_commit); cbn [andb]; [|now rewrite orb_false_r].
    unfold StepByStep.emit. cbn.
    case_bool_decide as Hl; cbn.
    + unfold StepByStep.flag. cbn. rewrite lookup_insert_eq. now rewrite orb_true_r.
    + now rewrite orb_false_r.
Qed.

Lemma commit_failure_rolls_back_witness :
  StepByStep.flag 0
    (snd (StepByStep.call 0 Commit Cases.refuses
            (StepByStep.run Cases.two_begun StepByStep.initial))) = false
  /\ fst (StepByStep.commit 0 Cases.refuses succeeds
            (StepByStep.run Cases.two_begun StepByStep.initial))
     = Err (Failure "commit failed")
  /\ StepByStep.issued
       (snd (StepByStep.commit 0 Cases.refuses succeeds
               (StepByStep.run Cases.two_begun StepByStep.initial)))
     = StepByStep.issued (StepByStep.run Cases.two_begun StepByStep.initial)
       ++ [(0, Commit); (0, Rollback)].
Proof.
  assert (H : StepByStep.flag 0
                (snd (StepByStep.call 0 Commit Cases.refuses
                        (StepByStep.run Cases.two_begun StepByStep.initial)))
              = false) by (vm_compute; reflexivity).
  split; [exact H|].
  exact (proj1 (proj2 (commit_failure_rolls_back 0 Cases.refuses succeeds
                         (StepByStep.run Cases.two_begun StepByStep.initial)
                         (Failure "commit failed") eq_refl)) H).
Defined.

(** X16.  The flags are kept per transaction: a commit, a rollback or
    a rollback event of one transaction never changes the flag of
    another, and beginning a transaction changes no flag but that of
    the transaction it creates. *)
Theorem flags_are_per_transaction (s : StepByStep.state) (t t' : nat) :
  t <> t' ->
  (forall on_commit on_rollback,
     StepByStep.flag t' (StepByStep.step s (StepByStep.DoCommit t on_commit on_rollback))
     = StepByStep.flag t' s)
  /\ (forall on_rollback,
      StepByStep.flag t' (StepByStep.step s (StepByStep.DoRollback t on_rollback))
      = StepByStep.flag t' s)
  /\ StepByStep.flag t' (StepByStep.step s (StepByStep.DriverRollback t))
     = StepByStep.flag t' s
  /\ (forall connect isolationLevel on_begin,
      t = StepByStep.created s ->
      StepByStep.flag t'
        (StepByStep.step s (StepByStep.DoBegin connect isolationLevel on_begin))
      = StepByStep.flag t' s).
Proof.
  intros Hne. split; [|split; [|split]].
  - intros rc rr. cbn [StepByStep.step].
    unfold StepByStep.commit, or_catch, and_then, read, throw.
    pose proof (flag_call_other t t' Commit rc s Hne) as H1.
    destruct (StepByStep.call t Commit rc s) as [[[]|e] s1]; cbn [snd] in *;
      [exact H1|].
    destruct (negb (StepByStep.flag t s1)); cbn [snd]; [|exact H1].
    pose proof (flag_call_other t t' Rollback rr s1 Hne) as H2.
    destruct (StepByStep.call t Rollback rr s1) as [[[]|e2] s2]; cbn [snd] in *;
      congruence.
  - intros rr. cbn [StepByStep.step].
    unfold StepByStep.rollback, and_then, read, resolve.
    destruct (StepByStep.flag t s); cbn [snd]; [reflexivity|].
    now apply flag_call_other.
  - now apply flag_emit_other.
  - intros c l rb ->. cbn [StepByStep.step].
    unfold StepByStep.beginTransaction, and_then, resolve, throw,
      StepByStep.new_transaction.
    destruct c as [e|]; cbn [snd]; [reflexivity|].
    match goal with
    | |- context [StepByStep.call ?a ?b ?c ?d] =>
        pose proof (flag_call_other a t' b c d Hne) as H1;
        destruct (StepByStep.call a b c d) as [[[]|e] s1]
    end; cbn [snd] in *; rewrite H1;
      unfold StepByStep.flag; cbn; now rewrite lookup_insert_ne.
Qed.

Lemma flags_are_per_transaction_witness :
  StepByStep.flag 1
    (StepByStep.step (StepByStep.run Cases.two_begun StepByStep.initial)
       (StepByStep.DriverRollback 0))
  = StepByStep.flag 1 (StepByStep.run Cases.two_begun StepByStep.initial)
  /\ StepByStep.flag 0
       (StepByStep.step (StepByStep.run Cases.two_begun StepByStep.initial)
          (StepByStep.DriverRollback 0)) = true.
Proof.
  split; [|vm_compute; reflexivity].
  assert (H : 0 <> 1) by lia.
  exact (proj1 (proj2 (proj2 (flags_are_per_transaction
                                (StepByStep.run Cases.two_begun StepByStep.initial)
                                0 1 H)))).
Defined.

(** X17.  Rolling back twice is safe: once [rollback] has been called
    on a transaction begun by the layer, and the driver raised its
    rollback event as it does when it rolls back, a second [rollback]
    resolves without asking anything of the driver. *)
Theorem second_rollback_is_silent (t : nat) (first second : response)
    (s : StepByStep.state) :
  t ∈ StepByStep.listening s ->
  emits_rollback first = true ->
  let s1 := snd (StepByStep.rollback t first s) in
  StepByStep.rollback t second s1 = (Ok tt, s1)
  /\ length (StepByStep.issued s1) <= S (length (StepByStep.issued s)).
Proof.
  intros Ht Hem. cbn zeta.
  unfold StepByStep.rollback at 2 3 4. unfold and_then, read, resolve.
  destruct (StepByStep.flag t s) eqn:Hf; cbn [snd].
  - unfold StepByStep.rollback, and_then, read, resolve. rewrite Hf.
    split; [reflexivity|lia].
  - unfold StepByStep.call. rewrite Hem. cbn [snd].
    split.
    + unfold StepByStep.rollback, and_then, read, resolve.
      now rewrite flag_emit_listening.
    + rewrite issued_emit. cbn. rewrite length_app. cbn. lia.
Qed.

Lemma second_rollback_is_silent_witness :
  0 ∈ StepByStep.listening (StepByStep.run Cases.two_begun StepByStep.initial)
  /\ StepByStep.rollback 0 succeeds
       (snd (StepByStep.rollback 0 Cases.rolls_back
               (StepByStep.run Cases.two_begun StepByStep.initial)))
     = (Ok tt,
        snd (StepByStep.rollback 0 Cases.rolls_back
               (StepByStep.run Cases.two_begun StepByStep.initial))).
Proof.
  assert (H : 0 ∈ StepByStep.listening
                    (StepByStep.run Cases.two_begun StepByStep.initial))
    by (vm_compute; set_solver).
  split; [exact H|].
  exact (proj1 (second_rollback_is_silent 0 Cases.rolls_back succeeds
                  (StepByStep.run Cases.two_begun StepByStep.initial) H eq_refl)).
Defined.

(** ** The registry: [close], and a [connect] that fails *)

Section RegistryMore.

Import Registry Closing.

Lemma close_each_all (closing : nat -> option error)
    (entries : list (string * entry)) (s : state) :
  (forall ke, In ke entries -> closing (pool (snd ke)) = None) ->
  close_each closing entries s
  = (Ok tt, {| connections := connections s; pools := pools s;
               issued := issued s ++ closes entries |}).
Proof.
  revert s. induction entries as [|[k e] rest IH]; intros s H.
  - cbn. rewrite app_nil_r. now destruct s.
  - cbn [close_each].
    pose proof (H (k, e) (or_introl eq_refl)) as Hk. cbn [snd] in Hk. rewrite Hk.
    rewrite IH by (intros ke Hke; apply H; now right).
    cbn. now rewrite <- app_assoc.
Qed.

Lemma close_each_stops (closing : nat -> option error)
    (before rest : list (string * entry)) (k : string) (e : entry)
    (err : error) (s : state) :
  (forall ke, In ke before -> closing (pool (snd ke)) = None) ->
  closing (pool e) = Some err ->
  close_each closing (before ++ (k, e) :: rest) s
  = (Err err, {| connections := connections s; pools := pools s;
                 issued := issued s ++ closes before ++ [PoolClose (pool e)] |}).
Proof.
  revert s. induction before as [|[k0 e0] before IH]; intros s H He.
  - cbn. now rewrite He.
  - cbn [app close_each].
    pose proof (H (k0, e0) (or_introl eq_refl)) as Hk. cbn [snd] in Hk. rewrite Hk.
    rewrite IH by (try exact He; intros ke Hke; apply H; now right).
    cbn. now rewrite <- app_assoc.
Qed.

Lemma close_each_keeps (closing : nat -> option error)
    (entries : list (string * entry)) (s : state) :
  connections (snd (close_each closing entries s)) = connections s
  /\ pools (snd (close_each closing entries s)) = pools s.
Proof.
  revert s. induction entries as [|[k e] rest IH]; intros s; [now cbn|].
  cbn [close_each]. destruct (closing (pool e)); [now cbn|].
  destruct (IH (log (PoolClose (pool e)) s)) as [H1 H2]. now rewrite H1, H2.
Qed.

End RegistryMore.

(** X18.  [close] forgets every registered pool at once, whatever
    their [close()] answers.  It closes the pools in the order of
    their registration; when all succeed every pool was closed, and
    when one fails the chain ends there: the failure reaches the
    caller and the pools registered after it are never closed. *)
Theorem close_forgets_every_pool (closing : nat -> option error)
    (s : Registry.state) :
  Registry.connections (snd (Registry.close closing s)) = None
  /\ ((forall ke, In ke (Registry.the_map s) ->
         closing (Registry.pool (snd ke)) = None) ->
      Registry.close closing s
      = (Ok tt,
         {| Registry.connections := None;
            Registry.pools := Registry.pools s;
            Registry.issued :=
              Registry.issued s ++ Closing.closes (Registry.the_map s) |}))
  /\ (forall before k e rest err,
      Registry.the_map s = before ++ (k, e) :: rest ->
      (forall ke, In ke before -> closing (Registry.pool (snd ke)) = None) ->
      closing (Registry.pool e) = Some err ->
      Registry.close closing s
      = (Err err,
         {| Registry.connections := None;
            Registry.pools := Registry.pools s;
            Registry.issued :=
              Registry.issued s ++ Closing.closes before
              ++ [Registry.PoolClose (Registry.pool e)] |})).
Proof.
  unfold Registry.close. split; [|split].
  - now rewrite (proj1 (close_each_keeps closing _ _)).
  - intros H. now rewrite close_each_all.
  - intros before k e rest err -> H He. now rewrite (close_each_stops _ _ _ _ _ err).
Qed.

Lemma close_forgets_every_pool_witness :
  Registry.close Cases.stuck (Registry.run Cases.two_pools Registry.initial)
  = (Err (Failure "close failed"),
     {| Registry.connections := None;
        Registry.pools := 2;
        Registry.issued :=
          [Registry.NewPool 0 Samples.local_db; Registry.PoolConnect 0;
           Registry.NewPool 1 Cases.other_db; Registry.PoolConnect 1;
           Registry.PoolClose 0] |}).
Proof.
  exact (proj2 (proj2 (close_forgets_every_pool Cases.stuck
                         (Registry.run Cases.two_pools Registry.initial)))
           [] (Registry.getConnectionKey Samples.local_db)
           {| Registry.used := Samples.local_db; Registry.pool := 0 |}
           [(Registry.getConnectionKey Cases.other_db,
             {| Registry.used := Cases.other_db; Registry.pool := 1 |})]
           (Failure "close failed") eq_refl (fun ke F => match F with end) eq_refl).
Defined.

(** X19.  A [connect] that finds its key registered under another
    password closes the registered pool before it knows whether the
    new one connects.  When the new pool fails to connect, the
    failure reaches the caller and the registry is left as it was: it
    still holds the pool just closed, and a later [connect] with the
    former password resolves to that closed pool. *)
Theorem failed_reconnect_keeps_the_closed_pool (s : Registry.state)
    (c : Registry.config) (existing : Registry.entry) (e : error) :
  Obj.get (Registry.the_map s) (Registry.getConnectionKey c) = Some existing ->
  Registry.same_password (Registry.password c)
    (Registry.password (Registry.used existing)) = false ->
  let out := Registry.connect c (Some e) s in
  fst out = Err e
  /\ Registry.the_map (snd out) = Registry.the_map s
  /\ Registry.live (snd out) (Registry.pool existing) = false
  /\ (forall c' connected,
      Registry.getConnectionKey c' = Registry.getConnectionKey c ->
      Registry.same_password (Registry.password c')
        (Registry.password (Registry.used existing)) = true ->
      Registry.connect c' connected (snd out) = (Ok (Registry.pool existing), snd out)).
Proof.
  intros Hget Hpw. cbn zeta.
  assert (Hout : exists s',
             Registry.connect c (Some e) s = (Err e, s')
             /\ Registry.the_map s' = Registry.the_map s
             /\ Registry.with_map s' = s'
             /\ In (Registry.PoolClose (Registry.pool existing)) (Registry.issued s')).
  { unfold Registry.connect.
    change (Registry.the_map (Registry.with_map s)) with (Registry.the_map s).
    rewrite Hget, Hpw. unfold Registry.open. eexists. split; [reflexivity|].
    split; [reflexivity|]. split; [reflexivity|].
    cbn. rewrite !in_app_iff. cbn. tauto. }
  destruct Hout as (s' & -> & Hmap & Hwith & Hin). cbn [fst snd].
  split; [reflexivity|]. split; [exact Hmap|]. split.
  - unfold Registry.live. apply andb_false_iff. right.
    apply negb_false_iff. apply existsb_exists.
    exists (Registry.PoolClose (Registry.pool existing)). split; [exact Hin|].
    cbn. apply Nat.eqb_refl.
  - intros c' connected Hkey Hsame. unfold Registry.connect.
    rewrite Hwith, Hmap, Hkey, Hget, Hsame. reflexivity.
Qed.

Lemma failed_reconnect_keeps_the_closed_pool_witness :
  fst (Registry.connect Samples.new_password (Some (Failure "Login failed"))
         (Registry.run Samples.connected_once Registry.initial))
  = Err (Failure "Login failed")
  /\ Registry.live
       (snd (Registry.connect Samples.new_password (Some (Failure "Login failed"))
               (Registry.run Samples.connected_once Registry.initial))) 0 = false
  /\ fst (Registry.connect Samples.local_db None
            (snd (Registry.connect Samples.new_password (Some (Failure "Login failed"))
                    (Registry.run Samples.connected_once Registry.initial))))
     = Ok 0.
Proof.
  pose proof (failed_reconnect_keeps_the_closed_pool
                (Registry.run Samples.connected_once Registry.initial)
                Samples.new_password
                {| Registry.used := Samples.local_db; Registry.pool := 0 |}
                (Failure "Login failed") eq_refl eq_refl) as (H1 & _ & H3 & H4).
  split; [exact H1|]. split; [exact H3|].
  now rewrite (H4 Samples.local_db None eq_refl eq_refl).
Defined.

(** X20.  A [connect] changes the registry under its own key only:
    the entry of every other key is what it was, whether the
    connection succeeds, fails, or reuses a pool. *)
Theorem connect_touches_one_key (s : Registry.state) (c : Registry.config)
    (connected : option error) (k : string) :
  k <> Registry.getConnectionKey c ->
  Obj.get (Registry.the_map (snd (Registry.connect c connected s))) k
  = Obj.get (Registry.the_map s) k.
Proof.
  intros Hk. unfold Registry.connect.
  change (Registry.the_map (Registry.with_map s)) with (Registry.the_map s).
  destruct (Obj.get (Registry.the_map s) (Registry.getConnectionKey c)) as [en|];
    [destruct (Registry.same_password _ _); [reflexivity|]|];
    unfold Registry.open; destruct connected; cbn [snd]; try reflexivity;
    cbn [Registry.the_map Registry.connections];
    rewrite get_set_ne by congruence; reflexivity.
Qed.

Lemma connect_touches_one_key_witness :
  Registry.getConnectionKey Samples.local_db
  <> Registry.getConnectionKey Cases.other_db
  /\ Obj.get
       (Registry.the_map
          (snd (Registry.connect Cases.other_db None
                  (Registry.run Samples.connected_once Registry.initial))))
       (Registry.getConnectionKey Samples.local_db)
     = Some {| Registry.used := Samples.local_db; Registry.pool := 0 |}.
Proof.
  assert (H : Registry.getConnectionKey Samples.local_db
              <> Registry.getConnectionKey Cases.other_db)
    by (vm_compute; discriminate).
  split; [exact H|].
  now rewrite (connect_touches_one_key
                 (Registry.run Samples.connected_once Registry.initial)
                 Cases.other_db None _ H).
Defined.

(** X21.  After [close] nothing is reused: the next [connect] finds no
    entry, whatever was connected before, creates a pool that never
    existed, connects it and registers it as the only entry. *)
Theorem connect_after_close_opens_a_pool (closing : nat -> option error)
    (s : Registry.state) (c : Registry.config) :
  let closed := snd (Registry.close closing s) in
  let out := Registry.connect c None closed in
  fst out = Ok (Registry.pools s)
  /\ Registry.the_map (snd out)
     = [(Registry.getConnectionKey c,
         {| Registry.used := c; Registry.pool := Registry.pools s |})]
  /\ Registry.issued (snd out)
     = Registry.issued closed
       ++ [Registry.NewPool (Registry.pools s) c;
           Registry.PoolConnect (Registry.pools s)].
Proof.
  cbn zeta. unfold Registry.close.
  destruct (close_each_keeps closing (Registry.the_map s)
              {| Registry.connections := None;
                 Registry.pools := Registry.pools s;
                 Registry.issued := Registry.issued s |}) as [Hc Hp].
  destruct (snd (Registry.close_each _ _ _)) as [conn n cmds].
  cbn in Hc, Hp. subst conn n.
  unfold Registry.connect, Registry.open. cbn.
  now rewrite <- app_assoc.
Qed.

(** ** The configuration handed to the driver *)

Section Configuration.

Import Layer Defaults.

Lemma get_absent {A} (o : list (string * A)) (k : string) :
  ~ In k (Obj.keys o) -> Obj.get o k = None.
Proof.
  intros H. destruct (Obj.get o k) eqn:E; [|reflexivity].
  now apply get_In_keys in E.
Qed.

Lemma spread_get (o more : list (string * jsval)) (k : string) :
  List.NoDup (Obj.keys more) -> Obj.get (spread o more) k = over more o k.
Proof.
  unfold spread, over. revert o.
  induction more as [|[k0 v0] more IH]; intros o Hnd; [reflexivity|].
  apply List.NoDup_cons_iff in Hnd. destruct Hnd as [Hk0 Hnd].
  cbn [fold_left fst snd Obj.get]. rewrite IH by exact Hnd.
  destruct (String.eqb_spec k0 k) as [->|Hne].
  - now rewrite (get_absent more k Hk0), get_set_eq.
  - now rewrite get_set_ne by exact Hne.
Qed.

Lemma get_remove_eq (o : list (string * jsval)) (k : string) :
  Obj.get (remove o k) k = None.
Proof.
  induction o as [|[k' v] o IH]; [reflexivity|]. cbn.
  destruct (String.eqb k' k) eqn:E; [exact IH|]. cbn. now rewrite E.
Qed.

Lemma get_remove_ne (o : list (string * jsval)) (k k' : string) :
  k <> k' -> Obj.get (remove o k) k' = Obj.get o k'.
Proof.
  intros Hne. induction o as [|[k0 v] o IH]; [reflexivity|]. cbn.
  destruct (String.eqb_spec k0 k) as [->|Hk].
  - rewrite IH. destruct (String.eqb_spec k k'); [contradiction|reflexivity].
  - cbn. now rewrite IH.
Qed.

End Configuration.

(** X22.  Except for [pool] and [options], every own property of the
    constructor's configuration reaches the driver as it is, the
    defaults [port: 1433], [server: host || 'localhost'] and
    [requestTimeout: 6000] serving only for the properties the
    configuration does not have; so a [port] that is present but
    [undefined] is passed as [undefined].  The [options] are those of
    the configuration over [encrypt: false] and
    [enableArithAbort: false]. *)
Theorem configuration_overrides_defaults (config : list (string * jsval)) :
  List.NoDup (Obj.keys config) ->
  (forall k, k <> "pool" -> k <> "options" ->
     Obj.get (Layer.toMssqlConfig config) k
     = Defaults.over config (Defaults.top config) k)
  /\ (truthy (prop (JObject config) "options") = false ->
      Obj.get (Layer.toMssqlConfig config) "options"
      = Some (JObject Defaults.options))
  /\ (forall o, Obj.get config "options" = Some (JObject o) ->
      List.NoDup (Obj.keys o) ->
      exists options,
        Obj.get (Layer.toMssqlConfig config) "options" = Some (JObject options)
        /\ forall k, Obj.get options k = Defaults.over o Defaults.options k).
Proof.
  intros Hnd. unfold Layer.toMssqlConfig.
  change (Layer.own (Layer.or_ (JObject config) (JObject []))) with config.
  split; [|split].
  - intros k Hp Ho.
    destruct (truthy (prop (JObject config) "pool"));
      rewrite ?get_set_ne by congruence;
      now apply spread_get.
  - intros Hopt.
    destruct (truthy (prop (JObject config) "pool"));
      rewrite ?(get_set_ne _ "pool" "options") by discriminate;
      rewrite get_set_eq; unfold Layer.or_; rewrite Hopt; reflexivity.
  - intros o Ho Hndo.
    assert (Hprop : prop (JObject config) "options" = JObject o)
      by (cbn; now rewrite Ho).
    eexists. split.
    + destruct (truthy (prop (JObject config) "pool"));
        rewrite ?(get_set_ne _ "pool" "options") by discriminate;
        rewrite get_set_eq; rewrite Hprop; reflexivity.
    + intros k. cbn [Layer.or_ truthy Layer.own]. now apply spread_get.
Qed.

Lemma configuration_overrides_defaults_witness :
  Obj.get (Layer.toMssqlConfig Cases.pooled) "port" = Some JUndefined
  /\ Obj.get (Layer.toMssqlConfig Cases.pooled) "server" = Some (JString "db.local")
  /\ Obj.get (Layer.toMssqlConfig Cases.pooled) "requestTimeout"
     = Some (JNumber (of_Z 6000))
  /\ Obj.get (Layer.toMssqlConfig Cases.pooled) "host" = Some (JString "db.local").
Proof.
  assert (Hnd : List.NoDup (Obj.keys Cases.pooled)).
  { cbn. repeat (constructor; [cbn; intuition discriminate|]). constructor. }
  pose proof (proj1 (configuration_overrides_defaults Cases.pooled Hnd)) as H.
  split; [|split; [|split]];
    (rewrite H; [reflexivity|discriminate|discriminate]).
Defined.

(** X23.  The pool settings of the driver are those of the
    configuration over [min: 0]; a truthy [idleTimeout] is handed
    over as [idleTimeoutMillis], replacing one the configuration may
    give, and is itself removed, while a falsy [idleTimeout] stays
    under its own name.  Without a truthy [pool] the driver gets
    [min: 0] alone. *)
Theorem pool_idle_timeout_is_renamed (config p : list (string * jsval)) :
  Obj.get config "pool" = Some (JObject p) ->
  List.NoDup (Obj.keys p) ->
  exists pool,
    Obj.get (Layer.toMssqlConfig config) "pool" = Some (JObject pool)
    /\ (forall k, k <> "idleTimeout" -> k <> "idleTimeoutMillis" ->
          Obj.get pool k = Defaults.over p Defaults.pool k)
    /\ (if truthy (prop (JObject p) "idleTimeout")
        then Obj.get pool "idleTimeoutMillis" = Obj.get p "idleTimeout"
             /\ Obj.get pool "idleTimeout" = None
        else Obj.get pool "idleTimeoutMillis" = Obj.get p "idleTimeoutMillis"
             /\ Obj.get pool "idleTimeout" = Obj.get p "idleTimeout").
Proof.
  intros Hp Hnd. unfold Layer.toMssqlConfig.
  assert (Hprop : prop (JObject config) "pool" = JObject p)
    by (cbn; now rewrite Hp).
  rewrite Hprop. cbn [truthy Layer.own].
  assert (Hidle : prop (JObject (Layer.spread [("min", JNumber (of_Z 0))] p))
                    "idleTimeout"
                  = prop (JObject p) "idleTimeout").
  { cbn [prop]. rewrite spread_get by exact Hnd. unfold Defaults.over.
    now destruct (Obj.get p "idleTimeout"). }
  rewrite Hidle. eexists. split; [apply get_set_eq|].
  destruct (truthy (prop (JObject p) "idleTimeout")) eqn:Ht.
  - split; [|split].
    + intros k H1 H2. rewrite get_remove_ne, get_set_ne by congruence.
      now apply spread_get.
    + rewrite get_remove_ne, get_set_eq by discriminate.
      cbn [prop] in *. destruct (Obj.get p "idleTimeout"); [reflexivity|discriminate].
    + apply get_remove_eq.
  - split; [|split].
    + intros k H1 H2. now apply spread_get.
    + rewrite spread_get by exact Hnd. unfold Defaults.over.
      now destruct (Obj.get p "idleTimeoutMillis").
    + rewrite spread_get by exact Hnd. unfold Defaults.over.
      now destruct (Obj.get p "idleTimeout").
Qed.

Lemma pool_idle_timeout_is_renamed_witness :
  Obj.get (Layer.toMssqlConfig Cases.pooled) "pool"
  = Some (JObject [("min", JNumber (of_Z 0)); ("max", JNumber (of_Z 25));
                   ("idleTimeoutMillis", JNumber (of_Z 30000))])
  /\ exists pool,
       Obj.get (Layer.toMssqlConfig Cases.pooled) "pool" = Some (JObject pool)
       /\ Obj.get pool "idleTimeoutMillis" = Some (JNumber (of_Z 30000))
       /\ Obj.get pool "idleTimeout" = None.
Proof.
  split; [vm_compute; reflexivity|].
  assert (Hnd : List.NoDup (Obj.keys [("max", JNumber (of_Z 25));
                                      ("idleTimeout", JNumber (of_Z 30000));
                                      ("idleTimeoutMillis", JNumber (of_Z 10))])).
  { cbn. repeat (constructor; [cbn; intuition discriminate|]). constructor. }
  destruct (pool_idle_timeout_is_renamed Cases.pooled _ eq_refl Hnd)
    as (pool & H1 & _ & H3).
  exists pool. split; [exact H1|]. exact H3.
Defined.

(** ** The configuration of the earlier [connect(config)] *)

Section EarlierConfiguration.

Import Layer.

Lemma or_truthy (a b : jsval) : truthy b = true -> truthy (or_ a b) = true.
Proof. intros H. unfold or_. now destruct (truthy a) eqn:E. Qed.

Lemma or_absorbs (a b : jsval) : or_ a (or_ a b) = or_ a b.
Proof. unfold or_. now destruct (truthy a). Qed.

Lemma or_keeps_truthy (a b : jsval) : truthy a = true -> or_ a b = a.
Proof. intros H. unfold or_. now rewrite H. Qed.

Lemma or_skips_falsy (a b : jsval) : truthy a = false -> or_ a b = b.
Proof. intros H. unfold or_. now rewrite H. Qed.

Lemma and_truthy (a b : jsval) : truthy a = true -> and_ a b = b.
Proof. intros H. unfold and_. now rewrite H. Qed.

Lemma or_default_absorbs (p y n : jsval) :
  truthy n = true ->
  or_ (or_ p (or_ (or_ p y) n)) n = or_ (or_ p y) n.
Proof.
  intros Hn. destruct (truthy p) eqn:Hp.
  - now rewrite !(or_keeps_truthy p) by exact Hp.
  - rewrite !(or_skips_falsy p) by exact Hp.
    apply or_keeps_truthy. now apply or_truthy.
Qed.

End EarlierConfiguration.

(** X24.  In the version whose [connect] takes an override, the
    configuration [toMssqlConfig] builds always has a truthy [port]
    and [server] and [pool.min] 0; a [connect] without override uses
    the configuration of the constructor unchanged; and overriding a
    configuration twice with the same override is overriding it
    once. *)
Theorem earlier_configuration_is_stable (config defaultConfig : jsval) :
  let built := Earlier.toMssqlConfig config defaultConfig in
  truthy (prop built "port") = true
  /\ truthy (prop built "server") = true
  /\ prop (prop built "pool") "min" = JNumber (of_Z 0)
  /\ Earlier.toMssqlConfig JUndefined built = built
  /\ Earlier.toMssqlConfig config built = built.
Proof.
  cbn zeta. split; [|split; [|split; [|split]]].
  - cbn. now apply or_truthy.
  - cbn. now apply or_truthy.
  - reflexivity.
  - unfold Earlier.toMssqlConfig at 1.
    set (built := Earlier.toMssqlConfig config defaultConfig).
    assert (Hport : truthy (prop built "port") = true) by (cbn; now apply or_truthy).
    assert (Hserver : truthy (prop built "server") = true)
      by (cbn; now apply or_truthy).
    change (Layer.or_ JUndefined (JObject [])) with (JObject []).
    change (prop (JObject []) "user") with JUndefined.
    change (prop (JObject []) "database") with JUndefined.
    change (prop (JObject []) "password") with JUndefined.
    change (prop (JObject []) "port") with JUndefined.
    change (prop (JObject []) "host") with JUndefined.
    change (prop (JObject []) "pool") with JUndefined.
    change (prop JUndefined "max") with JUndefined.
    change (prop JUndefined "idleTimeout") with JUndefined.
    change (Layer.and_ JUndefined JUndefined) with JUndefined.
    rewrite !(and_truthy built) by reflexivity.
    rewrite !(and_truthy (prop built "pool")) by reflexivity.
    rewrite !(or_skips_falsy JUndefined) by reflexivity.
    rewrite (or_keeps_truthy _ _ Hport), (or_keeps_truthy _ _ Hserver).
    reflexivity.
  - unfold Earlier.toMssqlConfig at 1.
    set (built := Earlier.toMssqlConfig config defaultConfig).
    rewrite !(and_truthy built) by reflexivity.
    rewrite !(and_truthy (prop built "pool")) by reflexivity.
    subst built. unfold Earlier.toMssqlConfig.
    set (c := Layer.or_ config (JObject [])).
    generalize (prop c "user") (prop c "database") (prop c "password")
      (prop c "port") (prop c "host")
      (Layer.and_ (prop c "pool") (prop (prop c "pool") "max"))
      (Layer.and_ (prop c "pool") (prop (prop c "pool") "idleTimeout")).
    generalize (Layer.and_ defaultConfig (prop defaultConfig "user"))
      (Layer.and_ defaultConfig (prop defaultConfig "database"))
      (Layer.and_ defaultConfig (prop defaultConfig "password"))
      (Layer.and_ defaultConfig (prop defaultConfig "port"))
      (Layer.and_ defaultConfig (prop defaultConfig "server"))
      (Layer.and_ (Layer.and_ defaultConfig (prop defaultConfig "pool"))
         (prop (prop defaultConfig "pool") "max"))
      (Layer.and_ (Layer.and_ defaultConfig (prop defaultConfig "pool"))
         (prop (prop defaultConfig "pool") "idleTimeoutMillis")).
    intros. cbn [prop Obj.get String.eqb Ascii.eqb Bool.eqb].
    rewrite !or_absorbs, !or_default_absorbs by reflexivity.
    reflexivity.
Qed.

(** X25.  The isolation level a transaction begins with is never
    falsy: it is the one of the options when that is truthy, else the
    one the constructor kept, which is the configuration's when that
    is truthy and ['READ_COMMITTED'] otherwise. *)
Theorem isolation_level_is_never_falsy (config options : jsval) :
  let level := Layer.isolationLevel options (Layer.ISOLATION_LEVEL config) in
  truthy level = true
  /\ (truthy (prop options "ISOLATION_LEVEL") = false ->
      truthy (prop config "ISOLATION_LEVEL") = false ->
      level = JString "READ_COMMITTED")
  /\ (truthy (prop options "ISOLATION_LEVEL") = true ->
      level = prop options "ISOLATION_LEVEL").
Proof.
  cbn zeta. unfold Layer.isolationLevel, Layer.ISOLATION_LEVEL.
  assert (Hopt : prop (Layer.or_ options (JObject [])) "ISOLATION_LEVEL"
                 = prop options "ISOLATION_LEVEL").
  { unfold Layer.or_. destruct (truthy options) eqn:E; [reflexivity|].
    now destruct options. }
  rewrite Hopt. split; [|split].
  - apply or_truthy, or_truthy. reflexivity.
  - intros H1 H2. unfold Layer.or_ at 1. rewrite H1.
    unfold Layer.or_, Layer.and_.
    destruct (truthy config) eqn:E; [now rewrite H2|now rewrite E].
  - intros H1. unfold Layer.or_ at 1. now rewrite H1.
Qed.

Lemma isolation_level_is_never_falsy_witness :
  Layer.isolationLevel JUndefined
    (Layer.ISOLATION_LEVEL (JObject [("ISOLATION_LEVEL", JString EmptyString)]))
  = JString "READ_COMMITTED".
Proof.
  exact (proj1 (proj2 (isolation_level_is_never_falsy
                         (JObject [("ISOLATION_LEVEL", JString EmptyString)])
                         JUndefined)) eq_refl eq_refl).
Defined.

(** X26.  [wrap] puts the identifier between [[] and []] and changes
    nothing in it, a []] inside is not escaped; two identifiers are
    wrapped alike only if they are the same. *)
Theorem wrap_adds_the_brackets (identifier other : string) :
  Layer.wrap identifier = String "[" (identifier ++ "]")
  /\ String.length (Layer.wrap identifier) = (String.length identifier + 2)%nat
  /\ (Layer.wrap identifier = Layer.wrap other -> identifier = other).
Proof.
  assert (Hw : forall s, Layer.wrap s = String "[" (s ++ "]")) by reflexivity.
  assert (Hinj : forall a b : string, (a ++ "]" = b ++ "]")%string -> a = b).
  { induction a as [|x a IH]; intros [|y b] H; cbn in H.
    - reflexivity.
    - injection H as <- H. now destruct b.
    - injection H as <- H. now destruct a.
    - injection H as <- H. f_equal. now apply IH. }
  split; [apply Hw|]. split.
  - assert (Hlen : forall s : string,
               String.length (s ++ "]") = S (String.length s))
      by (induction s as [|x a IH]; [reflexivity|];
          change (S (String.length (a ++ "]")) = S (S (String.length a)));
          now rewrite IH).
    rewrite Hw. cbn [String.length]. rewrite Hlen. lia.
  - rewrite !Hw. intros [= H]. now apply Hinj.
Qed.

(** ** What [fold] leaves alone *)

(** X27.  [fold] neither adds nor removes a column, and [normalize]
    no row; a column that holds one value, or an array of at most one
    element, is left as it is; and a single value in a folded row is
    the value the row had there, or the first of the equal values of
    an array. *)
Theorem fold_keeps_the_columns (record : gmap string Rows.column) :
  dom (Rows.fold record) = dom record
  /\ (forall rows, length (Rows.normalize (Some rows)) = length rows)
  /\ (forall key value,
      record !! key = Some value ->
      (forall elems, value = Rows.Multi elems -> length elems <= 1) ->
      Rows.fold record !! key = Some value)
  /\ (forall key c,
      Rows.fold record !! key = Some (Rows.Single c) ->
      record !! key = Some (Rows.Single c)
      \/ exists rest,
           record !! key = Some (Rows.Multi (c :: rest))
           /\ rest <> []
           /\ forallb (fun el => Rows.strict_eq el c) (c :: rest) = true).
Proof.
  unfold Rows.fold. split; [|split; [|split]].
  - apply dom_fmap_L.
  - intros rows. cbn. apply length_map.
  - intros key value Hk Hsmall. rewrite lookup_fmap, Hk. cbn. f_equal.
    destruct value as [c|[|first [|second rest]]]; try reflexivity.
    specialize (Hsmall _ eq_refl). cbn in Hsmall. lia.
  - intros key c. rewrite lookup_fmap.
    destruct (record !! key) as [[c0|[|first rest]]|];
      cbn [fmap option_fmap option_map Rows.fold_column]; try discriminate.
    + intros [= <-]. now left.
    + destruct ((1 <? length (first :: rest))%nat
                && forallb (fun el => Rows.strict_eq el first) (first :: rest)) eqn:E;
        [|discriminate].
      intros [= <-]. right. exists rest.
      apply andb_true_iff in E. destruct E as [E1 E2].
      split; [reflexivity|]. split; [|exact E2].
      apply Nat.ltb_lt in E1. destruct rest; [cbn in E1; lia|discriminate].
Qed.

Lemma fold_keeps_the_columns_witness :
  Rows.fold Samples.two_ducks !! "name"
  = Some (Rows.Multi [Rows.CString "Duck"; Rows.CString "Goose"])
  /\ Rows.fold Samples.duplicate_name !! "name"
     = Some (Rows.Single (Rows.CString "Duck"))
  /\ (Samples.duplicate_name !! "name" = Some (Rows.Single (Rows.CString "Duck"))
      \/ exists rest,
           Samples.duplicate_name !! "name"
           = Some (Rows.Multi (Rows.CString "Duck" :: rest))
           /\ rest <> []
           /\ forallb (fun el => Rows.strict_eq el (Rows.CString "Duck"))
                (Rows.CString "Duck" :: rest) = true).
Proof.
  assert (H : Rows.fold Samples.duplicate_name !! "name"
              = Some (Rows.Single (Rows.CString "Duck")))
    by (vm_compute; reflexivity).
  split; [vm_compute; reflexivity|]. split; [exact H|].
  exact (proj2 (proj2 (proj2 (fold_keeps_the_columns Samples.duplicate_name)))
           "name" (Rows.CString "Duck") H).
Defined.

(** ** The scale of a number *)

Section Places.

Import DecimalRegex Spec Shapes Numeral.

Lemma code_places_layout (pre : list ascii) (fr : option (list ascii))
    (ex : option (ascii * list ascii)) :
  Forall plain pre ->
  (forall ds, fr = Some ds -> digits1 ds) ->
  (forall sg eds, ex = Some (sg, eds) ->
     (sg = "+"%char \/ sg = "-"%char) /\ digits1 eds) ->
  code_places (layout pre fr ex)
  = Z.max 0
      ((match fr with Some ds => Z.of_nat (length ds) | None => 0 end)
       - (match ex with Some (sg, eds) => to_number (sg :: eds) | None => 0 end)).
Proof.
  intros Hpre Hfr Hex. unfold code_places, layout.
  rewrite exec_skip by exact Hpre.
  destruct fr as [ds|]; destruct ex as [[sg eds]|].
  - pose proof (Hfr ds eq_refl) as Hds.
    destruct (Hex sg eds eq_refl) as [Hsg Heds].
    cbn [app exec].
    rewrite (match_here_fraction ds _ (Some (sg :: eds))); try easy.
    now apply exponent_then_end_exp.
  - pose proof (Hfr ds eq_refl) as Hds.
    cbn [app exec].
    rewrite (match_here_fraction ds [] None); easy.
  - destruct (Hex sg eds eq_refl) as [Hsg Heds].
    cbn [app exec]. now rewrite match_here_exp.
  - reflexivity.
Qed.

Lemma digits_value_acc (u : Decimal.uint) (acc : positive) :
  fold_left (fun a c => 10 * a + digit_value c)%Z (uint_chars u) (Zpos acc)
  = Zpos (Pos.of_uint_acc u acc).
Proof.
  revert acc. induction u as [|u IH|u IH|u IH|u IH|u IH|u IH|u IH|u IH|u IH|u IH];
    intros acc; [reflexivity|..];
    cbn [uint_chars fold_left Pos.of_uint_acc];
    match goal with
    | |- context [digit_value ?c] =>
        let v := eval vm_compute in (digit_value c) in
        change (digit_value c) with v
    end;
    match goal with
    | |- fold_left _ _ ?z = Zpos (Pos.of_uint_acc _ ?q) =>
        replace z with (Zpos q) by lia; apply IH
    end.
Qed.

Lemma digits_value_uint (u : Decimal.uint) :
  digits_value (uint_chars u) = Z.of_N (Pos.of_uint u).
Proof.
  unfold digits_value.
  induction u as [|u IH|u IH|u IH|u IH|u IH|u IH|u IH|u IH|u IH|u IH];
    [reflexivity|exact IH|..];
    cbn [uint_chars fold_left Pos.of_uint];
    match goal with
    | |- context [digit_value ?c] =>
        let v := eval vm_compute in (digit_value c) in
        change (digit_value c) with v
    end;
    apply digits_value_acc.
Qed.

Lemma digits_value_decimal (p : positive) : digits_value (digits_of p) = Zpos p.
Proof.
  unfold digits_of. now rewrite digits_value_uint, DecimalPos.Unsigned.of_to.
Qed.

Lemma to_number_signed (e : Z) :
  to_number ((if (e <? 0)%Z then "-"%char else "+"%char) :: Z_abs_chars e) = e.
Proof.
  destruct e as [|p|p]; cbn [Z.ltb Z.compare Z_abs_chars]; unfold to_number.
  - reflexivity.
  - change (is_char "-" "+") with false. change (is_char "+" "+") with true.
    cbn iota. apply digits_value_decimal.
  - change (is_char "-" "-") with true. cbn iota.
    now rewrite digits_value_decimal.
Qed.

Lemma drop_zeros_nil (l : list ascii) :
  drop_zeros l = [] -> Forall (fun c => c = "0"%char) l.
Proof.
  induction l as [|c l IH]; cbn; [constructor|].
  destruct (is_char "0" c) eqn:E; [|discriminate].
  intros H. apply is_char_eq in E. constructor; auto.
Qed.

Lemma drop_zeros_length (l : list ascii) : length (drop_zeros l) <= length l.
Proof.
  induction l as [|c l IH]; cbn; [lia|].
  destruct (is_char "0" c); cbn; lia.
Qed.

Lemma zeros_value (u : Decimal.uint) :
  Forall (fun c => c = "0"%char) (uint_chars u) -> Pos.of_uint u = 0%N.
Proof.
  induction u as [|u IH|u IH|u IH|u IH|u IH|u IH|u IH|u IH|u IH|u IH];
    cbn [uint_chars Pos.of_uint]; intros H; [reflexivity|..];
    inversion H as [|? ? Hc Ht]; subst; [now apply IH|discriminate Hc..].
Qed.

Lemma significand_nonempty (p : positive) : significand (digits_of p) <> [].
Proof.
  unfold significand. intros H.
  assert (H' : drop_zeros (rev (digits_of p)) = []).
  { destruct (drop_zeros (rev (digits_of p))) as [|x l]; [reflexivity|].
    cbn in H. now destruct (rev l). }
  apply drop_zeros_nil, List.Forall_rev in H'. rewrite rev_involutive in H'.
  apply zeros_value in H'. now rewrite DecimalPos.Unsigned.of_to in H'.
Qed.

Lemma significand_length (ds : list ascii) :
  length (significand ds) <= length ds.
Proof.
  unfold significand. rewrite length_rev.
  etransitivity; [apply drop_zeros_length|]. now rewrite length_rev.
Qed.

Lemma zeros_length (n : nat) : length (zeros n) = n.
Proof. apply repeat_length. Qed.

Lemma code_places_plain (pre : list ascii) :
  Forall plain pre -> code_places pre = 0%Z.
Proof.
  intros H. replace pre with (layout pre None None)
    by (unfold layout; now rewrite !app_nil_r).
  now rewrite code_places_layout.
Qed.

Lemma code_places_fraction (pre ds : list ascii) :
  Forall plain pre -> digits1 ds ->
  code_places (pre ++ "."%char :: ds) = Z.of_nat (length ds).
Proof.
  intros H Hds. replace (pre ++ "."%char :: ds) with (layout pre (Some ds) None)
    by (unfold layout; cbn; now rewrite app_nil_r).
  rewrite code_places_layout; try easy; [lia|now intros ? [= <-]].
Qed.

Lemma code_places_exponent (pre : list ascii) (fr : option (list ascii))
    (e : Z) :
  Forall plain pre -> (forall ds, fr = Some ds -> digits1 ds) ->
  code_places
    (pre ++ (match fr with Some ds => "."%char :: ds | None => [] end)
         ++ "e"%char :: (if (e <? 0)%Z then "-"%char else "+"%char)
         :: Z_abs_chars e)
  = Z.max 0 ((match fr with Some ds => Z.of_nat (length ds) | None => 0 end) - e).
Proof.
  intros H Hfr.
  change (code_places
            (layout pre fr
               (Some (if (e <? 0)%Z then "-"%char else "+"%char, Z_abs_chars e)))
          = Z.max 0 ((match fr with Some ds => Z.of_nat (length ds) | None => 0 end) - e)).
  rewrite code_places_layout; try easy.
  - now rewrite to_number_signed.
  - intros sg eds [= <- <-]. split; [|apply Z_abs_chars_digits1].
    destruct (e <? 0)%Z; auto.
Qed.

Lemma render_places (s : list ascii) (n : Z) :
  s <> [] -> Forall digit s ->
  code_places (render s n) = Z.max 0 (Z.of_nat (length s) - n).
Proof.
  intros Hne Hs. unfold render.
  destruct ((Z.of_nat (length s) <=? n)%Z && (n <=? 21)%Z) eqn:E1.
  { apply andb_true_iff in E1. destruct E1 as [E1 _]. apply Z.leb_le in E1.
    rewrite code_places_plain; [lia|].
    apply digits_plain, Forall_app. split; [exact Hs|apply zeros_digits]. }
  destruct ((0 <? n)%Z && (n <=? 21)%Z) eqn:E2.
  { apply andb_true_iff in E2. destruct E2 as [E2 E2'].
    apply Z.ltb_lt in E2. apply Z.leb_le in E2'.
    assert (Hlt : (n < Z.of_nat (length s))%Z).
    { apply andb_false_iff in E1. destruct E1 as [E1|E1];
        [apply Z.leb_gt in E1; lia|apply Z.leb_gt in E1; lia]. }
    rewrite code_places_fraction.
    - rewrite length_skipn. lia.
    - apply digits_plain, Forall_take, Hs.
    - split; [|apply Forall_drop, Hs].
      intros H. apply (f_equal (@length ascii)) in H.
      rewrite length_skipn in H. cbn in H. lia. }
  destruct ((-6 <? n)%Z && (n <=? 0)%Z) eqn:E3.
  { apply andb_true_iff in E3. destruct E3 as [E3 E3'].
    apply Z.ltb_lt in E3. apply Z.leb_le in E3'.
    change ("0"%char :: "."%char :: zeros (Z.to_nat (- n)) ++ s)
      with (["0"%char] ++ "."%char :: zeros (Z.to_nat (- n)) ++ s).
    rewrite code_places_fraction.
    - rewrite length_app, zeros_length. lia.
    - now repeat constructor.
    - split; [destruct s; [easy|now destruct (zeros _)]|].
      apply Forall_app. split; [apply zeros_digits|exact Hs]. }
  destruct s as [|d [|d' ds']]; [easy| |].
  - change (d :: "e"%char :: ?sg :: ?t) with ([d] ++ [] ++ "e"%char :: sg :: t).
    rewrite (code_places_exponent [d] None); try easy.
    + cbn [length]. lia.
    + apply digits_plain, Hs.
  - change (d :: "."%char :: (d' :: ds') ++ "e"%char :: ?sg :: ?t)
      with ([d] ++ ("."%char :: d' :: ds') ++ "e"%char :: sg :: t).
    rewrite (code_places_exponent [d] (Some (d' :: ds'))).
    + cbn [length]. lia.
    + apply digits_plain. inversion Hs; subst. now repeat constructor.
    + intros ds [= <-]. split; [easy|]. now inversion Hs.
Qed.

Lemma code_places_minus (l : list ascii) :
  code_places ("-"%char :: l) = code_places l.
Proof.
  unfold code_places. change ("-"%char :: l) with (["-"%char] ++ l).
  rewrite exec_skip; [reflexivity|]. now repeat constructor.
Qed.

Lemma render_length_positional (s : list ascii) (n : Z) :
  s <> [] -> (-6 < n <= 21)%Z ->
  (Z.max 0 (Z.of_nat (length s) - n) < Z.of_nat (length (render s n)))%Z.
Proof.
  intros Hne Hn. unfold render.
  assert (Hk : 0 < length s) by (destruct s; [easy|cbn; lia]).
  destruct ((Z.of_nat (length s) <=? n)%Z && (n <=? 21)%Z) eqn:E1.
  { apply andb_true_iff in E1. destruct E1 as [E1 _]. apply Z.leb_le in E1.
    rewrite length_app, zeros_length. lia. }
  destruct ((0 <? n)%Z && (n <=? 21)%Z) eqn:E2.
  { apply andb_true_iff in E2. destruct E2 as [E2 _]. apply Z.ltb_lt in E2.
    rewrite length_app. cbn [length]. rewrite length_firstn, length_skipn. lia. }
  destruct ((-6 <? n)%Z && (n <=? 0)%Z) eqn:E3.
  { cbn [length]. rewrite length_app, zeros_length. lia. }
  apply andb_false_iff in E2, E3.
  destruct E2 as [E2|E2], E3 as [E3|E3];
    try apply Z.ltb_ge in E2; try apply Z.leb_gt in E2;
    try apply Z.ltb_ge in E3; try apply Z.leb_gt in E3; lia.
Qed.

End Places.


(** X28.  [decimalPlaces] returns the number of decimal places of the
    value, in whichever of its four notations the number prints, the
    exponent notation included: for [m * 10^e] with [m] not zero it is
    [-(e + t)], where [t] is the number of zeroes the numeral of [m]
    ends with, and [0] when that is negative. *)
Theorem decimalPlaces_counts_the_places (m e : Z) :
  m <> 0%Z ->
  decimalPlaces (Dec m e)
  = Z.max 0 (- (e + Z.of_nat (Numeral.trailing_zeros (Z_abs_chars m)))).
Proof.
  intros Hm.
  change (decimalPlaces (Dec m e))
    with (Shapes.code_places (chars (toString (Dec m e)))).
  unfold Numeral.trailing_zeros.
  destruct m as [|p|p]; [easy| |]; cbn [toString Z_abs_chars];
    rewrite chars_text; rewrite ?code_places_minus;
    unfold render_pos;
    (rewrite render_places;
     [|apply significand_nonempty
      |apply significand_digits, digits_of_digits1]);
    pose proof (significand_length (digits_of p)); lia.
Qed.

Lemma decimalPlaces_counts_the_places_witness :
  toString (Dec 15 (-11)) = "1.5e-10"
  /\ decimalPlaces (Dec 15 (-11)) = 11%Z
  /\ toString (Dec 1200 0) = "1200"
  /\ decimalPlaces (Dec 1200 0) = 0%Z.
Proof.
  assert (H15 : (15 <> 0)%Z) by lia.
  assert (H1200 : (1200 <> 0)%Z) by lia.
  split; [vm_compute; reflexivity|]. split.
  - now rewrite (decimalPlaces_counts_the_places 15 (-11) H15).
  - split; [vm_compute; reflexivity|].
    now rewrite (decimalPlaces_counts_the_places 1200 0 H1200).
Defined.

(** X29.  For a number that prints in positional notation, zero or
    one whose decimal point lies from five zeroes before its first
    digit to the twenty-first digit, the scale [getType] infers is
    below the precision it infers, the length of the string form. *)
Theorem positional_scale_is_below_precision (m e : Z) :
  m = 0%Z
  \/ (-6 < Z.of_nat (length (Z_abs_chars m)) + e <= 21)%Z ->
  (decimalPlaces (Dec m e)
   < Z.of_nat (String.length (toString (Dec m e))))%Z.
Proof.
  intros [->|Hn]; [reflexivity|].
  destruct (Z.eq_dec m 0%Z) as [->|Hm]; [reflexivity|].
  change (decimalPlaces (Dec m e))
    with (Shapes.code_places (chars (toString (Dec m e)))).
  destruct m as [|p|p]; [easy| |]; cbn [toString Z_abs_chars] in *;
    rewrite chars_text, length_text; rewrite ?code_places_minus;
    unfold render_pos;
    (rewrite render_places;
     [|apply significand_nonempty
      |apply significand_digits, digits_of_digits1]);
    pose proof (render_length_positional
                  (significand (digits_of p))
                  (Z.of_nat (length (digits_of p)) + e)
                  (significand_nonempty p) Hn);
    cbn [length]; lia.
Qed.

Lemma positional_scale_is_below_precision_witness :
  toString (Dec 99 (-2)) = "0.99"
  /\ (decimalPlaces (Dec 99 (-2))
      < Z.of_nat (String.length (toString (Dec 99 (-2)))))%Z.
Proof.
  split; [vm_compute; reflexivity|].
  apply (positional_scale_is_below_precision 99 (-2)).
  right. vm_compute. split; [reflexivity|discriminate].
Defined.

(** In exponent notation the scale can exceed the precision: [1e-7]
    is declared [Decimal(4, 7)]. *)
Example tiny_number_scale_exceeds_precision :
  toString (Dec 1 (-7)) = "1e-7"
  /\ bind_param (JNumber (Dec 1 (-7)))
     = Ok (Bound (JNumber (Dec 1 (-7))),
           mssql.Decimal (JNumber (of_nat 4)) (JNumber (of_Z 7))).
Proof. split; vm_compute; reflexivity. Qed.

(** ** [beginTransaction] when it fails *)

(** X30.  [beginTransaction] passes a failure on without rolling
    back.  When the connection fails it creates no transaction; when
    the begin fails the caller receives that failure and no handle,
    the begin is the only command issued, and the transaction that
    was created stays registered with its flag unset, unless the
    driver's rollback event fired meanwhile. *)
Theorem beginTransaction_passes_failures_on (connect : option error)
    (isolationLevel : string) (r : response) (s : StepByStep.state) (e : error) :
  (connect = Some e ->
     StepByStep.beginTransaction connect isolationLevel r s = (Err e, s))
  /\ (connect = None -> failure r = Some e ->
      let out := StepByStep.beginTransaction connect isolationLevel r s in
      fst out = Err e
      /\ StepByStep.issued (snd out)
         = StepByStep.issued s ++ [(StepByStep.created s, Begin isolationLevel)]
      /\ StepByStep.created (snd out) = S (StepByStep.created s)
      /\ StepByStep.created s ∈ StepByStep.listening (snd out)
      /\ StepByStep.flag (StepByStep.created s) (snd out) = emits_rollback r).
Proof.
  split; [now intros ->|]. intros -> He. cbn zeta.
  unfold StepByStep.beginTransaction, StepByStep.new_transaction, and_then,
    resolve, StepByStep.call, outcome.
  rewrite He. cbn [fst snd].
  destruct (emits_rollback r); cbn [fst snd].
  - unfold StepByStep.emit. cbn.
    rewrite bool_decide_eq_true_2 by set_solver. cbn.
    repeat split; try reflexivity; [set_solver|].
    unfold StepByStep.flag. cbn. now rewrite lookup_insert_eq.
  - cbn. repeat split; try reflexivity; [set_solver|].
    unfold StepByStep.flag. cbn. now rewrite lookup_insert_eq.
Qed.

Lemma beginTransaction_passes_failures_on_witness :
  fst (StepByStep.beginTransaction None "READ_COMMITTED" Cases.declines
         StepByStep.initial)
  = Err (Failure "begin failed")
  /\ StepByStep.issued
       (snd (StepByStep.beginTransaction None "READ_COMMITTED" Cases.declines
               StepByStep.initial))
     = [(0, Begin "READ_COMMITTED")].
Proof.
  destruct (proj2 (beginTransaction_passes_failures_on None "READ_COMMITTED"
                     Cases.declines StepByStep.initial (Failure "begin failed"))
              eq_refl eq_refl) as (H1 & H2 & _).
  split; [exact H1|exact H2].
Defined.
